(** * TopicManager: normalization, registry, synonyms and relationship graph

    A shallow embedding of [src/TopicManager.ts] (the TopicManager class of the
    twitter-topic-modeling plugin) and the properties of it that the design
    document states.

    Conventions of the embedding.
    - A JavaScript string is the sequence of its UTF-16 code units.  The model
      covers the strings whose code units are below 256 (ISO-8859-1), written
      as Rocq [string]s; every key [normalizeTopic] returns is such a string.
    - A JavaScript [Map] keeps its entries in insertion order; it is an
      association list with the [get]/[set]/[delete] of the language
      ([JsMap] below).  The synonym table and the core-topic set are only ever
      queried by key, so they are a [gmap] and a [gset].
    - Counters and edge strengths are JavaScript numbers holding integers; they
      are [Z] (exact below 2^53).  Interest levels are real numbers.
    - [Date.now()] is an input: every operation that reads the clock takes the
      readings as arguments.
    - [await this.saveTopics()] writes a snapshot to the external cache and
      does not change the manager; it is left out. *)

From Stdlib Require Import String Ascii List Bool Arith ZArith QArith Reals Lia Lra.
From Stdlib Require Import Sorting.Sorted Sorting.Permutation.
From stdpp Require Import base gmap strings.
Import ListNotations.

Local Open Scope string_scope.
Local Open Scope list_scope.

(** ** JavaScript string primitives used by [normalizeTopic] *)

Module JsString.

Definition code (c : ascii) : nat := nat_of_ascii c.

Definition between (lo hi n : nat) : bool := (lo <=? n)%nat && (n <=? hi)%nat.

(** The class [\s] (and the characters [trim] removes) among the code units
    below 256: TAB, LF, VT, FF, CR, SPACE and NO-BREAK SPACE. *)
Definition isSpace (c : ascii) : bool :=
  between 9 13 (code c) || (code c =? 32)%nat || (code c =? 160)%nat.

(** The class [\w]: [A-Za-z0-9_]. *)
Definition isWord (c : ascii) : bool :=
  between 48 57 (code c) || between 65 90 (code c)
  || (code c =? 95)%nat || between 97 122 (code c).

(** [toLowerCase] on one code unit: A-Z, and the capital letters of the
    Latin-1 supplement (U+00C0 to U+00DE without the multiplication sign). *)
Definition lowerChar (c : ascii) : ascii :=
  if between 65 90 (code c)
     || (between 192 222 (code c) && negb (code c =? 215)%nat)
  then ascii_of_nat (code c + 32) else c.

Fixpoint toLowerCase (s : string) : string :=
  match s with
  | EmptyString => EmptyString
  | String c s' => String (lowerChar c) (toLowerCase s')
  end.

Fixpoint trimStart (s : string) : string :=
  match s with
  | EmptyString => EmptyString
  | String c s' => if isSpace c then trimStart s' else s
  end.

Fixpoint trimEnd (s : string) : string :=
  match s with
  | EmptyString => EmptyString
  | String c s' =>
      match trimEnd s' with
      | EmptyString => if isSpace c then EmptyString else String c EmptyString
      | r => String c r
      end
  end.

Definition trim (s : string) : string := trimEnd (trimStart s).

(** [s.replace(/\s+/g, ' ')]: every maximal run of white space becomes one
    space.  [inRun] tells that the previous character was white space. *)
Fixpoint collapseFrom (inRun : bool) (s : string) : string :=
  match s with
  | EmptyString => EmptyString
  | String c s' =>
      if isSpace c
      then (if inRun then collapseFrom true s'
            else String " " (collapseFrom true s'))
      else String c (collapseFrom false s')
  end.

Definition collapseSpaces (s : string) : string := collapseFrom false s.

(** [s.replace(/[^\w\s]/g, '')]. *)
Fixpoint stripSpecial (s : string) : string :=
  match s with
  | EmptyString => EmptyString
  | String c s' =>
      if isWord c || isSpace c then String c (stripSpecial s')
      else stripSpecial s'
  end.

(** [s.split(sep)] for a one-character separator: never the empty list. *)
Fixpoint split (sep : ascii) (s : string) : list string :=
  match s with
  | EmptyString => [EmptyString]
  | String c s' =>
      if Ascii.eqb c sep then EmptyString :: split sep s'
      else match split sep s' with
           | w :: ws => String c w :: ws
           | [] => [String c EmptyString]
           end
  end.

(** [words.join(sep)]. *)
Definition join (sep : string) (ws : list string) : string :=
  String.concat sep ws.

(** [arr.includes(w)] on an array of strings. *)
Definition includes (arr : list string) (w : string) : bool :=
  existsb (String.eqb w) arr.

End JsString.

Import JsString.

(** ** normalizeTopic *)

Definition stopWords : list string :=
  ["a"; "an"; "the"; "and"; "or"; "but"; "of"; "for"; "in"; "on"; "at"; "to"].

(** Steps 1 to 4 of [normalizeTopic]: the string the stop-word step starts
    from. *)
Definition cleanTopic (topic : string) : string :=
  stripSpecial (collapseSpaces (trim (toLowerCase topic))).

Definition normalizeTopic (topic : string) : string :=
  let normalized := cleanTopic topic in
  let words := split " " normalized in
  let words :=
    if (1 <? List.length words)%nat
    then List.filter (fun word => negb (includes stopWords word)) words
    else words in
  join " " words.

(** ** JavaScript [Map] and [Set]

    Entries are kept in insertion order: [set] on a present key replaces the
    value where it stands, on an absent key it appends.  *)

Module JsMap.

Section Ops.
Context {V : Type}.

Fixpoint get (k : string) (m : list (string * V)) : option V :=
  match m with
  | [] => None
  | (k', v) :: m' => if String.eqb k k' then Some v else get k m'
  end.

Definition has (k : string) (m : list (string * V)) : bool :=
  match get k m with Some _ => true | None => false end.

Fixpoint set (k : string) (v : V) (m : list (string * V)) : list (string * V) :=
  match m with
  | [] => [(k, v)]
  | (k', v') :: m' =>
      if String.eqb k k' then (k, v) :: m' else (k', v') :: set k v m'
  end.

Definition delete (k : string) (m : list (string * V)) : list (string * V) :=
  List.filter (fun e => negb (String.eqb k (fst e))) m.

Definition keys (m : list (string * V)) : list string := map fst m.

Definition size (m : list (string * V)) : nat := List.length m.

(** The keys of a [Map] are pairwise distinct. *)
Definition wf (m : list (string * V)) : Prop := List.NoDup (keys m).
End Ops.

End JsMap.

Module JsSet.

(** [s.add(x)] *)
Definition add (s : list string) (x : string) : list string :=
  if includes s x then s else s ++ [x].

(** [new Set(xs)]: the distinct elements of [xs], first occurrences in
    order. *)
Definition ofList (xs : list string) : list string := fold_left add xs [].

End JsSet.

(** [x || y] on an optional string: [undefined] and the empty string are
    falsy. *)
Definition orString (x : option string) (y : string) : string :=
  match x with
  | Some v => if String.eqb v "" then y else v
  | None => y
  end.

(** [x || 0] on an optional number. *)
Definition orZero (x : option Z) : Z :=
  match x with Some v => v | None => 0%Z end.

(** ** The state of a TopicManager *)

Record TopicMetadata := mkMetadata {
  isCore : bool;
  interestLevel : R;
  discoveryDate : Z;
  lastUpdated : Z;
  observationCount : Z;
  mentionCount : Z;
  relatedTopics : list string
}.

Record TopicManager := mkManager {
  coreTopics : gset string;
  discoveredTopics : list (string * TopicMetadata);
  topicRelationships : list (string * list (string * Z));
  synonyms : gmap string string
}.

(** The manager the constructor starts from, before any initial topic. *)
Definition emptyManager : TopicManager :=
  mkManager ∅ [] [] ∅.

Definition withCore (f : gset string -> gset string) (tm : TopicManager) :=
  mkManager (f (coreTopics tm)) (discoveredTopics tm) (topicRelationships tm) (synonyms tm).

Definition withTopics
    (f : list (string * TopicMetadata) -> list (string * TopicMetadata))
    (tm : TopicManager) :=
  mkManager (coreTopics tm) (f (discoveredTopics tm)) (topicRelationships tm) (synonyms tm).

Definition withRelationships
    (f : list (string * list (string * Z)) -> list (string * list (string * Z)))
    (tm : TopicManager) :=
  mkManager (coreTopics tm) (discoveredTopics tm) (f (topicRelationships tm)) (synonyms tm).

Definition withSynonyms (f : gmap string string -> gmap string string) (tm : TopicManager) :=
  mkManager (coreTopics tm) (discoveredTopics tm) (topicRelationships tm) (f (synonyms tm)).

(** ** Registry operations *)

(** [now1] and [now2] are the two clock readings of a creation. *)
Definition addTopic (now1 now2 : Z) (topic : string) (core : bool)
    (tm : TopicManager) : string * TopicManager :=
  let normalizedTopic := normalizeTopic topic in
  match JsMap.get normalizedTopic (discoveredTopics tm) with
  | Some metadata =>
      if core && negb (isCore metadata)
      then
        let metadata' :=
          mkMetadata true (interestLevel metadata) (discoveryDate metadata)
            (lastUpdated metadata) (observationCount metadata)
            (mentionCount metadata) (relatedTopics metadata) in
        (normalizedTopic,
         withCore (fun c => {[normalizedTopic]} ∪ c)
           (withTopics (JsMap.set normalizedTopic metadata') tm))
      else (normalizedTopic, tm)
  | None =>
      let fresh :=
        mkMetadata core (if core then 1 else 1 / 2)%R now1 now2 0 0 [] in
      let tm1 := withTopics (JsMap.set normalizedTopic fresh) tm in
      let tm2 := if core then withCore (fun c => {[normalizedTopic]} ∪ c) tm1 else tm1 in
      (normalizedTopic, withRelationships (JsMap.set normalizedTopic []) tm2)
  end.

Definition getCanonicalTopic (tm : TopicManager) (topic : string) : string :=
  let normalized := normalizeTopic topic in
  orString (synonyms tm !! normalized) normalized.

Definition hasTopic (tm : TopicManager) (topic : string) : bool :=
  let normalized := normalizeTopic topic in
  JsMap.has normalized (discoveredTopics tm)
  || bool_decide (is_Some (synonyms tm !! normalized)).

Definition getTopicMetadata (tm : TopicManager) (topic : string) : option TopicMetadata :=
  JsMap.get (getCanonicalTopic tm topic) (discoveredTopics tm).

(** ** Similarity of keys

    [similarity] in the source is the quotient of two set sizes, a double; the
    model keeps the exact quotient, a rational, and thresholds are
    rationals. *)

Definition wordSet (key : string) : list string := JsSet.ofList (split " " key).

Definition jaccard (topicWords existingWords : list string) : Q :=
  let intersection :=
    JsSet.ofList (List.filter (fun word => includes existingWords word) topicWords) in
  let union := JsSet.ofList (topicWords ++ existingWords) in
  Z.of_nat (List.length intersection) # Pos.of_nat (List.length union).

(** One iteration of the scan of [findSimilarTopicByComparison]; the state is
    [(bestMatch, bestSimilarity)]. *)
Definition compareStep (normalized : string) (threshold : Q)
    (best : option string * Q) (existingTopic : string) : option string * Q :=
  if String.eqb existingTopic normalized then best
  else
    let similarity := jaccard (wordSet normalized) (wordSet existingTopic) in
    if negb (Qle_bool similarity (snd best)) && Qle_bool threshold similarity
    then (Some existingTopic, similarity)
    else best.

Definition findSimilarTopicByComparison (tm : TopicManager)
    (normalized : string) (threshold : Q) : option string :=
  fst (fold_left (compareStep normalized threshold)
         (JsMap.keys (discoveredTopics tm)) (None, 0%Q)).

(** [viaLLM normalized allTopics threshold] stands for the answer of
    [findSimilarTopicViaLLM], which asks the language model. *)
Definition findSimilarTopic
    (viaLLM : string -> list string -> Q -> option string)
    (tm : TopicManager) (topic : string) (threshold : Q) : option string :=
  let normalized := normalizeTopic topic in
  if JsMap.has normalized (discoveredTopics tm) then Some normalized
  else
    match synonyms tm !! normalized with
    | Some canonical => Some canonical
    | None =>
        if (JsMap.size (discoveredTopics tm) <? 100)%nat
        then findSimilarTopicByComparison tm normalized threshold
        else viaLLM normalized (JsMap.keys (discoveredTopics tm)) threshold
    end.

Definition similarityThreshold : Q := 85 # 100.

(** ** Interest level *)

Definition msPerDay : R := (1000 * 60 * 60 * 24)%R.

Definition recencyFactor (now : Z) (metadata : TopicMetadata) : R :=
  let daysSinceLastUpdate := (IZR (now - lastUpdated metadata) / msPerDay)%R in
  exp (- (1 / 10) * daysSinceLastUpdate).

Definition frequencyFactor (metadata : TopicMetadata) : R :=
  Rmin 1 (IZR (observationCount metadata) / 10).

Definition interestScore (now : Z) (metadata : TopicMetadata) : R :=
  if isCore metadata
  then Rmax (7 / 10) (3 / 10 * recencyFactor now metadata + 7 / 10 * frequencyFactor metadata)
  else (6 / 10 * recencyFactor now metadata + 4 / 10 * frequencyFactor metadata)%R.

Definition setInterest (lvl : R) (metadata : TopicMetadata) : TopicMetadata :=
  mkMetadata (isCore metadata) lvl (discoveryDate metadata) (lastUpdated metadata)
    (observationCount metadata) (mentionCount metadata) (relatedTopics metadata).

Definition updateInterestLevel (now : Z) (topic : string) (tm : TopicManager) : TopicManager :=
  match JsMap.get topic (discoveredTopics tm) with
  | None => tm
  | Some metadata =>
      withTopics (JsMap.set topic (setInterest (interestScore now metadata) metadata)) tm
  end.

(** [now1] is the reading stored in [lastUpdated], [now2] the one
    [updateInterestLevel] takes. *)
Definition updateTopicMetadata (now1 now2 : Z) (topic : string) (tm : TopicManager) : TopicManager :=
  match JsMap.get topic (discoveredTopics tm) with
  | None => tm
  | Some metadata =>
      let metadata' :=
        mkMetadata (isCore metadata) (interestLevel metadata) (discoveryDate metadata)
          now1 (observationCount metadata) (mentionCount metadata + 1)
          (relatedTopics metadata) in
      updateInterestLevel now2 topic (withTopics (JsMap.set topic metadata') tm)
  end.

(** ** Relationship graph *)

Definition incrementRelationship (topic1 topic2 : string) (tm : TopicManager) : TopicManager :=
  let rels :=
    if JsMap.has topic1 (topicRelationships tm) then topicRelationships tm
    else JsMap.set topic1 [] (topicRelationships tm) in
  let relationships :=
    match JsMap.get topic1 rels with Some r => r | None => [] end in
  let currentStrength := orZero (JsMap.get topic2 relationships) in
  let rels' := JsMap.set topic1 (JsMap.set topic2 (currentStrength + 1)%Z relationships) rels in
  let tm' := withRelationships (fun _ => rels') tm in
  match JsMap.get topic1 (discoveredTopics tm') with
  | Some metadata =>
      if negb (includes (relatedTopics metadata) topic2)
      then
        let metadata' :=
          mkMetadata (isCore metadata) (interestLevel metadata) (discoveryDate metadata)
            (lastUpdated metadata) (observationCount metadata) (mentionCount metadata)
            (relatedTopics metadata ++ [topic2]) in
        withTopics (JsMap.set topic1 metadata') tm'
      else tm'
  | None => tm'
  end.

(** The two nested loops over the pairs [i < j]. *)
Fixpoint updateTopicRelationships (topics : list string) (tm : TopicManager) : TopicManager :=
  match topics with
  | [] => tm
  | topic1 :: rest =>
      updateTopicRelationships rest
        (fold_left
           (fun tm' topic2 =>
              incrementRelationship topic2 topic1 (incrementRelationship topic1 topic2 tm'))
           rest tm)
  end.

(** The body of the [forEach] of [trackObservation] for one topic;
    [clock topic] holds the two clock readings made while it runs. *)
Definition trackTopic (clock : string -> Z * Z) (uniqueTopics : list string)
    (tm : TopicManager) (topic : string) : TopicManager :=
  let tm1 :=
    match JsMap.get topic (discoveredTopics tm) with
    | Some metadata =>
        let metadata' :=
          mkMetadata (isCore metadata) (interestLevel metadata) (discoveryDate metadata)
            (fst (clock topic)) (observationCount metadata + 1) (mentionCount metadata + 1)
            (relatedTopics metadata) in
        updateInterestLevel (snd (clock topic)) topic
          (withTopics (JsMap.set topic metadata') tm)
    | None => tm
    end in
  updateTopicRelationships uniqueTopics tm1.

Definition trackObservation (clock : string -> Z * Z) (topics : list string)
    (tm : TopicManager) : TopicManager :=
  let uniqueTopics := JsSet.ofList (map (getCanonicalTopic tm) topics) in
  fold_left (trackTopic clock uniqueTopics) uniqueTopics tm.

(** [arr.sort((a, b) => b[1] - a[1])]: a stable sort by decreasing strength. *)
Fixpoint insertByStrength (e : string * Z) (sorted : list (string * Z)) : list (string * Z) :=
  match sorted with
  | [] => [e]
  | e' :: rest =>
      if (snd e <? snd e')%Z then e' :: insertByStrength e rest else e :: sorted
  end.

Definition sortByStrength (entries : list (string * Z)) : list (string * Z) :=
  fold_right insertByStrength [] entries.

Definition getRelatedTopics (tm : TopicManager) (topic : string) (limit : nat) : list string :=
  let canonicalTopic := getCanonicalTopic tm topic in
  match JsMap.get canonicalTopic (topicRelationships tm) with
  | None => []
  | Some relationships => map fst (firstn limit (sortByStrength relationships))
  end.

(** ** Discovery: the loop of [discoverTopicsFromText]

    The topics the language model extracted are an input; each comes with the
    two clock readings made while it is processed. *)

Definition discoverTopic
    (viaLLM : string -> list string -> Q -> option string)
    (acc : list string * TopicManager) (extracted : string * (Z * Z))
    : list string * TopicManager :=
  let topic := fst extracted in
  let now1 := fst (snd extracted) in
  let now2 := snd (snd extracted) in
  let tm := snd acc in
  let normalizedTopic := normalizeTopic topic in
  if String.eqb normalizedTopic "" then acc
  else
    match findSimilarTopic viaLLM tm normalizedTopic similarityThreshold with
    | Some similarTopic =>
        if String.eqb similarTopic ""
        then (fst acc ++ [normalizedTopic], snd (addTopic now1 now2 normalizedTopic false tm))
        else
          let tm1 :=
            if negb (String.eqb similarTopic normalizedTopic)
            then withSynonyms (insert normalizedTopic similarTopic) tm
            else tm in
          (fst acc, updateTopicMetadata now1 now2 similarTopic tm1)
    | None =>
        (fst acc ++ [normalizedTopic], snd (addTopic now1 now2 normalizedTopic false tm))
    end.

Definition discoverTopicsFromText
    (viaLLM : string -> list string -> Q -> option string)
    (extractedTopics : list (string * (Z * Z)))
    (tm : TopicManager) : list string * TopicManager :=
  fold_left (discoverTopic viaLLM) extractedTopics ([], tm).

(** ** mergeTopic *)

(** One iteration of the loop folding the source row into the target row. *)
Definition foldStrength (targetRelationships : list (string * Z)) (e : string * Z)
    : list (string * Z) :=
  let currentStrength := orZero (JsMap.get (fst e) targetRelationships) in
  JsMap.set (fst e) (currentStrength + snd e)%Z targetRelationships.

(** One iteration of the loop rewriting the references to the source. *)
Definition rewriteReferences (sourceCanonical targetCanonical : string)
    (relationships : list (string * Z)) : list (string * Z) :=
  if JsMap.has sourceCanonical relationships
  then
    let strength := orZero (JsMap.get sourceCanonical relationships) in
    let targetStrength := orZero (JsMap.get targetCanonical relationships) in
    JsMap.delete sourceCanonical
      (JsMap.set targetCanonical (strength + targetStrength)%Z relationships)
  else relationships.

Definition mergeRelationships (sourceCanonical targetCanonical : string)
    (rels : list (string * list (string * Z))) : list (string * list (string * Z)) :=
  let rels1 :=
    match JsMap.get sourceCanonical rels with
    | Some sourceRelationships =>
        let targetRelationships :=
          match JsMap.get targetCanonical rels with Some r => r | None => [] end in
        JsMap.set targetCanonical
          (fold_left foldStrength sourceRelationships targetRelationships) rels
    | None => rels
    end in
  map (fun e => (fst e, rewriteReferences sourceCanonical targetCanonical (snd e)))
    (JsMap.delete sourceCanonical rels1).

Definition mergeMetadata (targetCanonical : string)
    (sourceMetadata targetMetadata : TopicMetadata) : TopicMetadata :=
  mkMetadata
    (if isCore sourceMetadata then true else isCore targetMetadata)
    (Rmax (interestLevel targetMetadata) (interestLevel sourceMetadata))
    (discoveryDate targetMetadata)
    (lastUpdated targetMetadata)
    (observationCount targetMetadata + observationCount sourceMetadata)
    (mentionCount targetMetadata + mentionCount sourceMetadata)
    (List.filter (fun t => negb (String.eqb t targetCanonical))
       (JsSet.ofList (relatedTopics targetMetadata ++ relatedTopics sourceMetadata))).

Definition mergeTopic (sourceTopic targetTopic : string) (tm : TopicManager)
    : bool * TopicManager :=
  let sourceCanonical := getCanonicalTopic tm sourceTopic in
  let targetCanonical := getCanonicalTopic tm targetTopic in
  if String.eqb sourceCanonical targetCanonical then (false, tm)
  else
    match JsMap.get sourceCanonical (discoveredTopics tm),
          JsMap.get targetCanonical (discoveredTopics tm) with
    | Some sourceMetadata, Some targetMetadata =>
        let core1 :=
          if isCore sourceMetadata then {[targetCanonical]} ∪ coreTopics tm
          else coreTopics tm in
        (true,
         mkManager
           (core1 ∖ {[sourceCanonical]})
           (JsMap.delete sourceCanonical
              (JsMap.set targetCanonical
                 (mergeMetadata targetCanonical sourceMetadata targetMetadata)
                 (discoveredTopics tm)))
           (mergeRelationships sourceCanonical targetCanonical (topicRelationships tm))
           (<[sourceCanonical := targetCanonical]> (synonyms tm)))
    | _, _ => (false, tm)
    end.

(** ** Reachable states

    The managers that the public operations build from the empty one (the
    snapshot loaded from the cache is not modelled). *)

Inductive reachable : TopicManager -> Prop :=
| reach_empty : reachable emptyManager
| reach_addTopic now1 now2 topic core tm :
    reachable tm -> reachable (snd (addTopic now1 now2 topic core tm))
| reach_discover viaLLM extractedTopics tm :
    reachable tm -> reachable (snd (discoverTopicsFromText viaLLM extractedTopics tm))
| reach_trackObservation clock topics tm :
    reachable tm -> reachable (trackObservation clock topics tm)
| reach_mergeTopic sourceTopic targetTopic tm :
    reachable tm -> reachable (snd (mergeTopic sourceTopic targetTopic tm)).

(** The strength of the edge [a -> b]; an absent edge has strength 0. *)
Definition weight (rels : list (string * list (string * Z))) (a b : string) : Z :=
  match JsMap.get a rels with
  | Some row => orZero (JsMap.get b row)
  | None => 0%Z
  end.

Definition strength (tm : TopicManager) (a b : string) : Z :=
  weight (topicRelationships tm) a b.

(** * Further operations

    The queries and the merge planner of the TopicManager, and the hashtag
    formatting of the TwitterConnector, which calls it. *)

(** ** Queries *)

(** [arr.sort((a, b) => b[1].interestLevel - a[1].interestLevel)]: a stable
    sort by decreasing interest level. *)
Fixpoint insertByInterest (e : string * TopicMetadata)
    (sorted : list (string * TopicMetadata)) : list (string * TopicMetadata) :=
  match sorted with
  | [] => [e]
  | e' :: rest =>
      if Rlt_dec (interestLevel (snd e)) (interestLevel (snd e'))
      then e' :: insertByInterest e rest
      else e :: sorted
  end.

Definition sortByInterest (entries : list (string * TopicMetadata))
    : list (string * TopicMetadata) :=
  fold_right insertByInterest [] entries.

Definition getActiveTopics (tm : TopicManager) (minInterest : R) : list string :=
  map fst
    (sortByInterest
       (List.filter
          (fun e => if Rle_dec minInterest (interestLevel (snd e)) then true else false)
          (discoveredTopics tm))).

(** ** The merge planner *)

(** [Math.min] and [Math.max] on two rationals. *)
Definition qmin (a b : Q) : Q := if Qle_bool a b then a else b.

Definition qmax (a b : Q) : Q := if Qle_bool a b then b else a.

Definition calculateTopicSimilarity (tm : TopicManager) (topic1 topic2 : string) : Q :=
  let similarity := jaccard (wordSet topic1) (wordSet topic2) in
  match JsMap.get topic1 (topicRelationships tm) with
  | Some relationships1 =>
      match JsMap.get topic2 relationships1 with
      | Some s =>
          let relationshipStrength := qmin 1 (inject_Z s / 10) in
          qmax similarity relationshipStrength
      | None => similarity
      end
  | None => similarity
  end.

(** The inner loop of the pair scan, [topic1] against the topics after it. *)
Fixpoint candidatesFrom (tm : TopicManager) (threshold : Q) (topic1 : string)
    (rest : list string) : list (string * string * Q) :=
  match rest with
  | [] => []
  | topic2 :: rest' =>
      let similarity := calculateTopicSimilarity tm topic1 topic2 in
      if Qle_bool threshold similarity
      then (topic1, topic2, similarity) :: candidatesFrom tm threshold topic1 rest'
      else candidatesFrom tm threshold topic1 rest'
  end.

Fixpoint mergeCandidates (tm : TopicManager) (threshold : Q) (topics : list string)
    : list (string * string * Q) :=
  match topics with
  | [] => []
  | topic1 :: rest =>
      candidatesFrom tm threshold topic1 rest ++ mergeCandidates tm threshold rest
  end.

(** [mergeCandidates.sort((a, b) => b[2] - a[2])] *)
Fixpoint insertBySimilarity (c : string * string * Q)
    (sorted : list (string * string * Q)) : list (string * string * Q) :=
  match sorted with
  | [] => [c]
  | c' :: rest =>
      if negb (Qle_bool (snd c') (snd c))
      then c' :: insertBySimilarity c rest
      else c :: sorted
  end.

Definition sortBySimilarity (cs : list (string * string * Q)) : list (string * string * Q) :=
  fold_right insertBySimilarity [] cs.

(** The state of the loop that executes the merges.  Reading [isCore] of a
    record that is no longer there throws; the [catch] of
    [findAndExecuteMerges] then returns 0, and the merges made so far
    stay. *)
Inductive mergeLoop :=
| Looping (tm : TopicManager) (processedTopics : list string) (mergeCount : nat)
| Thrown (tm : TopicManager).

Definition executeMerge (st : mergeLoop) (c : string * string * Q) : mergeLoop :=
  match st with
  | Thrown _ => st
  | Looping tm processedTopics mergeCount =>
      let source := fst (fst c) in
      let target := snd (fst c) in
      if includes processedTopics source || includes processedTopics target then st
      else
        match JsMap.get source (discoveredTopics tm),
              JsMap.get target (discoveredTopics tm) with
        | Some sourceMetadata, Some targetMetadata =>
            if isCore sourceMetadata && negb (isCore targetMetadata)
            then Looping (snd (mergeTopic target source tm))
                   (JsSet.add processedTopics target) (S mergeCount)
            else if negb (isCore sourceMetadata) && isCore targetMetadata
            then Looping (snd (mergeTopic source target tm))
                   (JsSet.add processedTopics source) (S mergeCount)
            else if (observationCount targetMetadata <? observationCount sourceMetadata)%Z
            then Looping (snd (mergeTopic target source tm))
                   (JsSet.add processedTopics target) (S mergeCount)
            else Looping (snd (mergeTopic source target tm))
                   (JsSet.add processedTopics source) (S mergeCount)
        | _, _ => Thrown tm
        end
  end.

Definition findAndExecuteMerges (threshold : Q) (tm : TopicManager) : nat * TopicManager :=
  if (1000 <? JsMap.size (discoveredTopics tm))%nat then (0%nat, tm)
  else
    let topics := JsMap.keys (discoveredTopics tm) in
    let candidates := sortBySimilarity (mergeCandidates tm threshold topics) in
    match fold_left executeMerge candidates (Looping tm [] 0%nat) with
    | Looping tm' _ mergeCount => (mergeCount, tm')
    | Thrown tm' => (0%nat, tm')
    end.

(** ** TwitterConnector: formatHashtag *)

Definition isLowerAscii (c : ascii) : bool := between 97 122 (code c).

Definition isUpperAscii (c : ascii) : bool := between 65 90 (code c).

(** [s.replace(/([a-z])([A-Z])/g, '$1 $2')]: a space between a lower-case
    letter and the upper-case letter that follows it.  A match ends on an
    upper-case letter, which starts no other match, so every such pair is
    matched. *)
Fixpoint splitCamel (s : string) : string :=
  match s with
  | EmptyString => EmptyString
  | String c1 rest =>
      match rest with
      | String c2 _ =>
          if isLowerAscii c1 && isUpperAscii c2
          then String c1 (String " " (splitCamel rest))
          else String c1 (splitCamel rest)
      | EmptyString => String c1 EmptyString
      end
  end.

Definition formatHashtag (hashtag : string) : string :=
  let formatted :=
    match hashtag with
    | String "#" rest => rest
    | _ => hashtag
    end in
  normalizeTopic (splitCamel formatted).

(** ** TwitterConnector: getActiveTopics *)

(** The objects [TwitterConnector.getActiveTopics] returns. *)
Module ActiveTopic.

Record t := mk {
  topic : string;
  interestLevel : R;
  relatedTopics : list string
}.

End ActiveTopic.

(** [arr.map(f).filter(x => x !== null)] *)
Fixpoint mapNonNull {A B : Type} (f : A -> option B) (arr : list A) : list B :=
  match arr with
  | [] => []
  | x :: rest =>
      match f x with
      | Some y => y :: mapNonNull f rest
      | None => mapNonNull f rest
      end
  end.

Module TwitterConnector.

Definition getActiveTopics (tm : TopicManager) (minInterest : R) (limit : nat)
    : list ActiveTopic.t :=
  let activeTopics := getActiveTopics tm minInterest in
  let topicsWithMetadata :=
    mapNonNull
      (fun topic =>
         match getTopicMetadata tm topic with
         | None => None
         | Some metadata =>
             Some (ActiveTopic.mk topic (interestLevel metadata)
                     (getRelatedTopics tm topic 5))
         end)
      activeTopics in
  firstn limit topicsWithMetadata.

End TwitterConnector.

(** ** GuidedTopicManager: the keywords of the predefined topics

    The subclass adds to the state of [TopicManager] the map
    [predefinedTopics], from a topic to its keywords.  Writing the map to
    its file and sending it to the Python service change nothing of this
    state, and their errors are caught. *)

Record GuidedTopicManager := mkGuided {
  base : TopicManager;
  predefinedTopics : list (string * list string)
}.

Definition addPredefinedTopic (now1 now2 : Z) (topic : string) (keywords : list string)
    (g : GuidedTopicManager) : GuidedTopicManager :=
  let normalizedTopic := normalizeTopic topic in
  let base' := snd (addTopic now1 now2 normalizedTopic true (base g)) in
  let allKeywords := normalizedTopic :: map normalizeTopic keywords in
  mkGuided base'
    (JsMap.set normalizedTopic (JsSet.ofList allKeywords) (predefinedTopics g)).

Definition addKeywordsToTopic (now1 now2 : Z) (topic : string) (keywords : list string)
    (g : GuidedTopicManager) : GuidedTopicManager :=
  let canonicalTopic := getCanonicalTopic (base g) topic in
  if negb (JsMap.has canonicalTopic (predefinedTopics g))
  then addPredefinedTopic now1 now2 canonicalTopic keywords g
  else
    let existingKeywords :=
      match JsMap.get canonicalTopic (predefinedTopics g) with
      | Some kws => kws
      | None => []
      end in
    let normalizedKeywords := map normalizeTopic keywords in
    let updatedKeywords := JsSet.ofList (existingKeywords ++ normalizedKeywords) in
    mkGuided (base g) (JsMap.set canonicalTopic updatedKeywords (predefinedTopics g)).

(** * Vocabulary of the statements

    Predicates, counting functions and example states that the theorems
    below are stated with. *)

(** ** Strings and keys *)

(** The characters of a key: lower-case letters, digits and the underscore. *)
Definition isKeyChar (c : ascii) : bool := isWord c && Ascii.eqb (lowerChar c) c.

(** The characters a key is made of: key characters and the space. *)
Definition isKeyOrBlank (c : ascii) : bool := isKeyChar c || Ascii.eqb c " ".

(** No occurrence of the separator. *)
Fixpoint sepFree (sep : ascii) (w : string) : bool :=
  match w with
  | EmptyString => true
  | String c w' => negb (Ascii.eqb c sep) && sepFree sep w'
  end.

(** Every character satisfies [p]. *)
Fixpoint allChars (p : ascii -> bool) (s : string) : bool :=
  match s with
  | EmptyString => true
  | String c s' => p c && allChars p s'
  end.

(** Strings made of ASCII letters, digits, underscores and white space
    only: the characters the special-character step keeps. *)
Definition isPlain (s : string) : bool :=
  allChars (fun c => isWord c || isSpace c) s.

(** A tidy string is made of key characters and single spaces, with no space
    at either end; [prevSpace] tells that a space (or the start) precedes. *)
Fixpoint tidyFrom (prevSpace : bool) (t : string) : bool :=
  match t with
  | EmptyString => negb prevSpace
  | String c t' =>
      if Ascii.eqb c " " then negb prevSpace && tidyFrom true t'
      else isKeyChar c && tidyFrom false t'
  end.

(** No space at either end and no two adjacent spaces, whatever the other
    characters are; [prevSpace] tells that a space (or the start) precedes. *)
Fixpoint spacedFrom (prevSpace : bool) (t : string) : bool :=
  match t with
  | EmptyString => negb prevSpace
  | String c t' =>
      if Ascii.eqb c " " then negb prevSpace && spacedFrom true t'
      else spacedFrom false t'
  end.

(** The empty string, or a string with no space at either end and no two
    adjacent spaces. *)
Definition wellSpaced (t : string) : bool :=
  String.eqb t "" || spacedFrom true t.

(** A word of a key: not empty, key characters only. *)
Definition isKeyWord (w : string) : bool :=
  negb (String.eqb w "") && allChars isKeyChar w.

(** The filter of the stop-word step. *)
Definition nonStop (word : string) : bool := negb (includes stopWords word).

(** The stop-word step of [normalizeTopic], applied to the list of words. *)
Definition dropStopWords (words : list string) : list string :=
  if (1 <? List.length words)%nat then List.filter nonStop words else words.

(** ** Synonyms *)

(** One hop is enough: no value of the synonym map is one of its keys. *)
Definition oneHop (syn : gmap string string) : Prop :=
  forall k v, syn !! k = Some v -> syn !! v = None.

(** The pair [k -> v] may be installed without making a chain: [v] is
    neither [k] nor a synonym key, and no synonym maps to [k]. *)
Definition installable (syn : gmap string string) (k v : string) : Prop :=
  k <> v /\ syn !! v = None /\ forall k', syn !! k' <> Some k.

(** The synonym [discoverTopic] installs for one extracted topic, if any. *)
Definition discoveredSynonym
    (viaLLM : string -> list string -> Q -> option string)
    (tm : TopicManager) (topic : string) : option (string * string) :=
  let normalizedTopic := normalizeTopic topic in
  if String.eqb normalizedTopic "" then None
  else
    match findSimilarTopic viaLLM tm normalizedTopic similarityThreshold with
    | Some similarTopic =>
        if String.eqb similarTopic "" then None
        else if negb (String.eqb similarTopic normalizedTopic)
             then Some (normalizedTopic, similarTopic)
             else None
    | None => None
    end.

(** Every synonym points to a live topic, no live topic is redirected, and
    the empty string is not a live key. *)
Definition aliasesApart (tm : TopicManager) : Prop :=
  (forall k v, synonyms tm !! k = Some v -> In v (JsMap.keys (discoveredTopics tm)))
  /\ (forall k, In k (JsMap.keys (discoveredTopics tm)) -> synonyms tm !! k = None)
  /\ ~ In "" (JsMap.keys (discoveredTopics tm)).

(** The managers built under a discipline on the calls: [addTopic] is not
    given a name whose key is empty or is redirected (a name that was merged
    away or aliased comes back through its canonical topic only);
    [mergeTopic] is not given a source whose canonical key some synonym
    points to (a topic that absorbed another is not merged away); discovery
    is given extracted topics whose normalized form is a fixed point of
    [normalizeTopic], and a language model that answers with a topic of the
    list it was shown. *)
Inductive orderly : TopicManager -> Prop :=
| orderly_empty : orderly emptyManager
| orderly_addTopic now1 now2 topic core tm :
    orderly tm ->
    normalizeTopic topic <> "" ->
    synonyms tm !! normalizeTopic topic = None ->
    orderly (snd (addTopic now1 now2 topic core tm))
| orderly_trackObservation clock topics tm :
    orderly tm -> orderly (trackObservation clock topics tm)
| orderly_discover viaLLM extractedTopics tm :
    orderly tm ->
    (forall normalized allTopics threshold answer,
       viaLLM normalized allTopics threshold = Some answer -> In answer allTopics) ->
    Forall (fun e => normalizeTopic (normalizeTopic (fst e)) = normalizeTopic (fst e))
      extractedTopics ->
    orderly (snd (discoverTopicsFromText viaLLM extractedTopics tm))
| orderly_mergeTopic source target tm :
    orderly tm ->
    (forall k, synonyms tm !! k <> Some (getCanonicalTopic tm source)) ->
    orderly (snd (mergeTopic source target tm)).

(** ** Similarity *)

(** The result of a comparison, for a similarity [sim] and the keys in scan
    order: a key is the first one of highest similarity, and that similarity
    is positive and at or above the threshold; there is no result when no
    key has a positive similarity at or above the threshold. *)
Definition bestMatch (sim : string -> Q) (threshold : Q) (keys : list string)
    (result : option string) : Prop :=
  match result with
  | Some best =>
      exists before after,
        keys = before ++ best :: after
        /\ (0 < sim best)%Q /\ (threshold <= sim best)%Q
        /\ (forall k, In k before -> (sim k < sim best)%Q)
        /\ (forall k, In k after -> (sim k <= sim best)%Q)
  | None =>
      forall k, In k keys -> ~ ((0 < sim k)%Q /\ (threshold <= sim k)%Q)
  end.

(** The state of the scan after the keys [seen]. *)
Definition scanInv (sim : string -> Q) (threshold : Q) (seen : list string)
    (st : option string * Q) : Prop :=
  match fst st with
  | Some best => snd st = sim best /\ bestMatch sim threshold seen (Some best)
  | None => snd st = 0%Q /\ bestMatch sim threshold seen None
  end.

(** A language model that never finds a similar topic. *)
Definition noLLM (_ : string) (_ : list string) (_ : Q) : option string := None.

(** ** The relationship graph *)

(** Every row of the graph is a [Map]: its keys are pairwise distinct. *)
Definition graphWf (rels : list (string * list (string * Z))) : Prop :=
  Forall (fun e => JsMap.wf (snd e)) rels.



(** What [incrementRelationship] does to the graph. *)
Definition incrementEdge (topic1 topic2 : string)
    (rels : list (string * list (string * Z))) : list (string * list (string * Z)) :=
  let rels0 := if JsMap.has topic1 rels then rels else JsMap.set topic1 [] rels in
  let relationships := match JsMap.get topic1 rels0 with Some r => r | None => [] end in
  JsMap.set topic1
    (JsMap.set topic2 (orZero (JsMap.get topic2 relationships) + 1)%Z relationships) rels0.

(** The number of times the loops of [updateTopicRelationships] increment the
    edge [a -> b]. *)
Fixpoint pairCount (topics : list string) (a b : string) : Z :=
  match topics with
  | [] => 0%Z
  | topic1 :: rest =>
      ((if String.eqb a topic1 && includes rest b then 1 else 0)
       + (if String.eqb b topic1 && includes rest a then 1 else 0)
       + pairCount rest a b)%Z
  end.



(** ** Example states *)

(** A manager with the live topics ["machine learning"] and ["ai"], in which
    ["ml"] was merged into ["machine learning"]. *)
Definition mlManager : TopicManager :=
  snd (mergeTopic "ml" "machine learning"
    (snd (addTopic 0 0 "ai" false
      (snd (addTopic 0 0 "machine learning" false
        (snd (addTopic 0 0 "ml" false emptyManager))))))).

(** Three topics merged in a row: ["neural nets"] into ["neural networks"],
    then ["neural networks"] into ["deep learning"]. *)
Definition chainManager : TopicManager :=
  snd (mergeTopic "neural networks" "deep learning"
    (snd (mergeTopic "neural nets" "neural networks"
      (snd (addTopic 0 0 "deep learning" false
        (snd (addTopic 0 0 "neural networks" false
          (snd (addTopic 0 0 "neural nets" false emptyManager))))))))).

(** A manager with the live topics ["ai"] and [""]. *)
Definition emptyKeyManager : TopicManager :=
  snd (addTopic 0 0 "" false (snd (addTopic 0 0 "ai" false emptyManager))).

(** The empty key as a merge target: ["x"] is merged into [""], discovered
    again (its synonym [""] counts as none), and then ["y"] is merged into
    it. *)
Definition emptyTargetManager : TopicManager :=
  snd (mergeTopic "y" "x"
    (snd (discoverTopicsFromText noLLM [("x", (0%Z, 0%Z))]
      (snd (mergeTopic "x" ""
        (snd (addTopic 0 0 "y" false
          (snd (addTopic 0 0 "x" false
            (snd (addTopic 0 0 "" false emptyManager))))))))))).

(** A merged-away name added again, then matched by discovery: the seven
    words of the extracted topic hold the six of the key. *)
Definition readdedManager : TopicManager :=
  snd (discoverTopicsFromText noLLM [("w1 w2 w3 w4 w5 w6 w7", (0%Z, 0%Z))]
    (snd (addTopic 0 0 "w1 w2 w3 w4 w5 w6" false
      (snd (mergeTopic "w1 w2 w3 w4 w5 w6" "t"
        (snd (addTopic 0 0 "t" false
          (snd (addTopic 0 0 "w1 w2 w3 w4 w5 w6" false emptyManager))))))))).

(** An extracted topic whose normalized form [" x"] is not a fixed point:
    it is the key that ["y"] was merged into, and discovery redirects it to
    ["x"]. *)
Definition unstableKeyManager : TopicManager :=
  snd (discoverTopicsFromText noLLM [("- x", (0%Z, 0%Z))]
    (snd (mergeTopic "y" "- x"
      (snd (addTopic 0 0 "y" false
        (snd (addTopic 0 0 "x" false
          (snd (addTopic 0 0 "- x" false emptyManager))))))))).

(** A registry with the single topic ["dogs"]. *)
Definition dogsManager : TopicManager := snd (addTopic 0 0 "dogs" false emptyManager).


(** Two registered topics observed together once. *)
Definition petsManager : TopicManager :=
  trackObservation (fun _ => (0%Z, 0%Z)) ["cats"; "dogs"]
    (snd (addTopic 0 0 "dogs" false (snd (addTopic 0 0 "cats" false emptyManager)))).

(** ** Further vocabulary *)

(** A capitalised word: an upper-case letter, then one lower-case letter or
    more. *)
Definition isCapWord (w : string) : bool :=
  match w with
  | String c (String d rest) =>
      isUpperAscii c && isLowerAscii d && allChars isLowerAscii rest
  | _ => false
  end.

(** The words written one after the other, as in a hashtag. *)
Definition runTogether (ws : list string) : string := String.concat "" ws.

(** What the live record of [k] shows through the projection [f]. *)
Definition field {A : Type} (f : TopicMetadata -> A) (tm : TopicManager) (k : string)
    : option A :=
  option_map f (JsMap.get k (discoveredTopics tm)).

(** A projection that does not look at the related topics, at the interest
    level. *)
Definition relatedBlind {A : Type} (f : TopicMetadata -> A) : Prop :=
  forall c i d l o m r r', f (mkMetadata c i d l o m r) = f (mkMetadata c i d l o m r').

Definition interestBlind {A : Type} (f : TopicMetadata -> A) : Prop :=
  forall c i i' d l o m r, f (mkMetadata c i d l o m r) = f (mkMetadata c i' d l o m r).

(** The core-topic set holds exactly the live topics flagged as core. *)
Definition coreConsistent (tm : TopicManager) : Prop :=
  forall k, k ∈ coreTopics tm
            <-> exists md, JsMap.get k (discoveredTopics tm) = Some md /\ isCore md = true.

(** The two counters of a record. *)
Definition counters (md : TopicMetadata) : Z * Z :=
  (observationCount md, mentionCount md).

(** One more observation and one more mention, when [b] holds. *)
Definition bumpCounters (b : bool) (c : Z * Z) : Z * Z :=
  if b then (fst c + 1, snd c + 1)%Z else c.

(** The insertion sort behind the three [sort] calls of the source:
    [before a b] tells that [a] has to come before [b]. *)
Fixpoint insertBy {A : Type} (before : A -> A -> bool) (e : A) (sorted : list A)
    : list A :=
  match sorted with
  | [] => [e]
  | e' :: rest =>
      if before e' e then e' :: insertBy before e rest else e :: sorted
  end.

Definition sortBy {A : Type} (before : A -> A -> bool) (l : list A) : list A :=
  fold_right (insertBy before) [] l.

(** [entries] is [l] in the order of a stable sort: the same entries, none
    after one it has to come before, and the entries of one class (those
    [sameClass] holds for) in the order they had in [l]. *)
Definition stablySorted {A C : Type} (before : A -> A -> bool)
    (sameClass : C -> A -> bool) (l entries : list A) : Prop :=
  Permutation entries l
  /\ StronglySorted (fun a b => before b a = false) entries
  /\ forall c, List.filter (sameClass c) entries = List.filter (sameClass c) l.

(** Every live key is its own normalized form and is not redirected. *)
Definition settled (tm : TopicManager) : Prop :=
  forall k, In k (JsMap.keys (discoveredTopics tm)) ->
    normalizeTopic k = k /\ synonyms tm !! k = None.

(** The loop of [findAndExecuteMerges] run on the sorted candidates of [tm]:
    what the function computes below its size guard, before the count is
    read off or the [catch] taken. *)
Definition executeMerges (threshold : Q) (tm : TopicManager) : mergeLoop :=
  fold_left executeMerge
    (sortBySimilarity
       (mergeCandidates tm threshold (JsMap.keys (discoveredTopics tm))))
    (Looping tm [] 0%nat).

(** What the loop of [findAndExecuteMerges] keeps, started from [tm0]: no
    exception so far, one topic removed for each merge counted, and the
    removed topics are the processed ones. *)
Definition mergeInv (tm0 : TopicManager) (st : mergeLoop) : Prop :=
  match st with
  | Looping tm processedTopics mergeCount =>
      reachable tm /\ settled tm
      /\ mergeCount = List.length processedTopics
      /\ JsMap.keys (discoveredTopics tm)
         = List.filter (fun k => negb (includes processedTopics k))
             (JsMap.keys (discoveredTopics tm0))
      /\ (JsMap.size (discoveredTopics tm) + mergeCount
          = JsMap.size (discoveredTopics tm0))%nat
  | Thrown _ => False
  end.

(** What the loop of [discoverTopicsFromText] keeps, started from [tm0]:
    no topic is lost; every name in the list of new topics is not empty and
    its normalized form is a live key; every live key that was not there at
    the start is the normalized form of a name in the list; and there are at
    most as many more topics as the list has names. *)
Definition accountsFor (tm0 : TopicManager) (acc : list string * TopicManager) : Prop :=
  incl (JsMap.keys (discoveredTopics tm0)) (JsMap.keys (discoveredTopics (snd acc)))
  /\ (forall t, In t (fst acc) ->
        t <> "" /\ In (normalizeTopic t) (JsMap.keys (discoveredTopics (snd acc))))
  /\ (forall k, In k (JsMap.keys (discoveredTopics (snd acc))) ->
        In k (JsMap.keys (discoveredTopics tm0))
        \/ exists t, In t (fst acc) /\ k = normalizeTopic t)
  /\ (List.length (JsMap.keys (discoveredTopics (snd acc)))
      <= List.length (JsMap.keys (discoveredTopics tm0)) + List.length (fst acc))%nat.

(** * Normalization: properties of [normalizeTopic] *)

Section Characters.

Lemma isWord_not_space c : isWord c = true -> isSpace c = false.
Proof. destruct c as [[] [] [] [] [] [] [] []]; vm_compute; congruence. Qed.

Lemma lowerChar_isSpace c : isSpace (lowerChar c) = isSpace c.
Proof. destruct c as [[] [] [] [] [] [] [] []]; reflexivity. Qed.

Lemma lowerChar_isWord c : isWord (lowerChar c) = isWord c.
Proof. destruct c as [[] [] [] [] [] [] [] []]; reflexivity. Qed.

Lemma lowerChar_idem c : lowerChar (lowerChar c) = lowerChar c.
Proof. destruct c as [[] [] [] [] [] [] [] []]; reflexivity. Qed.

Lemma isKeyChar_lower c : isWord c = true -> isKeyChar (lowerChar c) = true.
Proof.
  intros Hw. unfold isKeyChar.
  rewrite lowerChar_isWord, Hw, lowerChar_idem. simpl. apply Ascii.eqb_refl.
Qed.

Lemma isKeyChar_isWord c : isKeyChar c = true -> isWord c = true.
Proof. unfold isKeyChar. intros H. apply andb_prop in H. tauto. Qed.

Lemma isKeyChar_fixed c : isKeyChar c = true -> lowerChar c = c.
Proof.
  unfold isKeyChar. intros H. apply andb_prop in H as [_ H].
  now apply Ascii.eqb_eq.
Qed.

Lemma isKeyChar_not_space c : isKeyChar c = true -> isSpace c = false.
Proof. intros H. now apply isWord_not_space, isKeyChar_isWord. Qed.

Lemma isKeyChar_not_blank c : isKeyChar c = true -> Ascii.eqb c " " = false.
Proof.
  intros H. destruct (Ascii.eqb_spec c " ") as [->|]; [discriminate H | reflexivity].
Qed.

End Characters.

Section SplitJoin.

Variable sep : ascii.

Lemma split_not_nil s : split sep s <> [].
Proof.
  destruct s as [|c s]; simpl; [discriminate|].
  destruct (Ascii.eqb c sep); [discriminate|].
  destruct (split sep s); discriminate.
Qed.

Lemma join_cons_cons w w' ws :
  join (String sep "") (w :: w' :: ws) =
  (w ++ String sep (join (String sep "") (w' :: ws)))%string.
Proof. reflexivity. Qed.

Lemma join_String c w ws :
  join (String sep "") (String c w :: ws) = String c (join (String sep "") (w :: ws)).
Proof. destruct ws; reflexivity. Qed.

(** Joining what was split gives the string back. *)
Lemma join_split s : join (String sep "") (split sep s) = s.
Proof.
  induction s as [|c s IH]; [reflexivity|].
  cbn [split]. destruct (Ascii.eqb_spec c sep) as [->|Hc].
  - destruct (split sep s) as [|w ws] eqn:E; [now apply split_not_nil in E|].
    rewrite join_cons_cons, IH. reflexivity.
  - destruct (split sep s) as [|w ws] eqn:E; [now apply split_not_nil in E|].
    rewrite join_String, IH. reflexivity.
Qed.

Lemma split_sepFree w : sepFree sep w = true -> split sep w = [w].
Proof.
  induction w as [|c w IH]; [reflexivity|].
  simpl. intros H. apply andb_prop in H as [Hc Hw].
  apply negb_true_iff in Hc. rewrite Hc, (IH Hw). reflexivity.
Qed.

Lemma split_app_sep w rest :
  sepFree sep w = true ->
  split sep (w ++ String sep rest) = w :: split sep rest.
Proof.
  induction w as [|c w IH]; simpl.
  - intros _. now rewrite Ascii.eqb_refl.
  - intros H. apply andb_prop in H as [Hc Hw].
    apply negb_true_iff in Hc. rewrite Hc, (IH Hw). reflexivity.
Qed.

(** Splitting what was joined gives the words back, when there is a word and
    no word holds the separator. *)
Lemma split_join ws :
  ws <> [] -> Forall (fun w => sepFree sep w = true) ws ->
  split sep (join (String sep "") ws) = ws.
Proof.
  induction ws as [|w ws IH]; [congruence|].
  intros _ Hall. inversion Hall as [|? ? Hw Hws]; subst.
  destruct ws as [|w' ws].
  - now apply split_sepFree.
  - rewrite join_cons_cons, split_app_sep by assumption.
    f_equal. apply IH; [discriminate | assumption].
Qed.

End SplitJoin.

Section Tidy.

Lemma toLowerCase_plain s :
  isPlain s = true ->
  allChars (fun c => isKeyChar c || isSpace c) (toLowerCase s) = true.
Proof.
  induction s as [|c s IH]; [reflexivity|].
  unfold isPlain. cbn [allChars toLowerCase]. intros H.
  apply andb_prop in H as [Hc Hs]. rewrite (IH Hs), andb_true_r.
  rewrite lowerChar_isSpace. apply orb_prop in Hc as [Hc|Hc].
  - now rewrite (isKeyChar_lower c Hc).
  - rewrite Hc. apply orb_true_r.
Qed.

Lemma trimStart_allChars p s :
  allChars p s = true -> allChars p (trimStart s) = true.
Proof.
  induction s as [|c s IH]; [reflexivity|].
  intros H. cbn [trimStart]. destruct (isSpace c); [|exact H].
  cbn [allChars] in H. apply andb_prop in H as [_ H]. now apply IH.
Qed.

Lemma trimStart_head s :
  trimStart s = "" \/
  exists c u, trimStart s = String c u /\ isSpace c = false.
Proof.
  induction s as [|c s IH]; [now left|].
  cbn [trimStart]. destruct (isSpace c) eqn:E; [exact IH|].
  right. now exists c, s.
Qed.

Lemma trimEnd_head c u : isSpace c = false -> trimEnd (String c u) = String c (trimEnd u).
Proof. intros H. cbn [trimEnd]. rewrite H. now destruct (trimEnd u). Qed.

Lemma keyOrSpace_key c :
  isKeyChar c || isSpace c = true -> isSpace c = false -> isKeyChar c = true.
Proof. intros H E. rewrite E, orb_false_r in H. exact H. Qed.

(** Collapsing a right-trimmed string of key characters and white space
    gives a tidy string. *)
Lemma collapse_trimEnd_tidy u :
  allChars (fun c => isKeyChar c || isSpace c) u = true ->
  forall b, (trimEnd u = "" -> b = false) ->
  tidyFrom b (collapseFrom b (trimEnd u)) = true.
Proof.
  induction u as [|c u IH]; intros Hu b Hb.
  - cbn in *. now rewrite Hb.
  - cbn [allChars] in Hu. apply andb_prop in Hu as [Hc Hu].
    specialize (IH Hu). cbn [trimEnd] in *.
    destruct (trimEnd u) as [|d r] eqn:E.
    + destruct (isSpace c) eqn:Ec.
      * rewrite (Hb eq_refl). reflexivity.
      * cbn [collapseFrom]. rewrite Ec. cbn [tidyFrom collapseFrom].
        assert (Hk : isKeyChar c = true) by (now rewrite orb_false_r in Hc).
        now rewrite (isKeyChar_not_blank c Hk), Hk.
    + cbn [collapseFrom]. destruct (isSpace c) eqn:Ec.
      * destruct b.
        -- apply IH. discriminate.
        -- cbn [tidyFrom]. rewrite Ascii.eqb_refl. cbn [negb andb].
           apply IH. discriminate.
      * cbn [tidyFrom].
        assert (Hk : isKeyChar c = true) by (now rewrite orb_false_r in Hc).
        rewrite (isKeyChar_not_blank c Hk), Hk. cbn [andb].
        apply IH. discriminate.
Qed.

Lemma tidy_strip b t : tidyFrom b t = true -> stripSpecial t = t.
Proof.
  revert b. induction t as [|c t IH]; intros b H; [reflexivity|].
  cbn [tidyFrom] in H. cbn [stripSpecial].
  destruct (Ascii.eqb_spec c " ") as [->|Hc].
  - apply andb_prop in H as [_ H]. cbn. now rewrite (IH _ H).
  - apply andb_prop in H as [Hk H].
    rewrite (isKeyChar_isWord c Hk). cbn. now rewrite (IH _ H).
Qed.

Lemma tidy_lower b t : tidyFrom b t = true -> toLowerCase t = t.
Proof.
  revert b. induction t as [|c t IH]; intros b H; [reflexivity|].
  cbn [tidyFrom] in H. cbn [toLowerCase].
  destruct (Ascii.eqb_spec c " ") as [->|Hc].
  - apply andb_prop in H as [_ H]. now rewrite (IH _ H).
  - apply andb_prop in H as [Hk H].
    now rewrite (isKeyChar_fixed c Hk), (IH _ H).
Qed.

Lemma tidy_trimStart t : tidyFrom true t = true -> trimStart t = t.
Proof.
  destruct t as [|c t]; [reflexivity|]. cbn [tidyFrom trimStart].
  destruct (Ascii.eqb c " "); [discriminate|].
  intros H. apply andb_prop in H as [Hk _].
  now rewrite (isKeyChar_not_space c Hk).
Qed.

Lemma tidy_trimEnd b t : tidyFrom b t = true -> trimEnd t = t.
Proof.
  revert b. induction t as [|c t IH]; intros b H; [reflexivity|].
  cbn [tidyFrom] in H. cbn [trimEnd].
  destruct (Ascii.eqb_spec c " ") as [->|Hc].
  - apply andb_prop in H as [_ H]. rewrite (IH _ H).
    destruct t; [discriminate H | reflexivity].
  - apply andb_prop in H as [Hk H]. rewrite (IH _ H).
    rewrite (isKeyChar_not_space c Hk). now destruct t.
Qed.

Lemma tidy_collapse t :
  (tidyFrom false t = true -> collapseFrom false t = t) /\
  (tidyFrom true t = true -> forall b, collapseFrom b t = t).
Proof.
  induction t as [|c t [IH1 IH2]]; [split; reflexivity|].
  cbn [tidyFrom collapseFrom].
  destruct (Ascii.eqb_spec c " ") as [->|Hc]; cbn [negb andb].
  - split; [|discriminate]. intros H.
    change (isSpace " ") with true. cbn iota. now rewrite (IH2 H true).
  - split; intros H; [|intros b]; apply andb_prop in H as [Hk H];
      rewrite (isKeyChar_not_space c Hk); now rewrite (IH1 H).
Qed.

(** The cleaning steps leave a tidy string as it is. *)
Lemma cleanTopic_tidy t : tidyFrom true t = true -> cleanTopic t = t.
Proof.
  intros H. unfold cleanTopic, trim, collapseSpaces.
  rewrite (tidy_lower _ _ H), (tidy_trimStart _ H), (tidy_trimEnd _ _ H).
  rewrite (proj2 (tidy_collapse t) H false). exact (tidy_strip _ _ H).
Qed.

(** The cleaning steps turn a plain string into the empty string or a tidy
    one. *)
Lemma cleanTopic_plain s :
  isPlain s = true -> cleanTopic s = "" \/ tidyFrom true (cleanTopic s) = true.
Proof.
  intros Hp. unfold cleanTopic, trim, collapseSpaces.
  pose proof (trimStart_allChars _ _ (toLowerCase_plain s Hp)) as Hu.
  destruct (trimStart_head (toLowerCase s)) as [E|(c & u & E & Ec)]; rewrite E in *.
  - now left.
  - right. rewrite (trimEnd_head c u Ec).
    cbn [allChars] in Hu. apply andb_prop in Hu as [Hc Hu].
    pose proof (keyOrSpace_key c Hc Ec) as Hk.
    assert (Ht : tidyFrom true (collapseFrom false (String c (trimEnd u))) = true).
    { cbn [collapseFrom]. rewrite Ec. cbn [tidyFrom].
      rewrite (isKeyChar_not_blank c Hk), Hk. cbn [andb].
      now apply collapse_trimEnd_tidy. }
    now rewrite (tidy_strip _ _ Ht).
Qed.

End Tidy.

Section KeyWords.

Lemma isKeyWord_sepFree w : isKeyWord w = true -> sepFree " " w = true.
Proof.
  unfold isKeyWord. intros H. apply andb_prop in H as [_ H].
  induction w as [|c w IH]; [reflexivity|].
  cbn [allChars] in H. apply andb_prop in H as [Hc Hw].
  cbn [sepFree]. now rewrite (isKeyChar_not_blank c Hc), (IH Hw).
Qed.

(** The words of a tidy string are key words; only after a key character
    may the first one be empty. *)
Lemma tidy_split b t :
  tidyFrom b t = true ->
  exists w ws, split " " t = w :: ws /\ (b = true -> w <> "")
               /\ allChars isKeyChar w = true
               /\ Forall (fun x => isKeyWord x = true) ws.
Proof.
  revert b. induction t as [|c t IH]; intros b H.
  - exists "", []. cbn in *. destruct b; [discriminate|]. repeat split; auto; discriminate.
  - cbn [tidyFrom] in H. cbn [split].
    destruct (Ascii.eqb c " ") eqn:Ec.
    + apply andb_prop in H as [Hb H]. apply negb_true_iff in Hb. subst b.
      destruct (IH _ H) as (w & ws & E & Hne & Hw & Hws).
      exists "", (split " " t).
      split; [reflexivity|]. split; [discriminate|]. split; [reflexivity|].
      rewrite E. constructor; [|exact Hws].
      unfold isKeyWord. rewrite Hw, andb_true_r. apply negb_true_iff.
      apply String.eqb_neq. now apply Hne.
    + apply andb_prop in H as [Hk H].
      destruct (IH _ H) as (w & ws & E & _ & Hw & Hws). rewrite E.
      exists (String c w), ws.
      split; [reflexivity|]. split; [discriminate|]. split; [|exact Hws].
      cbn [allChars]. now rewrite Hk, Hw.
Qed.

Lemma tidy_split_words t :
  tidyFrom true t = true -> Forall (fun x => isKeyWord x = true) (split " " t).
Proof.
  intros H. destruct (tidy_split _ _ H) as (w & ws & E & Hne & Hw & Hws).
  rewrite E. constructor; [|exact Hws].
  unfold isKeyWord. rewrite Hw, andb_true_r. apply negb_true_iff.
  apply String.eqb_neq. now apply Hne.
Qed.

Lemma append_empty_r w : (w ++ "")%string = w.
Proof.
  induction w as [|c w IH]; [reflexivity|].
  change (String c (w ++ "")%string = String c w). now rewrite IH.
Qed.

Lemma tidy_word_app w rest :
  allChars isKeyChar w = true ->
  tidyFrom false rest = true ->
  forall b, (w = "" -> b = false) -> tidyFrom b (w ++ rest) = true.
Proof.
  induction w as [|c w IH]; intros Hw Hr b Hb.
  - now rewrite (Hb eq_refl).
  - cbn [allChars] in Hw. apply andb_prop in Hw as [Hc Hw].
    change (tidyFrom b (String c (w ++ rest)%string) = true).
    cbn [tidyFrom]. rewrite (isKeyChar_not_blank c Hc), Hc. cbn [andb].
    now apply IH.
Qed.

(** Joining key words with single spaces gives a tidy string. *)
Lemma join_tidy ws :
  ws <> [] -> Forall (fun x => isKeyWord x = true) ws ->
  tidyFrom true (join " " ws) = true.
Proof.
  induction ws as [|w ws IH]; [congruence|].
  intros _ Hall. inversion Hall as [|? ? Hw Hws]; subst.
  unfold isKeyWord in Hw. apply andb_prop in Hw as [Hne Hw].
  apply negb_true_iff, String.eqb_neq in Hne.
  destruct ws as [|w' ws].
  - change (join " " [w]) with w. rewrite <- (append_empty_r w).
    apply tidy_word_app; auto; congruence.
  - rewrite join_cons_cons. apply tidy_word_app; [exact Hw | | congruence].
    cbn [tidyFrom]. rewrite Ascii.eqb_refl. cbn [negb andb].
    apply IH; [discriminate | assumption].
Qed.

Lemma filter_idem {A} (p : A -> bool) l : List.filter p (List.filter p l) = List.filter p l.
Proof.
  induction l as [|x l IH]; [reflexivity|].
  cbn [List.filter]. destruct (p x) eqn:E; [|exact IH].
  cbn [List.filter]. now rewrite E, IH.
Qed.

Lemma normalizeTopic_words s :
  normalizeTopic s = join " " (dropStopWords (split " " (cleanTopic s))).
Proof. reflexivity. Qed.

Lemma dropStopWords_idem ws : dropStopWords (dropStopWords ws) = dropStopWords ws.
Proof.
  unfold dropStopWords at 2 3.
  destruct (1 <? List.length ws)%nat eqn:E.
  - unfold dropStopWords. rewrite filter_idem.
    now destruct (1 <? List.length (List.filter nonStop ws))%nat.
  - unfold dropStopWords. now rewrite E.
Qed.

Lemma dropStopWords_keyWords ws :
  Forall (fun x => isKeyWord x = true) ws ->
  Forall (fun x => isKeyWord x = true) (dropStopWords ws).
Proof.
  intros H. unfold dropStopWords. destruct (_ <? _)%nat; [|exact H].
  apply List.Forall_forall. intros x Hx. apply filter_In in Hx as [Hx _].
  now apply (proj1 (List.Forall_forall _ _) H).
Qed.

(** On a non-empty list of key words joined by spaces, [normalizeTopic] is
    the stop-word step. *)
Lemma normalizeTopic_join ws :
  ws <> [] -> Forall (fun x => isKeyWord x = true) ws ->
  normalizeTopic (join " " ws) = join " " (dropStopWords ws).
Proof.
  intros Hne Hall. rewrite normalizeTopic_words.
  rewrite (cleanTopic_tidy _ (join_tidy ws Hne Hall)).
  rewrite split_join; auto.
  eapply List.Forall_impl; [|exact Hall]. apply isKeyWord_sepFree.
Qed.

End KeyWords.

(** ** Examples *)

Example normalizeTopic_case_and_spaces :
  normalizeTopic "  Machine   Learning! " = "machine learning".
Proof. reflexivity. Qed.

Example normalizeTopic_drops_stop_words :
  normalizeTopic "The State of the Art" = "state art".
Proof. reflexivity. Qed.

Example normalizeTopic_keeps_lone_stop_word : normalizeTopic "The" = "the".
Proof. reflexivity. Qed.

(** ** The characters of the cleaned form *)

Section KeyAlphabet.

Lemma toLowerCase_fixed_chars s :
  allChars (fun c => Ascii.eqb (lowerChar c) c) (toLowerCase s) = true.
Proof.
  induction s as [|c s IH]; [reflexivity|].
  cbn [toLowerCase allChars]. now rewrite lowerChar_idem, Ascii.eqb_refl, IH.
Qed.

Lemma trimEnd_allChars p s : allChars p s = true -> allChars p (trimEnd s) = true.
Proof.
  induction s as [|c s IH]; [reflexivity|].
  cbn [allChars trimEnd]. intros H. apply andb_prop in H as [Hc Hs].
  specialize (IH Hs). destruct (trimEnd s) as [|d r].
  - destruct (isSpace c); [reflexivity|]. cbn [allChars]. now rewrite Hc.
  - cbn [allChars] in *. now rewrite Hc, IH.
Qed.

Lemma collapseFrom_chars p b s :
  allChars p s = true ->
  allChars (fun c => Ascii.eqb c " " || (negb (isSpace c) && p c)) (collapseFrom b s) = true.
Proof.
  revert b. induction s as [|c s IH]; intros b H; [reflexivity|].
  cbn [allChars] in H. apply andb_prop in H as [Hc Hs].
  cbn [collapseFrom]. destruct (isSpace c) eqn:Ec.
  - destruct b; [now apply IH|]. cbn [allChars]. now rewrite (IH true Hs).
  - cbn [allChars]. rewrite Ec, Hc, (IH false Hs). cbn [negb andb].
    now rewrite orb_true_r.
Qed.

Lemma stripSpecial_chars p s :
  allChars p s = true ->
  allChars (fun c => (isWord c || isSpace c) && p c) (stripSpecial s) = true.
Proof.
  induction s as [|c s IH]; [reflexivity|].
  cbn [allChars stripSpecial]. intros H. apply andb_prop in H as [Hc Hs].
  destruct (isWord c || isSpace c) eqn:E; [|now apply IH].
  cbn [allChars]. now rewrite E, Hc, (IH Hs).
Qed.

Lemma allChars_impl (p q : ascii -> bool) s :
  (forall c, p c = true -> q c = true) -> allChars p s = true -> allChars q s = true.
Proof.
  intros Hpq. induction s as [|c s IH]; [reflexivity|].
  cbn [allChars]. intros H. apply andb_prop in H as [Hc Hs].
  now rewrite (Hpq c Hc), (IH Hs).
Qed.

Lemma cleanTopic_alphabet s : allChars isKeyOrBlank (cleanTopic s) = true.
Proof.
  unfold cleanTopic, trim, collapseSpaces.
  pose proof (stripSpecial_chars _ _
    (collapseFrom_chars _ false _
       (trimEnd_allChars _ _
          (trimStart_allChars _ _ (toLowerCase_fixed_chars s))))) as H.
  revert H. apply allChars_impl. intros c Hc. unfold isKeyOrBlank, isKeyChar.
  apply andb_prop in Hc as [Hws Hc].
  destruct (Ascii.eqb c " "); [apply orb_true_r|].
  cbn [orb] in Hc. apply andb_prop in Hc as [Hns Hlow].
  apply negb_true_iff in Hns. rewrite Hns, orb_false_r in Hws.
  now rewrite Hws, Hlow.
Qed.

End KeyAlphabet.

(** ** C5: idempotence of [normalizeTopic] *)

(** C5, as stated, fails: special characters are stripped after trimming, so
    ["- x"] normalizes to [" x"], which normalizes to ["x"]. *)
Lemma normalizeTopic_not_idempotent :
  normalizeTopic "- x" = " x" /\
  normalizeTopic (normalizeTopic "- x") = "x" /\
  normalizeTopic (normalizeTopic "- x") <> normalizeTopic "- x".
Proof.
  split; [reflexivity|]. split; [reflexivity|].
  vm_compute. discriminate.
Qed.

(** When the cleaning steps give the empty string or a tidy one, the second
    normalization changes nothing. *)
Lemma normalizeTopic_clean_fixed (s : string) :
  cleanTopic s = "" \/ tidyFrom true (cleanTopic s) = true ->
  normalizeTopic (normalizeTopic s) = normalizeTopic s.
Proof.
  intros [E|Ht]; rewrite (normalizeTopic_words s).
  - rewrite E. reflexivity.
  - pose proof (dropStopWords_keyWords _ (tidy_split_words _ Ht)) as Hall.
    destruct (dropStopWords (split " " (cleanTopic s))) as [|w ws] eqn:E.
    + reflexivity.
    + rewrite <- E in *. rewrite normalizeTopic_join, dropStopWords_idem; auto.
      rewrite E. discriminate.
Qed.

(** In particular when the input holds no special character. *)
Lemma normalizeTopic_idempotent_plain (s : string) :
  isPlain s = true ->
  normalizeTopic (normalizeTopic s) = normalizeTopic s.
Proof.
  intros Hp. apply normalizeTopic_clean_fixed.
  destruct (cleanTopic_plain s Hp) as [Hempty|Htidy]; [left | right]; assumption.
Qed.

(** Whatever the input, the result of [normalizeTopic] is plain. *)
Lemma stripSpecial_plain s : isPlain (stripSpecial s) = true.
Proof.
  unfold isPlain. induction s as [|c s IH]; [reflexivity|].
  cbn [stripSpecial]. destruct (isWord c || isSpace c) eqn:E; [|exact IH].
  cbn [allChars]. now rewrite E, IH.
Qed.

Lemma split_allChars p s :
  allChars p s = true -> Forall (fun w => allChars p w = true) (split " " s).
Proof.
  induction s as [|c s IH]; intros H.
  - repeat constructor.
  - cbn [allChars] in H. apply andb_prop in H as [Hc Hs]. specialize (IH Hs).
    cbn [split]. destruct (Ascii.eqb c " ").
    + constructor; [reflexivity | exact IH].
    + destruct (split " " s) as [|w ws]; [repeat constructor; cbn; now rewrite Hc|].
      inversion IH as [|? ? Hw Hws]; subst. constructor; [|exact Hws].
      cbn [allChars]. now rewrite Hc, Hw.
Qed.

Lemma allChars_app p u v :
  allChars p u = true -> allChars p v = true -> allChars p (u ++ v)%string = true.
Proof.
  intros Hu Hv. induction u as [|c u IH]; [exact Hv|].
  cbn [allChars] in Hu. apply andb_prop in Hu as [Hc Hu].
  change (allChars p (String c (u ++ v)%string) = true).
  cbn [allChars]. now rewrite Hc, (IH Hu).
Qed.

Lemma join_allChars p ws :
  p " "%char = true ->
  Forall (fun w => allChars p w = true) ws -> allChars p (join " " ws) = true.
Proof.
  intros Hp Hall. induction Hall as [|w ws Hw Hws IH]; [reflexivity|].
  destruct ws as [|w' ws]; [exact Hw|].
  rewrite join_cons_cons. apply allChars_app; [exact Hw|].
  cbn [allChars]. now rewrite Hp, IH.
Qed.

Lemma normalizeTopic_plain s : isPlain (normalizeTopic s) = true.
Proof.
  rewrite normalizeTopic_words. apply join_allChars; [reflexivity|].
  pose proof (split_allChars _ _ (stripSpecial_plain
    (collapseSpaces (trim (toLowerCase s))))) as H.
  fold (cleanTopic s) in H. unfold dropStopWords.
  destruct (1 <? List.length (split " " (cleanTopic s)))%nat; [|exact H].
  apply List.Forall_forall. intros w Hw. apply filter_In in Hw as [Hw _].
  exact (proj1 (List.Forall_forall _ _) H w Hw).
Qed.

(** Hence, for every string, a second normalization gives a fixed point. *)
Lemma normalizeTopic_twice_fixed s :
  normalizeTopic (normalizeTopic (normalizeTopic s)) = normalizeTopic (normalizeTopic s).
Proof. apply normalizeTopic_clean_fixed, cleanTopic_plain, normalizeTopic_plain. Qed.

Section Spacing.

Lemma tidy_spaced b t : tidyFrom b t = true -> spacedFrom b t = true.
Proof.
  revert b. induction t as [|c t IH]; intros b H; [exact H|].
  cbn [tidyFrom] in H. cbn [spacedFrom]. destruct (Ascii.eqb c " ").
  - apply andb_prop in H as [Hb H]. now rewrite Hb, (IH _ H).
  - apply andb_prop in H as [_ H]. now apply IH.
Qed.

Lemma spaced_tidy b t :
  allChars isKeyOrBlank t = true -> spacedFrom b t = true -> tidyFrom b t = true.
Proof.
  revert b. induction t as [|c t IH]; intros b Ha H; [exact H|].
  cbn [allChars] in Ha. apply andb_prop in Ha as [Hc Ha].
  cbn [spacedFrom] in H. cbn [tidyFrom]. unfold isKeyOrBlank in Hc.
  destruct (Ascii.eqb c " ").
  - apply andb_prop in H as [Hb H]. now rewrite Hb, (IH _ Ha H).
  - rewrite orb_false_r in Hc. now rewrite Hc, (IH _ Ha H).
Qed.

Lemma split_words_sepFree sep s : Forall (fun w => sepFree sep w = true) (split sep s).
Proof.
  induction s as [|c s IH]; [repeat constructor|].
  cbn [split]. destruct (Ascii.eqb c sep) eqn:Ec.
  - constructor; [reflexivity | exact IH].
  - destruct (split sep s) as [|w ws]; [repeat constructor; cbn; now rewrite Ec|].
    inversion IH as [|? ? Hw Hws]; subst. constructor; [|exact Hws].
    cbn [sepFree]. now rewrite Ec, Hw.
Qed.

Lemma dropStopWords_In w ws : In w (dropStopWords ws) -> In w ws.
Proof.
  unfold dropStopWords. destruct (_ <? _)%nat; [|auto].
  intros H. now apply filter_In in H.
Qed.

(** A key that the cleaning steps leave alone is a fixed point. *)
Lemma normalizeTopic_fixed_of_clean s :
  cleanTopic (normalizeTopic s) = normalizeTopic s ->
  normalizeTopic (normalizeTopic s) = normalizeTopic s.
Proof.
  intros Hc. rewrite (normalizeTopic_words (normalizeTopic s)), Hc.
  rewrite (normalizeTopic_words s).
  destruct (dropStopWords (split " " (cleanTopic s))) as [|w ws] eqn:E; [reflexivity|].
  rewrite <- E. rewrite split_join.
  - now rewrite dropStopWords_idem.
  - rewrite E. discriminate.
  - apply List.Forall_forall. intros x Hx. apply dropStopWords_In in Hx.
    exact (proj1 (List.Forall_forall _ _) (split_words_sepFree " " (cleanTopic s)) x Hx).
Qed.

Lemma normalizeTopic_keyOrBlank s : allChars isKeyOrBlank (normalizeTopic s) = true.
Proof.
  rewrite normalizeTopic_words. apply join_allChars; [reflexivity|].
  apply List.Forall_forall. intros w Hw. apply dropStopWords_In in Hw.
  exact (proj1 (List.Forall_forall _ _) (split_allChars _ _ (cleanTopic_alphabet s)) w Hw).
Qed.

(** The result of [normalizeTopic] is the empty string or a tidy string, when
    its argument is plain. *)
Lemma normalizeTopic_of_plain_spaced t :
  isPlain t = true -> wellSpaced (normalizeTopic t) = true.
Proof.
  intros Hp. unfold wellSpaced. rewrite (normalizeTopic_words t).
  destruct (cleanTopic_plain t Hp) as [E|Ht].
  - rewrite E. reflexivity.
  - pose proof (dropStopWords_keyWords _ (tidy_split_words _ Ht)) as Hall.
    destruct (dropStopWords (split " " (cleanTopic t))) as [|w ws] eqn:E;
      [reflexivity|].
    rewrite (tidy_spaced _ _ (join_tidy (w :: ws) ltac:(discriminate) Hall)).
    apply orb_true_r.
Qed.

Lemma wellSpaced_clean_cases t :
  allChars isKeyOrBlank t = true -> wellSpaced t = true ->
  t = "" \/ tidyFrom true t = true.
Proof.
  intros Ha H. unfold wellSpaced in H. apply orb_prop in H as [H|H].
  - left. now apply String.eqb_eq.
  - right. now apply spaced_tidy.
Qed.

End Spacing.

(** C5 (amended): [normalizeTopic (normalizeTopic s)] equals
    [normalizeTopic s] exactly when [normalizeTopic s] has no space at
    either end and no two adjacent spaces.  That is so whenever the cleaned
    form of [s] (lower case, trimmed, white space collapsed, special
    characters stripped) has none, and in particular for every [s] made
    only of ASCII letters, digits, underscores and white space. *)
Theorem normalizeTopic_idempotent_iff (s : string) :
  (normalizeTopic (normalizeTopic s) = normalizeTopic s
   <-> wellSpaced (normalizeTopic s) = true)
  /\ (wellSpaced (cleanTopic s) = true ->
      normalizeTopic (normalizeTopic s) = normalizeTopic s)
  /\ (isPlain s = true ->
      normalizeTopic (normalizeTopic s) = normalizeTopic s).
Proof.
  split; [split|split].
  - intros Hfix. rewrite <- Hfix.
    apply normalizeTopic_of_plain_spaced, normalizeTopic_plain.
  - intros Hw. apply normalizeTopic_fixed_of_clean.
    destruct (wellSpaced_clean_cases _ (normalizeTopic_keyOrBlank s) Hw) as [E|Ht].
    + rewrite E. reflexivity.
    + now apply cleanTopic_tidy.
  - intros Hw. apply normalizeTopic_clean_fixed.
    exact (wellSpaced_clean_cases _ (cleanTopic_alphabet s) Hw).
  - apply normalizeTopic_idempotent_plain.
Qed.

(** A name with punctuation inside, a plain one, and the two directions of
    the equivalence. *)
Lemma normalizeTopic_idempotent_iff_witness :
  normalizeTopic (normalizeTopic "Machine-Learning!") = normalizeTopic "Machine-Learning!"
  /\ normalizeTopic (normalizeTopic "  The State_of  the ART 42 ")
     = normalizeTopic "  The State_of  the ART 42 "
  /\ normalizeTopic (normalizeTopic "C++") = normalizeTopic "C++"
  /\ wellSpaced (normalizeTopic "#AI") = true.
Proof.
  split; [|split; [|split]].
  - apply (proj1 (proj2 (normalizeTopic_idempotent_iff "Machine-Learning!"))).
    reflexivity.
  - apply (proj2 (proj2 (normalizeTopic_idempotent_iff "  The State_of  the ART 42 "))).
    reflexivity.
  - apply (proj2 (proj1 (normalizeTopic_idempotent_iff "C++"))). reflexivity.
  - apply (proj1 (proj1 (normalizeTopic_idempotent_iff "#AI"))). reflexivity.
Defined.

(** ** C6: stop words *)

Lemma filter_nonStop_all_stop ws :
  forallb (includes stopWords) ws = true -> List.filter nonStop ws = [].
Proof.
  induction ws as [|w ws IH]; [reflexivity|].
  cbn [forallb]. intros Hall. apply andb_prop in Hall as [Hw Hws].
  cbn [List.filter]. unfold nonStop at 1. rewrite Hw. cbn [negb].
  exact (IH Hws).
Qed.

(** C6, as stated, fails: the cleaned form ["the and"] holds stop words only,
    and [normalizeTopic] removes both and returns the empty string. *)
Lemma normalizeTopic_stop_words_only_emptied :
  cleanTopic "the and" = "the and" /\
  forallb (includes stopWords) (split " " (cleanTopic "the and")) = true /\
  normalizeTopic "the and" = "" /\
  normalizeTopic "the and" <> cleanTopic "the and".
Proof.
  split; [reflexivity|]. split; [reflexivity|]. split; [reflexivity|].
  vm_compute. discriminate.
Qed.

(** C6 (amended): when the cleaned form is a single token (it holds no
    space), [normalizeTopic] skips the stop-word step and returns the cleaned
    form, stop word or not; when it holds two tokens or more, the stop-word
    step is applied whatever remains, so that a cleaned form of two or more
    stop words normalizes to the empty string. *)
Theorem normalizeTopic_stop_word_rule (s : string) :
  (List.length (split " " (cleanTopic s)) = 1%nat ->
     normalizeTopic s = cleanTopic s) /\
  ((1 < List.length (split " " (cleanTopic s)))%nat ->
     normalizeTopic s
     = join " " (List.filter (fun word => negb (includes stopWords word))
                   (split " " (cleanTopic s)))) /\
  ((1 < List.length (split " " (cleanTopic s)))%nat ->
     forallb (includes stopWords) (split " " (cleanTopic s)) = true ->
     normalizeTopic s = "").
Proof.
  rewrite normalizeTopic_words. unfold dropStopWords.
  split; [|split].
  - intros H. rewrite H. cbn [Nat.ltb Nat.leb].
    exact (join_split " " (cleanTopic s)).
  - intros H. apply Nat.ltb_lt in H. now rewrite H.
  - intros H Hall. apply Nat.ltb_lt in H. rewrite H.
    now rewrite (filter_nonStop_all_stop _ Hall).
Qed.

Lemma normalizeTopic_stop_word_rule_witness :
  normalizeTopic "The" = cleanTopic "The" /\ normalizeTopic "of the" = "".
Proof.
  split.
  - apply (proj1 (normalizeTopic_stop_word_rule "The")). reflexivity.
  - apply (proj2 (proj2 (normalizeTopic_stop_word_rule "of the")));
      [vm_compute; lia | reflexivity].
Defined.

(** * The registry *)

Section JsMapFacts.

Context {V : Type}.
Implicit Types (m : list (string * V)) (k : string) (v : V).

Lemma get_set k' k v m :
  JsMap.get k' (JsMap.set k v m) = if String.eqb k' k then Some v else JsMap.get k' m.
Proof.
  induction m as [|[k0 v0] m IH]; cbn [JsMap.set JsMap.get].
  - reflexivity.
  - destruct (String.eqb_spec k k0) as [->|Hk]; cbn [JsMap.get].
    + now destruct (String.eqb k' k0).
    + rewrite IH. destruct (String.eqb_spec k' k0) as [->|Hk'].
      * apply not_eq_sym in Hk. apply String.eqb_neq in Hk. now rewrite Hk.
      * reflexivity.
Qed.

Lemma get_set_eq k v m : JsMap.get k (JsMap.set k v m) = Some v.
Proof. rewrite get_set. now rewrite String.eqb_refl. Qed.

Lemma get_set_ne k' k v m : k' <> k -> JsMap.get k' (JsMap.set k v m) = JsMap.get k' m.
Proof. intros H. rewrite get_set. apply String.eqb_neq in H. now rewrite H. Qed.

Lemma get_delete k' k m :
  JsMap.get k' (JsMap.delete k m) = if String.eqb k' k then None else JsMap.get k' m.
Proof.
  unfold JsMap.delete.
  induction m as [|[k0 v0] m IH]; cbn [List.filter JsMap.get fst].
  - now destruct (String.eqb k' k).
  - destruct (String.eqb_spec k k0) as [->|Hk]; cbn [negb JsMap.get].
    + rewrite IH. now destruct (String.eqb k' k0).
    + rewrite IH. destruct (String.eqb_spec k' k0) as [->|Hk'].
      * apply not_eq_sym in Hk. apply String.eqb_neq in Hk. now rewrite Hk.
      * reflexivity.
Qed.


Lemma get_delete_ne k' k m : k' <> k -> JsMap.get k' (JsMap.delete k m) = JsMap.get k' m.
Proof. intros H. rewrite get_delete. apply String.eqb_neq in H. now rewrite H. Qed.

Lemma has_get k m : JsMap.has k m = true <-> JsMap.get k m <> None.
Proof. unfold JsMap.has. destruct (JsMap.get k m); split; congruence. Qed.

Lemma get_In k v m : JsMap.get k m = Some v -> In (k, v) m.
Proof.
  induction m as [|[k0 v0] m IH]; cbn [JsMap.get]; [discriminate|].
  destruct (String.eqb_spec k k0) as [->|Hk].
  - intros [= ->]. now left.
  - intros H. right. now apply IH.
Qed.

Lemma get_None_keys k m : JsMap.get k m = None <-> ~ In k (JsMap.keys m).
Proof.
  induction m as [|[k0 v0] m IH]; cbn [JsMap.get JsMap.keys map fst In].
  - tauto.
  - destruct (String.eqb_spec k k0) as [->|Hk].
    + split; [discriminate | tauto].
    + unfold JsMap.keys in IH. rewrite IH. split; [intros H [E|E]; congruence | tauto].
Qed.

End JsMapFacts.

Lemma get_map_values {V W} (f : V -> W) k (m : list (string * V)) :
  JsMap.get k (map (fun e => (fst e, f (snd e))) m) = option_map f (JsMap.get k m).
Proof.
  induction m as [|[k0 v0] m IH]; cbn [map JsMap.get fst snd]; [reflexivity|].
  now destruct (String.eqb k k0).
Qed.


(** ** C9: when [mergeTopic] refuses *)

(** C9: [mergeTopic source target] returns false exactly when the two
    canonical keys are equal or one of them has no live record, and a call
    that returns false leaves the whole state (topics, relationship graph,
    synonyms, core topics) as it was. *)
Theorem mergeTopic_false_iff_unchanged (source target : string) (tm : TopicManager) :
  (fst (mergeTopic source target tm) = false <->
     getCanonicalTopic tm source = getCanonicalTopic tm target
     \/ JsMap.get (getCanonicalTopic tm source) (discoveredTopics tm) = None
     \/ JsMap.get (getCanonicalTopic tm target) (discoveredTopics tm) = None)
  /\ (fst (mergeTopic source target tm) = false ->
        snd (mergeTopic source target tm) = tm).
Proof.
  unfold mergeTopic.
  destruct (String.eqb_spec (getCanonicalTopic tm source) (getCanonicalTopic tm target))
    as [E|NE]; cbn [fst snd].
  - split; [|reflexivity]. split; [now left | reflexivity].
  - destruct (JsMap.get (getCanonicalTopic tm source) (discoveredTopics tm)) as [ms|];
      [destruct (JsMap.get (getCanonicalTopic tm target) (discoveredTopics tm)) as [mt|]|];
      cbn [fst snd].
    + split; [|discriminate]. split; [discriminate|].
      intros [H|[H|H]]; [contradiction | discriminate | discriminate].
    + split; [|reflexivity]. split; [now right; right | reflexivity].
    + split; [|reflexivity]. split; [now right; left | reflexivity].
Qed.

Lemma mergeTopic_false_iff_unchanged_witness :
  snd (mergeTopic "AI" "ai" emptyManager) = emptyManager.
Proof.
  apply (proj2 (mergeTopic_false_iff_unchanged "AI" "ai" emptyManager)).
  reflexivity.
Defined.

(** ** C1: what a successful merge establishes *)






(** The empty string can be a live key ([addTopic] does not refuse it), and
    [getCanonicalTopic] takes a synonym that maps to it for no synonym: a
    merge into it does not redirect the source. *)
Example mergeTopic_into_empty_key :
  fst (mergeTopic "ai" "" emptyKeyManager) = true
  /\ getCanonicalTopic (snd (mergeTopic "ai" "" emptyKeyManager)) "ai" = "ai"
  /\ getCanonicalTopic (snd (mergeTopic "ai" "" emptyKeyManager)) "" = "".
Proof. split; [reflexivity|]. split; reflexivity. Qed.

(** ** C2: the synonym map under merges and discovery *)

(** C2, as stated, fails: [mergeTopic] does not rewrite the synonyms that
    already point to the source, so two merges in a row leave a chain of two
    hops. *)
Lemma synonyms_chain_after_two_merges :
  reachable chainManager /\
  synonyms chainManager !! "neural nets" = Some "neural networks" /\
  synonyms chainManager !! "neural networks" = Some "deep learning" /\
  ~ oneHop (synonyms chainManager).
Proof.
  split.
  { unfold chainManager.
    do 2 apply reach_mergeTopic. do 3 apply reach_addTopic. exact reach_empty. }
  split; [vm_compute; reflexivity|]. split; [vm_compute; reflexivity|].
  intros H. specialize (H "neural nets" "neural networks").
  vm_compute in H. specialize (H eq_refl). discriminate H.
Qed.

Lemma oneHop_empty : oneHop ∅.
Proof. intros k v H. now rewrite lookup_empty in H. Qed.

Lemma oneHop_insert syn k v :
  oneHop syn -> installable syn k v -> oneHop (<[k:=v]> syn).
Proof.
  intros Hs (Hkv & Hv & Hk) k' v' H.
  destruct (decide (k = k')) as [<-|Hne].
  - rewrite lookup_insert_eq in H. injection H as <-.
    now rewrite lookup_insert_ne.
  - rewrite lookup_insert_ne in H by exact Hne.
    rewrite lookup_insert_ne; [now apply (Hs k')|].
    intros <-. now apply (Hk k').
Qed.

Lemma oneHop_insert_inv syn k v :
  oneHop syn -> k <> v -> oneHop (<[k:=v]> syn) -> installable syn k v.
Proof.
  intros Hs Hkv H. split; [exact Hkv|]. split.
  - specialize (H k v). rewrite lookup_insert_eq in H.
    specialize (H eq_refl). now rewrite lookup_insert_ne in H.
  - intros k' Hk'. destruct (decide (k = k')) as [<-|Hne].
    + specialize (Hs _ _ Hk'). congruence.
    + specialize (H k' k). rewrite lookup_insert_ne in H by exact Hne.
      specialize (H Hk'). now rewrite lookup_insert_eq in H.
Qed.

Section Frames.

(** A property every step keeps holds after the loop. *)
Lemma fold_left_preserves {A B} (P : A -> Prop) (step : A -> B -> A) l a :
  (forall a' b, P a' -> P (step a' b)) -> P a -> P (fold_left step l a).
Proof.
  intros Hstep. revert a. induction l as [|b l IH]; intros a Ha; [exact Ha|].
  cbn [fold_left]. apply IH, Hstep, Ha.
Qed.

Lemma synonyms_addTopic now1 now2 topic core tm :
  synonyms (snd (addTopic now1 now2 topic core tm)) = synonyms tm.
Proof.
  unfold addTopic. destruct (JsMap.get _ _) as [md|].
  - now destruct (core && negb (isCore md)).
  - now destruct core.
Qed.

Lemma synonyms_updateInterestLevel now topic tm :
  synonyms (updateInterestLevel now topic tm) = synonyms tm.
Proof. unfold updateInterestLevel. now destruct (JsMap.get _ _). Qed.

Lemma synonyms_updateTopicMetadata now1 now2 topic tm :
  synonyms (updateTopicMetadata now1 now2 topic tm) = synonyms tm.
Proof.
  unfold updateTopicMetadata. destruct (JsMap.get _ _); [|reflexivity].
  now rewrite synonyms_updateInterestLevel.
Qed.

Lemma synonyms_incrementRelationship topic1 topic2 tm :
  synonyms (incrementRelationship topic1 topic2 tm) = synonyms tm.
Proof.
  unfold incrementRelationship. cbv zeta.
  destruct (JsMap.get topic1 (discoveredTopics _)) as [md|]; [|reflexivity].
  now destruct (negb _).
Qed.

Lemma synonyms_updateTopicRelationships topics tm :
  synonyms (updateTopicRelationships topics tm) = synonyms tm.
Proof.
  revert tm. induction topics as [|t rest IH]; intros tm; [reflexivity|].
  cbn [updateTopicRelationships]. rewrite IH.
  apply (fold_left_preserves (fun tm' => synonyms tm' = synonyms tm)); [|reflexivity].
  intros tm' t2 H. now rewrite !synonyms_incrementRelationship.
Qed.

Lemma synonyms_trackTopic clock unique tm topic :
  synonyms (trackTopic clock unique tm topic) = synonyms tm.
Proof.
  unfold trackTopic. rewrite synonyms_updateTopicRelationships.
  destruct (JsMap.get _ _); [|reflexivity].
  now rewrite synonyms_updateInterestLevel.
Qed.

Lemma synonyms_trackObservation clock topics tm :
  synonyms (trackObservation clock topics tm) = synonyms tm.
Proof.
  unfold trackObservation.
  apply (fold_left_preserves (fun tm' => synonyms tm' = synonyms tm)); [|reflexivity].
  intros tm' t H. now rewrite synonyms_trackTopic.
Qed.

End Frames.

Lemma synonyms_discoverTopic viaLLM acc extracted :
  synonyms (snd (discoverTopic viaLLM acc extracted))
  = match discoveredSynonym viaLLM (snd acc) (fst extracted) with
    | Some (k, v) => <[k:=v]> (synonyms (snd acc))
    | None => synonyms (snd acc)
    end.
Proof.
  unfold discoverTopic, discoveredSynonym. cbv zeta.
  destruct (String.eqb (normalizeTopic (fst extracted)) ""); [reflexivity|].
  destruct (findSimilarTopic _ _ _ _) as [similar|]; cbn [snd].
  - destruct (String.eqb similar ""); cbn [snd].
    + apply synonyms_addTopic.
    + rewrite synonyms_updateTopicMetadata. now destruct (negb _).
  - apply synonyms_addTopic.
Qed.

Lemma synonyms_mergeTopic source target tm :
  synonyms (snd (mergeTopic source target tm))
  = if fst (mergeTopic source target tm)
    then <[getCanonicalTopic tm source := getCanonicalTopic tm target]> (synonyms tm)
    else synonyms tm.
Proof.
  unfold mergeTopic. destruct (String.eqb _ _); [reflexivity|].
  destruct (JsMap.get _ _); [|reflexivity]. now destruct (JsMap.get _ _).
Qed.

Lemma mergeTopic_true_distinct source target tm :
  fst (mergeTopic source target tm) = true ->
  getCanonicalTopic tm source <> getCanonicalTopic tm target.
Proof.
  unfold mergeTopic.
  destruct (String.eqb_spec (getCanonicalTopic tm source) (getCanonicalTopic tm target));
    [discriminate | auto].
Qed.

(** A successful merge from a one-hop map gives a one-hop map exactly when
    the installed pair makes no chain. *)
Lemma mergeTopic_oneHop_iff source target tm :
  oneHop (synonyms tm) ->
  fst (mergeTopic source target tm) = true ->
  oneHop (synonyms (snd (mergeTopic source target tm)))
  <-> installable (synonyms tm) (getCanonicalTopic tm source) (getCanonicalTopic tm target).
Proof.
  intros Hs Ht. rewrite synonyms_mergeTopic, Ht.
  pose proof (mergeTopic_true_distinct _ _ _ Ht) as Hne.
  split; [now apply oneHop_insert_inv | now apply oneHop_insert].
Qed.

(** * Interest level *)

(** C8: recomputing the interest level of a core topic stores
    [max(0.7, 0.3 * recency + 0.7 * frequency)], with
    [recency = exp(-0.1 * daysSinceLastUpdate)] and
    [frequency = min(1, observationCount / 10)], which is at least 0.7
    whatever the time since the last update. *)
Theorem core_interest_floor (now : Z) (topic : string) (tm : TopicManager)
    (metadata : TopicMetadata) :
  JsMap.get topic (discoveredTopics tm) = Some metadata ->
  isCore metadata = true ->
  exists metadata',
    JsMap.get topic (discoveredTopics (updateInterestLevel now topic tm)) = Some metadata'
    /\ interestLevel metadata'
       = Rmax (7 / 10)
           (3 / 10 * exp (- (1 / 10) * (IZR (now - lastUpdated metadata) / (1000 * 60 * 60 * 24)))
            + 7 / 10 * Rmin 1 (IZR (observationCount metadata) / 10))
    /\ (7 / 10 <= interestLevel metadata')%R.
Proof.
  intros Hget Hcore. unfold updateInterestLevel. rewrite Hget.
  eexists. split; [cbn [discoveredTopics withTopics]; apply get_set_eq|].
  cbn [setInterest interestLevel]. unfold interestScore. rewrite Hcore.
  split; [reflexivity | apply Rmax_l].
Qed.

(** A core topic looked at thirty days after its last update. *)
Lemma core_interest_floor_witness :
  exists metadata',
    JsMap.get "ai"
      (discoveredTopics
         (updateInterestLevel 2592000000 "ai" (snd (addTopic 0 0 "AI" true emptyManager))))
    = Some metadata'
    /\ (7 / 10 <= interestLevel metadata')%R.
Proof.
  destruct (core_interest_floor 2592000000 "ai"
              (snd (addTopic 0 0 "AI" true emptyManager))
              (mkMetadata true 1 0 0 0 0 []) eq_refl eq_refl)
    as (metadata' & Hget & _ & Hfloor).
  exists metadata'. split; [exact Hget | exact Hfloor].
Defined.

(** * Similarity by comparison *)

Section Comparison.

Variables (normalized : string) (threshold : Q).

Let sim (k : string) : Q := jaccard (wordSet normalized) (wordSet k).

Lemma jaccard_nonneg ws ws' : (0 <= jaccard ws ws')%Q.
Proof. unfold jaccard, Qle. cbn. lia. Qed.

Lemma compareStep_inv seen st k :
  k <> normalized ->
  scanInv sim threshold seen st -> scanInv sim threshold (seen ++ [k]) (compareStep normalized threshold st k).
Proof.
  intros Hk Hinv. unfold compareStep.
  apply String.eqb_neq in Hk. rewrite Hk. fold (sim k).
  destruct st as [[best|] s]; unfold scanInv in *; cbn [fst snd] in *.
  - destruct Hinv as (-> & before & after & -> & Hpos & Hthr & Hbef & Haft).
    destruct (Qle_bool (sim k) (sim best)) eqn:Hle; cbn [negb andb].
    + apply Qle_bool_iff in Hle. split; [reflexivity|].
      exists before, (after ++ [k]). rewrite <- List.app_assoc.
      repeat (split; [assumption || reflexivity|]).
      intros k' Hin. apply in_app_or in Hin as [Hin|[<-|[]]]; auto.
    + assert (Hlt : (sim best < sim k)%Q).
      { apply Qnot_le_lt. intros H. apply Qle_bool_iff in H. congruence. }
      destruct (Qle_bool threshold (sim k)) eqn:Hthr'; cbn [fst snd].
      * split; [reflexivity|].
        exists (before ++ best :: after), []. split; [reflexivity|].
        split; [now apply Qlt_trans with (sim best)|].
        split; [now apply Qle_bool_iff|].
        split; [|intros k' []].
        intros k' Hin. apply in_app_or in Hin as [Hin|[<-|Hin]].
        -- apply Qlt_trans with (sim best); auto.
        -- exact Hlt.
        -- apply Qle_lt_trans with (sim best); auto.
      * exfalso. assert (Hc : Qle_bool threshold (sim k) = true); [|congruence].
        apply Qle_bool_iff, Qle_trans with (sim best); [exact Hthr|].
        now apply Qlt_le_weak.
  - destruct Hinv as (-> & Hnone).
    destruct (Qle_bool (sim k) 0) eqn:Hle; cbn [negb andb].
    + apply Qle_bool_iff in Hle. split; [reflexivity|].
      intros k' Hin. apply in_app_or in Hin as [Hin|[<-|[]]]; [now apply Hnone|].
      intros [Hpos _]. now apply (Qlt_not_le _ _ Hpos).
    + assert (Hlt : (0 < sim k)%Q).
      { apply Qnot_le_lt. intros H. apply Qle_bool_iff in H. congruence. }
      destruct (Qle_bool threshold (sim k)) eqn:Hthr; cbn [fst snd].
      * apply Qle_bool_iff in Hthr. split; [reflexivity|].
        exists seen, []. split; [reflexivity|].
        split; [exact Hlt|]. split; [exact Hthr|]. split; [|intros k' []].
        intros k' Hin.
        destruct (Qlt_le_dec (sim k') (sim k)) as [H|H]; [exact H|].
        exfalso. apply (Hnone k' Hin). split.
        -- now apply Qlt_le_trans with (sim k).
        -- now apply Qle_trans with (sim k).
      * split; [reflexivity|].
        intros k' Hin. apply in_app_or in Hin as [Hin|[<-|[]]]; [now apply Hnone|].
        intros [_ H]. apply Qle_bool_iff in H. congruence.
Qed.

Lemma scan_inv todo : forall seen st,
  ~ In normalized todo ->
  scanInv sim threshold seen st ->
  scanInv sim threshold (seen ++ todo) (fold_left (compareStep normalized threshold) todo st).
Proof.
  induction todo as [|k todo IH]; intros seen st Hnot Hinv.
  - now rewrite List.app_nil_r.
  - cbn [fold_left].
    replace (seen ++ k :: todo) with ((seen ++ [k]) ++ todo)
      by (now rewrite <- List.app_assoc).
    apply IH; [intros H; apply Hnot; now right|].
    apply compareStep_inv; [|exact Hinv].
    intros ->. apply Hnot. now left.
Qed.

Lemma findSimilarTopicByComparison_bestMatch tm :
  JsMap.get normalized (discoveredTopics tm) = None ->
  bestMatch sim threshold (JsMap.keys (discoveredTopics tm))
    (findSimilarTopicByComparison tm normalized threshold).
Proof.
  intros Hget. apply get_None_keys in Hget.
  unfold findSimilarTopicByComparison.
  pose proof (scan_inv (JsMap.keys (discoveredTopics tm)) [] (None, 0%Q) Hget) as H.
  cbn [List.app] in H.
  assert (H0 : scanInv sim threshold [] (None, 0%Q)) by (split; [reflexivity | intros k []]).
  specialize (H H0). unfold scanInv in H.
  destruct (fst (fold_left _ _ _)); tauto.
Qed.

End Comparison.

(** C7, as stated, fails at threshold 0: ["cats"] has no exact match and no
    synonym, the only key has similarity 0, which is at the threshold, and the
    result is null: the scan starts from a best similarity of 0 and only a
    strictly higher one replaces it. *)
Lemma findSimilarTopic_zero_similarity_rejected :
  JsMap.has "cats" (discoveredTopics dogsManager) = false /\
  synonyms dogsManager !! "cats" = None /\
  (JsMap.size (discoveredTopics dogsManager) < 100)%nat /\
  JsMap.keys (discoveredTopics dogsManager) = ["dogs"] /\
  (0 <= jaccard (wordSet "cats") (wordSet "dogs"))%Q /\
  findSimilarTopic noLLM dogsManager "cats" 0 = None.
Proof.
  split; [reflexivity|]. split; [reflexivity|]. split; [vm_compute; lia|].
  split; [reflexivity|]. split; [apply jaccard_nonneg | reflexivity].
Qed.

(** C7 (amended): for a candidate with no exact match in the topic map and no
    entry in the synonym table, in a registry of fewer than 100 topics,
    [findSimilarTopic] returns the first key in scan order among those of
    highest word-set Jaccard similarity to the candidate, provided that
    similarity is positive and at or above the threshold; it returns null
    when no key has a positive similarity at or above the threshold. *)
Theorem findSimilarTopic_local_best
    (viaLLM : string -> list string -> Q -> option string)
    (tm : TopicManager) (topic : string) (threshold : Q) :
  JsMap.get (normalizeTopic topic) (discoveredTopics tm) = None ->
  synonyms tm !! normalizeTopic topic = None ->
  (JsMap.size (discoveredTopics tm) < 100)%nat ->
  bestMatch (fun k => jaccard (wordSet (normalizeTopic topic)) (wordSet k)) threshold
    (JsMap.keys (discoveredTopics tm))
    (findSimilarTopic viaLLM tm topic threshold).
Proof.
  intros Hget Hsyn Hsize. unfold findSimilarTopic, JsMap.has.
  rewrite Hget, Hsyn. apply Nat.ltb_lt in Hsize. rewrite Hsize.
  now apply findSimilarTopicByComparison_bestMatch.
Qed.

Lemma findSimilarTopic_local_best_witness :
  bestMatch
    (fun k => jaccard (wordSet (normalizeTopic "Machine machine learning!")) (wordSet k))
    similarityThreshold
    ["deep learning"; "machine learning"; "learning machine"]
    (findSimilarTopic noLLM
       (snd (addTopic 0 0 "learning machine" false
          (snd (addTopic 0 0 "machine learning" false
             (snd (addTopic 0 0 "deep learning" false emptyManager))))))
       "Machine machine learning!" similarityThreshold).
Proof.
  apply (findSimilarTopic_local_best noLLM
           (snd (addTopic 0 0 "learning machine" false
              (snd (addTopic 0 0 "machine learning" false
                 (snd (addTopic 0 0 "deep learning" false emptyManager))))))
           "Machine machine learning!" similarityThreshold).
  - reflexivity.
  - reflexivity.
  - vm_compute. lia.
Defined.

Example findSimilarTopic_first_of_ties :
  findSimilarTopic noLLM
    (snd (addTopic 0 0 "learning machine" false
       (snd (addTopic 0 0 "machine learning" false
          (snd (addTopic 0 0 "deep learning" false emptyManager))))))
    "Machine machine learning!" similarityThreshold
  = Some "machine learning".
Proof. reflexivity. Qed.

(** * The relationship graph *)

Section GraphFacts.

Lemma keys_set {V} k (v : V) m :
  JsMap.keys (JsMap.set k v m)
  = if JsMap.has k m then JsMap.keys m else JsMap.keys m ++ [k].
Proof.
  unfold JsMap.has, JsMap.keys.
  induction m as [|[k0 v0] m IH]; cbn [JsMap.set JsMap.get map fst]; [reflexivity|].
  destruct (String.eqb_spec k k0) as [->|Hk]; [reflexivity|].
  cbn [map fst]. rewrite IH. now destruct (JsMap.get k m).
Qed.

Lemma wf_set {V} k (v : V) m : JsMap.wf m -> JsMap.wf (JsMap.set k v m).
Proof.
  unfold JsMap.wf. intros H. rewrite keys_set. unfold JsMap.has.
  destruct (JsMap.get k m) eqn:E; [exact H|].
  apply get_None_keys in E. apply List.NoDup_app; [exact H | |].
  - apply List.NoDup_cons; [intros [] | apply List.NoDup_nil].
  - intros x Hx [<-|[]]. contradiction.
Qed.

Lemma wf_delete {V} k (m : list (string * V)) : JsMap.wf m -> JsMap.wf (JsMap.delete k m).
Proof.
  unfold JsMap.wf, JsMap.delete, JsMap.keys.
  induction m as [|[k0 v0] m IH]; cbn [List.filter map fst]; [auto|].
  intros H. inversion H as [|? ? Hnot Hnd]; subst.
  destruct (negb (String.eqb k k0)); [|now apply IH].
  cbn [map fst]. apply List.NoDup_cons; [|now apply IH].
  intros Hin. apply Hnot. apply in_map_iff in Hin as ([k1 v1] & <- & Hin).
  apply filter_In in Hin as [Hin _]. now apply (in_map fst) in Hin.
Qed.

End GraphFacts.

Section Weights.

Implicit Types (rels : list (string * list (string * Z))) (row : list (string * Z)).

Local Open Scope Z_scope.

Lemma weight_set rels k row a b :
  weight (JsMap.set k row rels) a b
  = if String.eqb a k then orZero (JsMap.get b row) else weight rels a b.
Proof. unfold weight. rewrite get_set. now destruct (String.eqb a k). Qed.

Lemma weight_delete rels k a b :
  weight (JsMap.delete k rels) a b = if String.eqb a k then 0 else weight rels a b.
Proof. unfold weight. rewrite get_delete. now destruct (String.eqb a k). Qed.

Lemma graphWf_get rels k row :
  graphWf rels -> JsMap.get k rels = Some row -> JsMap.wf row.
Proof.
  intros Hwf Hget. apply get_In in Hget.
  exact (proj1 (List.Forall_forall _ _) Hwf _ Hget).
Qed.





(** Folding the source row into the target row adds the strengths. *)
Lemma foldStrength_get srow : forall trow b,
  JsMap.wf srow ->
  orZero (JsMap.get b (fold_left foldStrength srow trow))
  = orZero (JsMap.get b trow) + orZero (JsMap.get b srow).
Proof.
  induction srow as [|[k v] srow IH]; intros trow b Hwf.
  - cbn. lia.
  - inversion Hwf as [|? ? Hnot Hrest]; subst.
    cbn [fold_left]. rewrite (IH _ _ Hrest).
    unfold foldStrength. cbn [fst snd JsMap.get]. rewrite get_set.
    destruct (String.eqb_spec b k) as [->|Hb]; [|reflexivity].
    apply get_None_keys in Hnot. rewrite Hnot. cbn [orZero]. lia.
Qed.


(** Rewriting the references to the source in one row. *)
Lemma rewriteReferences_get sc tc row b :
  sc <> tc ->
  orZero (JsMap.get b (rewriteReferences sc tc row))
  = if String.eqb b sc then 0
    else if String.eqb b tc
         then orZero (JsMap.get sc row) + orZero (JsMap.get tc row)
         else orZero (JsMap.get b row).
Proof.
  intros Hne. unfold rewriteReferences, JsMap.has.
  destruct (JsMap.get sc row) as [s|] eqn:Es.
  - rewrite get_delete, get_set.
    destruct (String.eqb b sc); [reflexivity|].
    now destruct (String.eqb b tc).
  - destruct (String.eqb_spec b sc) as [->|Hb]; [now rewrite Es|].
    destruct (String.eqb_spec b tc) as [->|Hb']; cbn [orZero]; lia.
Qed.

Lemma weight_rewriteReferences sc tc rels a b :
  sc <> tc ->
  weight (map (fun e => (fst e, rewriteReferences sc tc (snd e))) rels) a b
  = if String.eqb b sc then 0
    else if String.eqb b tc then weight rels a sc + weight rels a tc
         else weight rels a b.
Proof.
  intros Hne. unfold weight. rewrite get_map_values.
  destruct (JsMap.get a rels) as [row|]; cbn [option_map].
  - now apply rewriteReferences_get.
  - destruct (String.eqb b sc); [reflexivity|]. now destruct (String.eqb b tc).
Qed.

(** The whole of [mergeTopic]'s work on the graph, edge by edge. *)
Lemma weight_mergeRelationships sc tc rels a b :
  graphWf rels -> sc <> tc ->
  weight (mergeRelationships sc tc rels) a b
  = if String.eqb a sc || String.eqb b sc then 0
    else weight rels a b
         + (if String.eqb a tc then weight rels sc b else 0)
         + (if String.eqb b tc
            then weight rels a sc + (if String.eqb a tc then weight rels sc sc else 0)
            else 0).
Proof.
  intros Hwf Hne. unfold mergeRelationships. cbv zeta.
  set (rels1 := match JsMap.get sc rels with Some _ => _ | None => rels end).
  assert (H1 : forall x y,
             weight rels1 x y
             = weight rels x y + (if String.eqb x tc then weight rels sc y else 0)).
  { intros x y. subst rels1. unfold weight at 3.
    destruct (JsMap.get sc rels) as [srow|] eqn:Es.
    - rewrite weight_set.
      destruct (String.eqb_spec x tc) as [->|Hx]; [|lia].
      rewrite (foldStrength_get _ _ _ (graphWf_get _ _ _ Hwf Es)).
      unfold weight. now destruct (JsMap.get tc rels).
    - destruct (String.eqb x tc); lia. }
  rewrite (weight_rewriteReferences _ _ _ _ _ Hne), !weight_delete, !H1.
  destruct (String.eqb_spec a sc) as [->|Ha]; cbn [orb].
  - destruct (String.eqb b sc); [reflexivity|]. now destruct (String.eqb b tc).
  - destruct (String.eqb_spec b sc) as [->|Hb]; [reflexivity|].
    destruct (String.eqb_spec b tc) as [->|Hb']; destruct (String.eqb a tc); lia.
Qed.



End Weights.

Section SetFacts.

Lemma includes_In l x : includes l x = true <-> In x l.
Proof.
  unfold includes. rewrite existsb_exists. split.
  - intros (y & Hy & E). apply String.eqb_eq in E. now subst.
  - intros H. exists x. split; [exact H | apply String.eqb_refl].
Qed.

Lemma includes_false l x : includes l x = false <-> ~ In x l.
Proof.
  rewrite <- includes_In. destruct (includes l x); split; congruence.
Qed.

Lemma add_NoDup s x : List.NoDup s -> List.NoDup (JsSet.add s x).
Proof.
  intros H. unfold JsSet.add. destruct (includes s x) eqn:E; [exact H|].
  apply includes_false in E. apply List.NoDup_app; [exact H | |].
  - apply List.NoDup_cons; [intros [] | apply List.NoDup_nil].
  - intros y Hy [<-|[]]. contradiction.
Qed.

Lemma add_In s x y : In y (JsSet.add s x) <-> In y s \/ y = x.
Proof.
  unfold JsSet.add. destruct (includes s x) eqn:E.
  - apply includes_In in E. split; [tauto | intros [H| ->]; assumption].
  - rewrite in_app_iff. cbn [In]. split; [intros [H|[H|[]]] | intros [H|H]]; auto.
Qed.

(** A [Set] holds no element twice. *)
Lemma ofList_NoDup xs : List.NoDup (JsSet.ofList xs).
Proof.
  unfold JsSet.ofList.
  apply (fold_left_preserves (fun s => List.NoDup s)); [|apply List.NoDup_nil].
  intros s x. apply add_NoDup.
Qed.

Lemma ofList_In xs y : In y (JsSet.ofList xs) <-> In y xs.
Proof.
  unfold JsSet.ofList.
  assert (H : forall acc, In y (fold_left JsSet.add xs acc) <-> In y acc \/ In y xs).
  { induction xs as [|x xs IH]; intros acc; cbn [fold_left In]; [tauto|].
    rewrite IH, add_In. split; [intros [[H|H]|H] | intros [H|[H|H]]]; auto. }
  rewrite H. cbn [In]. tauto.
Qed.

End SetFacts.

Section Increment.

Local Open Scope Z_scope.

(** Case analysis on every comparison of keys in the goal. *)
Ltac eqb_cases :=
  repeat match goal with
         | |- context [String.eqb ?x ?x] => rewrite (String.eqb_refl x)
         | |- context [String.eqb ?x ?y] => destruct (String.eqb_spec x y); subst
         end.

(** Then on every membership test, [Hnot] being one known to fail. *)
Ltac bool_cases Hnot :=
  cbn [andb orb negb]; rewrite ?Hnot, ?andb_false_r, ?andb_true_r;
  cbn [andb orb negb];
  repeat match goal with
         | |- context [existsb ?f ?l] => destruct (existsb f l)
         end;
  cbn [andb orb negb]; lia || congruence.

Lemma topicRelationships_incrementRelationship topic1 topic2 tm :
  topicRelationships (incrementRelationship topic1 topic2 tm)
  = incrementEdge topic1 topic2 (topicRelationships tm).
Proof.
  unfold incrementRelationship. cbv zeta.
  destruct (JsMap.get topic1 (discoveredTopics _)) as [md|]; [|reflexivity].
  now destruct (negb _).
Qed.

Lemma topicRelationships_updateInterestLevel now topic tm :
  topicRelationships (updateInterestLevel now topic tm) = topicRelationships tm.
Proof. unfold updateInterestLevel. now destruct (JsMap.get _ _). Qed.

Lemma incrementEdge_row topic1 (rels : list (string * list (string * Z))) :
  JsMap.get topic1 (if JsMap.has topic1 rels then rels else JsMap.set topic1 [] rels)
  = Some (match JsMap.get topic1 rels with Some r => r | None => [] end).
Proof.
  unfold JsMap.has. destruct (JsMap.get topic1 rels) eqn:E; [exact E|].
  apply get_set_eq.
Qed.

(** One increment adds 1 to one directed edge. *)
Lemma weight_incrementEdge topic1 topic2 rels a b :
  weight (incrementEdge topic1 topic2 rels) a b
  = weight rels a b + (if String.eqb a topic1 && String.eqb b topic2 then 1 else 0).
Proof.
  unfold incrementEdge. cbv zeta. rewrite incrementEdge_row, weight_set.
  destruct (String.eqb_spec a topic1) as [->|Ha]; cbn [andb].
  - rewrite get_set. unfold weight.
    destruct (String.eqb_spec b topic2) as [->|Hb];
      destruct (JsMap.get topic1 rels); cbn [orZero JsMap.get]; lia.
  - unfold weight, JsMap.has.
    destruct (JsMap.get topic1 rels); [lia|].
    rewrite get_set_ne by exact Ha. lia.
Qed.


Lemma strength_incrementRelationship topic1 topic2 tm a b :
  strength (incrementRelationship topic1 topic2 tm) a b
  = strength tm a b + (if String.eqb a topic1 && String.eqb b topic2 then 1 else 0).
Proof.
  unfold strength. rewrite topicRelationships_incrementRelationship.
  apply weight_incrementEdge.
Qed.

Lemma strength_inner_loop topic1 rest : forall tm a b,
  List.NoDup rest ->
  strength
    (fold_left
       (fun tm' topic2 =>
          incrementRelationship topic2 topic1 (incrementRelationship topic1 topic2 tm'))
       rest tm) a b
  = strength tm a b
    + (if String.eqb a topic1 && includes rest b then 1 else 0)
    + (if String.eqb b topic1 && includes rest a then 1 else 0).
Proof.
  induction rest as [|t2 rest IH]; intros tm a b Hnd.
  - cbn [fold_left includes existsb]. rewrite !andb_false_r. lia.
  - inversion Hnd as [|? ? Hnot Hrest]; subst. apply includes_false in Hnot.
    cbn [fold_left]. rewrite (IH _ _ _ Hrest), !strength_incrementRelationship.
    unfold includes in *. cbn [existsb].
    eqb_cases; bool_cases Hnot.
Qed.

Lemma strength_updateTopicRelationships topics : forall tm a b,
  List.NoDup topics ->
  strength (updateTopicRelationships topics tm) a b
  = strength tm a b + pairCount topics a b.
Proof.
  induction topics as [|t1 rest IH]; intros tm a b Hnd.
  - cbn. lia.
  - inversion Hnd as [|? ? Hnot Hrest]; subst.
    cbn [updateTopicRelationships pairCount].
    rewrite (IH _ _ _ Hrest), (strength_inner_loop _ _ _ _ _ Hrest). lia.
Qed.

(** Each pair of distinct topics of the list is counted once. *)
Lemma pairCount_closed topics a b :
  List.NoDup topics ->
  pairCount topics a b
  = if negb (String.eqb a b) && includes topics a && includes topics b then 1 else 0.
Proof.
  induction topics as [|t1 rest IH]; intros Hnd.
  - cbn. now rewrite andb_false_r.
  - inversion Hnd as [|? ? Hnot Hrest]; subst. apply includes_false in Hnot.
    cbn [pairCount]. rewrite (IH Hrest).
    unfold includes in *. cbn [existsb].
    eqb_cases; bool_cases Hnot.
Qed.

End Increment.

Section Tracking.

Local Open Scope Z_scope.

Lemma strength_trackTopic clock unique tm topic a b :
  List.NoDup unique ->
  strength (trackTopic clock unique tm topic) a b
  = strength tm a b + pairCount unique a b.
Proof.
  intros Hnd. unfold trackTopic. cbv zeta.
  rewrite (strength_updateTopicRelationships _ _ _ _ Hnd). f_equal.
  unfold strength. destruct (JsMap.get topic (discoveredTopics tm)); [|reflexivity].
  now rewrite topicRelationships_updateInterestLevel.
Qed.

Lemma strength_trackLoop clock unique a b : forall todo tm,
  List.NoDup unique ->
  strength (fold_left (trackTopic clock unique) todo tm) a b
  = strength tm a b + Z.of_nat (List.length todo) * pairCount unique a b.
Proof.
  induction todo as [|t todo IH]; intros tm Hnd.
  - cbn. lia.
  - cbn [fold_left]. rewrite (IH _ Hnd), (strength_trackTopic _ _ _ _ _ _ Hnd).
    cbn [List.length]. lia.
Qed.

(** One observation adds to every edge between two of its distinct topics,
    in each direction, the number of its distinct topics. *)
Lemma strength_trackObservation clock topics tm a b :
  strength (trackObservation clock topics tm) a b
  = strength tm a b
    + Z.of_nat (List.length (JsSet.ofList (map (getCanonicalTopic tm) topics)))
      * (if negb (String.eqb a b)
            && includes (JsSet.ofList (map (getCanonicalTopic tm) topics)) a
            && includes (JsSet.ofList (map (getCanonicalTopic tm) topics)) b
         then 1 else 0).
Proof.
  unfold trackObservation. cbv zeta.
  rewrite strength_trackLoop by apply ofList_NoDup.
  now rewrite pairCount_closed by apply ofList_NoDup.
Qed.




End Tracking.

Section MergeGraph.

Lemma topicRelationships_mergeTopic source target tm :
  topicRelationships (snd (mergeTopic source target tm))
  = if fst (mergeTopic source target tm)
    then mergeRelationships (getCanonicalTopic tm source) (getCanonicalTopic tm target)
           (topicRelationships tm)
    else topicRelationships tm.
Proof.
  unfold mergeTopic. destruct (String.eqb _ _); [reflexivity|].
  destruct (JsMap.get _ _); [|reflexivity]. now destruct (JsMap.get _ _).
Qed.



End MergeGraph.

Section AddTopicGraph.

Local Open Scope Z_scope.




Lemma topicRelationships_updateTopicMetadata now1 now2 topic tm :
  topicRelationships (updateTopicMetadata now1 now2 topic tm) = topicRelationships tm.
Proof.
  unfold updateTopicMetadata. destruct (JsMap.get _ _); [|reflexivity].
  now rewrite topicRelationships_updateInterestLevel.
Qed.


End AddTopicGraph.

(** ** C4: symmetry of the graph *)





(** ** C3: what one observation adds to an edge *)

(** For two distinct canonical topics of an observation, the strength of the
    edge between them grows by the number of distinct canonical topics of the
    observation: [updateTopicRelationships] runs once per topic of the
    [forEach], and each run adds 1. *)
Lemma trackObservation_strength_increase clock topics tm A B :
  In A (map (getCanonicalTopic tm) topics) ->
  In B (map (getCanonicalTopic tm) topics) ->
  A <> B ->
  strength (trackObservation clock topics tm) A B
  = (strength tm A B
     + Z.of_nat (List.length (JsSet.ofList (map (getCanonicalTopic tm) topics))))%Z
  /\ (2 <= List.length (JsSet.ofList (map (getCanonicalTopic tm) topics)))%nat.
Proof.
  intros HA HB Hne. apply ofList_In in HA, HB. split.
  - rewrite strength_trackObservation.
    apply String.eqb_neq in Hne. rewrite Hne.
    apply includes_In in HA, HB. rewrite HA, HB. cbn [negb andb]. lia.
  - pose proof (ofList_NoDup (map (getCanonicalTopic tm) topics)) as Hnd.
    destruct (JsSet.ofList (map (getCanonicalTopic tm) topics)) as [|x [|y l]];
      cbn [List.length]; [contradiction | | lia].
    destruct HA as [<-|[]], HB as [<-|[]]. congruence.
Qed.

(** C3 at a failing input: the registered topics ["cats"] and ["dogs"] have no
    edge; one observation of the two gives both directed edges strength 2,
    not 1. *)
Theorem trackObservation_pair_adds_two :
  strength (snd (addTopic 0 0 "dogs" false (snd (addTopic 0 0 "cats" false emptyManager))))
    "cats" "dogs" = 0%Z
  /\ strength petsManager "cats" "dogs" = 2%Z
  /\ strength petsManager "dogs" "cats" = 2%Z.
Proof. split; [reflexivity|]. split; reflexivity. Qed.

(** ** C10: a merge of two related topics leaves a self-edge *)

(** C10: there is a reachable state with two live topics joined by a
    non-zero edge such that, after [mergeTopic source target] returns true,
    the row of the target holds a non-zero edge from the target to itself,
    and [getRelatedTopics target] lists the target. *)
Theorem mergeTopic_leaves_self_edge :
  exists (tm : TopicManager) (source target : string),
    reachable tm
    /\ JsMap.has source (discoveredTopics tm) = true
    /\ JsMap.has target (discoveredTopics tm) = true
    /\ strength tm source target <> 0%Z
    /\ fst (mergeTopic source target tm) = true
    /\ strength (snd (mergeTopic source target tm)) target target <> 0%Z
    /\ In target (getRelatedTopics (snd (mergeTopic source target tm)) target 5).
Proof.
  exists petsManager, "cats", "dogs".
  split.
  { unfold petsManager.
    apply reach_trackObservation. do 2 apply reach_addTopic. exact reach_empty. }
  split; [reflexivity|]. split; [reflexivity|].
  split; [vm_compute; discriminate|]. split; [reflexivity|].
  split; [vm_compute; discriminate|].
  vm_compute. now left.
Qed.

(** The self-edge in general: after a successful merge, the strength of the
    edge from the target to itself is its former strength plus the
    strengths of the three edges among source and target. *)
Lemma mergeTopic_self_edge_strength source target tm :
  graphWf (topicRelationships tm) ->
  fst (mergeTopic source target tm) = true ->
  strength (snd (mergeTopic source target tm))
    (getCanonicalTopic tm target) (getCanonicalTopic tm target)
  = (strength tm (getCanonicalTopic tm target) (getCanonicalTopic tm target)
     + strength tm (getCanonicalTopic tm source) (getCanonicalTopic tm target)
     + strength tm (getCanonicalTopic tm target) (getCanonicalTopic tm source)
     + strength tm (getCanonicalTopic tm source) (getCanonicalTopic tm source))%Z.
Proof.
  intros Hwf Ht. unfold strength. rewrite topicRelationships_mergeTopic, Ht.
  pose proof (mergeTopic_true_distinct _ _ _ Ht) as Hne.
  rewrite weight_mergeRelationships by assumption.
  apply not_eq_sym in Hne. apply String.eqb_neq in Hne.
  rewrite Hne, String.eqb_refl. cbn [orb]. lia.
Qed.

(** * Further properties *)

(** ** The alphabet of a key *)

(** X1: whatever the input, the key [normalizeTopic] returns is made of
    lower-case letters, digits, underscores and spaces only. *)
Theorem normalizeTopic_alphabet (s : string) :
  allChars isKeyOrBlank (normalizeTopic s) = true.
Proof.
  rewrite normalizeTopic_words. apply join_allChars; [reflexivity|].
  pose proof (split_allChars _ _ (cleanTopic_alphabet s)) as H.
  unfold dropStopWords.
  destruct (1 <? List.length (split " " (cleanTopic s)))%nat; [|exact H].
  apply List.Forall_forall. intros w Hw. apply filter_In in Hw as [Hw _].
  exact (proj1 (List.Forall_forall _ _) H w Hw).
Qed.

(** ** formatHashtag *)

Section CamelCase.

Lemma lower_not_upper c : isLowerAscii c = true -> isUpperAscii c = false.
Proof. destruct c as [[] [] [] [] [] [] [] []]; vm_compute; congruence. Qed.

Lemma upper_not_lower c : isUpperAscii c = true -> isLowerAscii c = false.
Proof. destruct c as [[] [] [] [] [] [] [] []]; vm_compute; congruence. Qed.

Lemma splitCamel_two c1 c2 rest :
  splitCamel (String c1 (String c2 rest))
  = if isLowerAscii c1 && isUpperAscii c2
    then String c1 (String " " (splitCamel (String c2 rest)))
    else String c1 (splitCamel (String c2 rest)).
Proof. reflexivity. Qed.

(** Inside a run of lower-case letters nothing is split; a space comes
    before the upper-case letter that follows the run. *)
Lemma splitCamel_lower_run ls : forall d rest,
  isLowerAscii d = true -> allChars isLowerAscii ls = true ->
  splitCamel (String d (ls ++ rest))
  = match rest with
    | String u _ =>
        if isUpperAscii u
        then (String d ls ++ String " " (splitCamel rest))%string
        else (String d ls ++ splitCamel rest)%string
    | EmptyString => String d ls
    end.
Proof.
  induction ls as [|l ls IH]; intros d rest Hd Hls.
  - change (String d ("" ++ rest)%string) with (String d rest).
    destruct rest as [|u rest']; [reflexivity|].
    rewrite splitCamel_two, Hd. cbn [andb].
    destruct (isUpperAscii u); reflexivity.
  - cbn [allChars] in Hls. apply andb_prop in Hls as [Hl Hls].
    change (String d (String l ls ++ rest)%string)
      with (String d (String l (ls ++ rest)%string)).
    rewrite splitCamel_two, (lower_not_upper l Hl), andb_false_r.
    rewrite (IH l rest Hl Hls).
    destruct rest as [|u rest']; [reflexivity|].
    destruct (isUpperAscii u); reflexivity.
Qed.

Lemma runTogether_cons w ws : runTogether (w :: ws) = (w ++ runTogether ws)%string.
Proof.
  unfold runTogether. destruct ws as [|w' ws]; cbn [String.concat].
  - now rewrite append_empty_r.
  - reflexivity.
Qed.

Lemma isCapWord_inv w :
  isCapWord w = true ->
  exists c d rest, w = String c (String d rest)
    /\ isUpperAscii c = true /\ isLowerAscii d = true
    /\ allChars isLowerAscii rest = true.
Proof.
  destruct w as [|c [|d rest]]; try discriminate. cbn [isCapWord]. intros H.
  apply andb_prop in H as [H Hr]. apply andb_prop in H as [Hc Hd].
  now exists c, d, rest.
Qed.

(** The camel-case split gives the capitalised words back. *)
Lemma splitCamel_runTogether ws :
  Forall (fun w => isCapWord w = true) ws ->
  splitCamel (runTogether ws) = join " " ws.
Proof.
  induction 1 as [|w ws Hw Hws IH]; [reflexivity|].
  rewrite runTogether_cons.
  destruct (isCapWord_inv w Hw) as (c & d & rest & -> & Hc & Hd & Hrest).
  change (String c (String d rest) ++ runTogether ws)%string
    with (String c (String d (rest ++ runTogether ws)%string)).
  rewrite splitCamel_two, (upper_not_lower c Hc). cbn [andb].
  rewrite (splitCamel_lower_run rest d (runTogether ws) Hd Hrest).
  destruct ws as [|w' ws'].
  - reflexivity.
  - inversion Hws as [|? ? Hw' _]; subst.
    destruct (isCapWord_inv w' Hw') as (c' & d' & rest' & -> & Hc' & _ & _).
    rewrite runTogether_cons in *.
    change (String c' (String d' rest') ++ runTogether ws')%string
      with (String c' (String d' rest' ++ runTogether ws')%string) in *.
    cbv iota beta. rewrite Hc', IH, join_cons_cons. reflexivity.
Qed.

End CamelCase.

(** X2: a hashtag made of capitalised words written together (an upper-case
    letter, then lower-case letters), with or without its [#], gets the key
    of the same words separated by spaces. *)
Theorem formatHashtag_camel_case (ws : list string) :
  Forall (fun w => isCapWord w = true) ws ->
  formatHashtag (String "#" (runTogether ws)) = normalizeTopic (join " " ws)
  /\ formatHashtag (runTogether ws) = normalizeTopic (join " " ws).
Proof.
  intros Hws. split.
  - unfold formatHashtag. cbv zeta. now rewrite splitCamel_runTogether.
  - unfold formatHashtag. cbv zeta.
    destruct ws as [|w ws']; [reflexivity|].
    inversion Hws as [|? ? Hw _]; subst.
    destruct (isCapWord_inv w Hw) as (c & d & rest & E & Hc & _ & _).
    rewrite <- (splitCamel_runTogether (w :: ws') Hws).
    rewrite runTogether_cons. subst w.
    change (String c (String d rest) ++ runTogether ws')%string
      with (String c (String d rest ++ runTogether ws')%string).
    destruct (Ascii.eqb_spec c "#") as [->|Hne]; [discriminate Hc|].
    destruct c as [[] [] [] [] [] [] [] []]; try reflexivity.
    now contradiction Hne.
Qed.

Lemma formatHashtag_camel_case_witness :
  formatHashtag "#MachineLearning" = normalizeTopic "Machine Learning"
  /\ formatHashtag "MachineLearning" = normalizeTopic "Machine Learning".
Proof.
  apply (formatHashtag_camel_case ["Machine"; "Learning"]).
  repeat constructor.
Defined.

(** ** addTopic *)

Section AddTopicFacts.

Lemma discoveredTopics_addTopic now1 now2 topic core tm :
  discoveredTopics (snd (addTopic now1 now2 topic core tm))
  = match JsMap.get (normalizeTopic topic) (discoveredTopics tm) with
    | Some md =>
        if core && negb (isCore md)
        then JsMap.set (normalizeTopic topic)
               (mkMetadata true (interestLevel md) (discoveryDate md) (lastUpdated md)
                  (observationCount md) (mentionCount md) (relatedTopics md))
               (discoveredTopics tm)
        else discoveredTopics tm
    | None =>
        JsMap.set (normalizeTopic topic)
          (mkMetadata core (if core then 1 else 1 / 2)%R now1 now2 0 0 [])
          (discoveredTopics tm)
    end.
Proof.
  unfold addTopic. cbv zeta. destruct (JsMap.get _ _) as [md|].
  - now destruct (core && negb (isCore md)).
  - now destruct core.
Qed.

Lemma fst_addTopic now1 now2 topic core tm :
  fst (addTopic now1 now2 topic core tm) = normalizeTopic topic.
Proof.
  unfold addTopic. cbv zeta. destruct (JsMap.get _ _) as [md|]; [|reflexivity].
  now destruct (core && negb (isCore md)).
Qed.

Lemma get_addTopic_self now1 now2 topic core tm :
  JsMap.get (normalizeTopic topic)
    (discoveredTopics (snd (addTopic now1 now2 topic core tm)))
  = Some (match JsMap.get (normalizeTopic topic) (discoveredTopics tm) with
          | Some md =>
              mkMetadata (isCore md || core) (interestLevel md) (discoveryDate md)
                (lastUpdated md) (observationCount md) (mentionCount md)
                (relatedTopics md)
          | None => mkMetadata core (if core then 1 else 1 / 2)%R now1 now2 0 0 []
          end).
Proof.
  rewrite discoveredTopics_addTopic.
  destruct (JsMap.get (normalizeTopic topic) (discoveredTopics tm)) as [md|] eqn:E.
  - destruct (core && negb (isCore md)) eqn:Ec.
    + apply andb_prop in Ec as [-> Hnc]. apply negb_true_iff in Hnc.
      rewrite get_set_eq, Hnc. reflexivity.
    + rewrite E. f_equal. destruct md as [c i d l o m r].
      cbn in *. destruct c, core; try discriminate; reflexivity.
  - apply get_set_eq.
Qed.

Lemma get_addTopic_other now1 now2 topic core tm k :
  k <> normalizeTopic topic ->
  JsMap.get k (discoveredTopics (snd (addTopic now1 now2 topic core tm)))
  = JsMap.get k (discoveredTopics tm).
Proof.
  intros Hk. rewrite discoveredTopics_addTopic.
  destruct (JsMap.get (normalizeTopic topic) (discoveredTopics tm)) as [md|].
  - destruct (core && negb (isCore md)); [now apply get_set_ne | reflexivity].
  - now apply get_set_ne.
Qed.

Lemma addTopic_same_key now1 now2 now1' now2' topic topic' core core' tm :
  normalizeTopic topic' = normalizeTopic topic ->
  (core' = true -> core = true) ->
  addTopic now1' now2' topic' core' (snd (addTopic now1 now2 topic core tm))
  = (normalizeTopic topic, snd (addTopic now1 now2 topic core tm)).
Proof.
  intros Hkey Hcore.
  pose proof (get_addTopic_self now1 now2 topic core tm) as Hget.
  unfold addTopic at 1. cbv zeta. rewrite Hkey, Hget.
  replace (core' && negb _) with false; [reflexivity|].
  symmetry. destruct core'; [|reflexivity]. rewrite (Hcore eq_refl).
  destruct (JsMap.get (normalizeTopic topic) (discoveredTopics tm)) as [md|];
    cbn [isCore]; [now rewrite orb_true_r | reflexivity].
Qed.

End AddTopicFacts.

(** X3: [addTopic] returns the normalized key; afterwards the key is live: an
    existing record is kept as it was, but for the core flag, which is
    raised when asked and never lowered; a new record starts with both
    counters at 0, no related topic and the interest level 1 (core) or 0.5;
    the records of all other keys are untouched. *)
Theorem addTopic_registers (now1 now2 : Z) (topic : string) (core : bool)
    (tm : TopicManager) :
  fst (addTopic now1 now2 topic core tm) = normalizeTopic topic
  /\ JsMap.get (normalizeTopic topic)
       (discoveredTopics (snd (addTopic now1 now2 topic core tm)))
     = Some (match JsMap.get (normalizeTopic topic) (discoveredTopics tm) with
             | Some md =>
                 mkMetadata (isCore md || core) (interestLevel md) (discoveryDate md)
                   (lastUpdated md) (observationCount md) (mentionCount md)
                   (relatedTopics md)
             | None => mkMetadata core (if core then 1 else 1 / 2)%R now1 now2 0 0 []
             end)
  /\ forall k, k <> normalizeTopic topic ->
       JsMap.get k (discoveredTopics (snd (addTopic now1 now2 topic core tm)))
       = JsMap.get k (discoveredTopics tm).
Proof.
  split; [apply fst_addTopic|]. split; [apply get_addTopic_self|].
  intros k Hk. now apply get_addTopic_other.
Qed.

(** X4: adding a topic again, under any spelling with the same normalized
    key (another case, other white space) and asking for no more than the
    first time, changes nothing: no second record is made. *)
Theorem addTopic_again (now1 now2 now1' now2' : Z) (topic topic' : string)
    (core core' : bool) (tm : TopicManager) :
  normalizeTopic topic' = normalizeTopic topic ->
  (core' = true -> core = true) ->
  addTopic now1' now2' topic' core' (snd (addTopic now1 now2 topic core tm))
  = (normalizeTopic topic, snd (addTopic now1 now2 topic core tm)).
Proof. apply addTopic_same_key. Qed.

Lemma addTopic_again_witness :
  addTopic 5 6 " ai " false (snd (addTopic 0 0 "AI" true emptyManager))
  = (normalizeTopic "AI", snd (addTopic 0 0 "AI" true emptyManager)).
Proof.
  apply (addTopic_again 0 0 5 6 "AI" " ai " true false emptyManager).
  - reflexivity.
  - discriminate.
Defined.

(** ** What the operations leave of a record *)

Section Fields.

Context {A : Type} (f : TopicMetadata -> A).

Lemma field_set k md md' tm k' :
  JsMap.get k (discoveredTopics tm) = Some md -> f md' = f md ->
  field f (withTopics (JsMap.set k md') tm) k' = field f tm k'.
Proof.
  intros Hget Hf. unfold field. cbn [withTopics discoveredTopics].
  rewrite get_set. destruct (String.eqb_spec k' k) as [->|Hk]; [|reflexivity].
  rewrite Hget. cbn [option_map]. now rewrite Hf.
Qed.

Lemma field_updateInterestLevel now topic tm k :
  interestBlind f -> field f (updateInterestLevel now topic tm) k = field f tm k.
Proof.
  intros Hf. unfold updateInterestLevel.
  destruct (JsMap.get topic (discoveredTopics tm)) as [md|] eqn:E; [|reflexivity].
  apply (field_set _ md); [exact E|]. destruct md. apply Hf.
Qed.

Lemma field_incrementRelationship topic1 topic2 tm k :
  relatedBlind f -> field f (incrementRelationship topic1 topic2 tm) k = field f tm k.
Proof.
  intros Hf. unfold incrementRelationship. cbv zeta.
  cbn [withRelationships discoveredTopics].
  destruct (JsMap.get topic1 (discoveredTopics tm)) as [md|] eqn:E; [|reflexivity].
  destruct (negb _); [|reflexivity].
  rewrite (field_set topic1 md); [reflexivity | exact E |].
  destruct md. apply Hf.
Qed.

Lemma field_updateTopicRelationships topics tm k :
  relatedBlind f -> field f (updateTopicRelationships topics tm) k = field f tm k.
Proof.
  intros Hf. revert tm. induction topics as [|t rest IH]; intros tm; [reflexivity|].
  cbn [updateTopicRelationships]. rewrite IH.
  apply (fold_left_preserves (fun tm' => field f tm' k = field f tm k)); [|reflexivity].
  intros tm' t2 H. now rewrite !field_incrementRelationship.
Qed.

Lemma field_trackTopic_other clock unique tm topic k :
  relatedBlind f -> interestBlind f -> k <> topic ->
  field f (trackTopic clock unique tm topic) k = field f tm k.
Proof.
  intros Hr Hi Hk. unfold trackTopic. cbv zeta.
  rewrite field_updateTopicRelationships by exact Hr.
  destruct (JsMap.get topic (discoveredTopics tm)) as [md|]; [|reflexivity].
  rewrite field_updateInterestLevel by exact Hi.
  unfold field. cbn [withTopics discoveredTopics]. now rewrite get_set_ne.
Qed.

Lemma field_trackTopic_self clock unique tm topic :
  relatedBlind f -> interestBlind f ->
  field f (trackTopic clock unique tm topic) topic
  = option_map
      (fun md =>
         f (mkMetadata (isCore md) (interestLevel md) (discoveryDate md)
              (fst (clock topic)) (observationCount md + 1) (mentionCount md + 1)
              (relatedTopics md)))
      (JsMap.get topic (discoveredTopics tm)).
Proof.
  intros Hr Hi. unfold trackTopic. cbv zeta.
  rewrite field_updateTopicRelationships by exact Hr.
  destruct (JsMap.get topic (discoveredTopics tm)) as [md|] eqn:E;
    [|unfold field; now rewrite E].
  rewrite field_updateInterestLevel by exact Hi.
  unfold field. cbn [withTopics discoveredTopics]. now rewrite get_set_eq.
Qed.

Lemma field_updateTopicMetadata_other now1 now2 topic tm k :
  interestBlind f -> k <> topic ->
  field f (updateTopicMetadata now1 now2 topic tm) k = field f tm k.
Proof.
  intros Hi Hk. unfold updateTopicMetadata.
  destruct (JsMap.get topic (discoveredTopics tm)) as [md|]; [|reflexivity].
  rewrite field_updateInterestLevel by exact Hi.
  unfold field. cbn [withTopics discoveredTopics]. now rewrite get_set_ne.
Qed.

End Fields.

Lemma counters_relatedBlind : relatedBlind counters.
Proof. intros c i d l o m r r'. reflexivity. Qed.

Lemma counters_interestBlind : interestBlind counters.
Proof. intros c i i' d l o m r. reflexivity. Qed.

Lemma isCore_relatedBlind : relatedBlind isCore.
Proof. intros c i d l o m r r'. reflexivity. Qed.

Lemma isCore_interestBlind : interestBlind isCore.
Proof. intros c i i' d l o m r. reflexivity. Qed.

(** ** trackObservation and the counters *)

Lemma counters_trackLoop clock unique k : forall todo tm,
  List.NoDup todo ->
  field counters (fold_left (trackTopic clock unique) todo tm) k
  = option_map (bumpCounters (includes todo k)) (field counters tm k).
Proof.
  induction todo as [|t todo IH]; intros tm Hnd.
  - cbn [fold_left includes existsb]. now destruct (field counters tm k).
  - inversion Hnd as [|? ? Hnot Hrest]; subst. apply includes_false in Hnot.
    cbn [fold_left]. rewrite (IH _ Hrest). unfold includes in *. cbn [existsb].
    destruct (String.eqb_spec k t) as [->|Hk]; cbn [orb].
    + rewrite Hnot, (field_trackTopic_self counters clock unique tm t
                       counters_relatedBlind counters_interestBlind).
      unfold field. now destruct (JsMap.get t (discoveredTopics tm)).
    + now rewrite (field_trackTopic_other counters clock unique tm t k
                     counters_relatedBlind counters_interestBlind Hk).
Qed.

(** X5: one observation adds 1 to the observation count and to the mention
    count of every live topic among its canonical topics, once however many
    times the topic is named, leaves the counters of every other topic as
    they were, and neither creates nor removes a record. *)
Theorem trackObservation_counters (clock : string -> Z * Z) (topics : list string)
    (tm : TopicManager) (k : string) :
  field counters (trackObservation clock topics tm) k
  = option_map (bumpCounters (includes (map (getCanonicalTopic tm) topics) k))
      (field counters tm k).
Proof.
  unfold trackObservation. cbv zeta.
  rewrite counters_trackLoop by apply ofList_NoDup.
  replace (includes (JsSet.ofList (map (getCanonicalTopic tm) topics)) k)
    with (includes (map (getCanonicalTopic tm) topics) k); [reflexivity|].
  destruct (includes (map (getCanonicalTopic tm) topics) k) eqn:E.
  - symmetry. apply includes_In, ofList_In, includes_In, E.
  - symmetry. apply includes_false. rewrite ofList_In. now apply includes_false.
Qed.

(** ** The core-topic set *)

Section CoreTopics.

Lemma coreTopics_updateInterestLevel now topic tm :
  coreTopics (updateInterestLevel now topic tm) = coreTopics tm.
Proof. unfold updateInterestLevel. now destruct (JsMap.get _ _). Qed.

Lemma coreTopics_updateTopicMetadata now1 now2 topic tm :
  coreTopics (updateTopicMetadata now1 now2 topic tm) = coreTopics tm.
Proof.
  unfold updateTopicMetadata. destruct (JsMap.get _ _); [|reflexivity].
  now rewrite coreTopics_updateInterestLevel.
Qed.

Lemma coreTopics_incrementRelationship topic1 topic2 tm :
  coreTopics (incrementRelationship topic1 topic2 tm) = coreTopics tm.
Proof.
  unfold incrementRelationship. cbv zeta.
  destruct (JsMap.get topic1 (discoveredTopics _)) as [md|]; [|reflexivity].
  now destruct (negb _).
Qed.

Lemma coreTopics_updateTopicRelationships topics tm :
  coreTopics (updateTopicRelationships topics tm) = coreTopics tm.
Proof.
  revert tm. induction topics as [|t rest IH]; intros tm; [reflexivity|].
  cbn [updateTopicRelationships]. rewrite IH.
  apply (fold_left_preserves (fun tm' => coreTopics tm' = coreTopics tm)); [|reflexivity].
  intros tm' t2 H. now rewrite !coreTopics_incrementRelationship.
Qed.

Lemma coreTopics_trackTopic clock unique tm topic :
  coreTopics (trackTopic clock unique tm topic) = coreTopics tm.
Proof.
  unfold trackTopic. cbv zeta. rewrite coreTopics_updateTopicRelationships.
  destruct (JsMap.get _ _); [|reflexivity].
  now rewrite coreTopics_updateInterestLevel.
Qed.

Lemma coreTopics_addTopic now1 now2 topic core tm :
  coreTopics (snd (addTopic now1 now2 topic core tm))
  = match JsMap.get (normalizeTopic topic) (discoveredTopics tm) with
    | Some md =>
        if core && negb (isCore md) then {[normalizeTopic topic]} ∪ coreTopics tm
        else coreTopics tm
    | None => if core then {[normalizeTopic topic]} ∪ coreTopics tm else coreTopics tm
    end.
Proof.
  unfold addTopic. cbv zeta. destruct (JsMap.get _ _) as [md|].
  - now destruct (core && negb (isCore md)).
  - now destruct core.
Qed.

Lemma coreConsistent_field tm :
  coreConsistent tm <-> forall k, k ∈ coreTopics tm <-> field isCore tm k = Some true.
Proof.
  unfold coreConsistent, field. split; intros H k; rewrite (H k).
  - destruct (JsMap.get k (discoveredTopics tm)) as [md|]; cbn [option_map].
    + split; [intros (md' & [= <-] & ->); reflexivity | intros [= E]; now exists md].
    + split; [intros (md' & [=] & _) | discriminate].
  - destruct (JsMap.get k (discoveredTopics tm)) as [md|]; cbn [option_map].
    + split; [intros [= E]; now exists md | intros (md' & [= <-] & ->); reflexivity].
    + split; [discriminate | intros (md' & [=] & _)].
Qed.

Lemma coreConsistent_frame tm tm' :
  coreTopics tm' = coreTopics tm ->
  (forall k, field isCore tm' k = field isCore tm k) ->
  coreConsistent tm -> coreConsistent tm'.
Proof.
  intros Hc Hf H. apply coreConsistent_field. intros k.
  rewrite Hc, Hf. now apply coreConsistent_field.
Qed.

Lemma coreConsistent_addTopic now1 now2 topic core tm :
  coreConsistent tm -> coreConsistent (snd (addTopic now1 now2 topic core tm)).
Proof.
  intros H. apply coreConsistent_field. intros k.
  pose proof (proj1 (coreConsistent_field tm) H k) as Hk.
  pose proof (proj1 (coreConsistent_field tm) H (normalizeTopic topic)) as Hkey.
  unfold field in *. rewrite coreTopics_addTopic, discoveredTopics_addTopic.
  destruct (JsMap.get (normalizeTopic topic) (discoveredTopics tm)) as [md|] eqn:E.
  - destruct (core && negb (isCore md)); [|exact Hk].
    rewrite get_set, elem_of_union, elem_of_singleton.
    destruct (String.eqb_spec k (normalizeTopic topic)) as [->|Hne].
    + cbn [option_map isCore]. tauto.
    + rewrite Hk. tauto.
  - rewrite get_set. destruct core.
    + rewrite elem_of_union, elem_of_singleton.
      destruct (String.eqb_spec k (normalizeTopic topic)) as [->|Hne].
      * cbn [option_map isCore]. tauto.
      * rewrite Hk. tauto.
    + destruct (String.eqb_spec k (normalizeTopic topic)) as [->|Hne]; [|exact Hk].
      cbn [option_map isCore] in *. rewrite Hkey.
      split; discriminate.
Qed.

Lemma coreConsistent_trackObservation clock topics tm :
  coreConsistent tm -> coreConsistent (trackObservation clock topics tm).
Proof.
  unfold trackObservation. cbv zeta.
  apply (fold_left_preserves coreConsistent). intros tm' t H.
  apply (coreConsistent_frame tm'); [apply coreTopics_trackTopic | | exact H].
  intros k. destruct (String.eqb_spec k t) as [->|Hk].
  - rewrite (field_trackTopic_self isCore _ _ _ _ isCore_relatedBlind isCore_interestBlind).
    unfold field. now destruct (JsMap.get t (discoveredTopics tm')).
  - now apply field_trackTopic_other;
      [apply isCore_relatedBlind | apply isCore_interestBlind |].
Qed.

Lemma coreConsistent_updateTopicMetadata now1 now2 topic tm :
  coreConsistent tm -> coreConsistent (updateTopicMetadata now1 now2 topic tm).
Proof.
  apply coreConsistent_frame; [apply coreTopics_updateTopicMetadata|].
  intros k. destruct (String.eqb_spec k topic) as [->|Hk].
  - unfold updateTopicMetadata.
    destruct (JsMap.get topic (discoveredTopics tm)) as [md|] eqn:E; [|reflexivity].
    rewrite field_updateInterestLevel by apply isCore_interestBlind.
    unfold field. cbn [withTopics discoveredTopics]. now rewrite get_set_eq, E.
  - now apply field_updateTopicMetadata_other; [apply isCore_interestBlind|].
Qed.

Lemma coreConsistent_discoverTopic viaLLM acc extracted :
  coreConsistent (snd acc) ->
  coreConsistent (snd (discoverTopic viaLLM acc extracted)).
Proof.
  intros H. unfold discoverTopic. cbv zeta.
  destruct (String.eqb (normalizeTopic (fst extracted)) ""); [exact H|].
  destruct (findSimilarTopic _ _ _ _) as [similar|]; cbn [snd];
    [|now apply coreConsistent_addTopic].
  destruct (String.eqb similar ""); cbn [snd]; [now apply coreConsistent_addTopic|].
  apply coreConsistent_updateTopicMetadata. now destruct (negb _).
Qed.

Lemma coreConsistent_mergeTopic source target tm :
  coreConsistent tm -> coreConsistent (snd (mergeTopic source target tm)).
Proof.
  intros H. unfold mergeTopic.
  destruct (String.eqb_spec (getCanonicalTopic tm source) (getCanonicalTopic tm target))
    as [E|Hne]; [exact H|].
  destruct (JsMap.get (getCanonicalTopic tm source) (discoveredTopics tm))
    as [ms|] eqn:Es; [|exact H].
  destruct (JsMap.get (getCanonicalTopic tm target) (discoveredTopics tm))
    as [mt|] eqn:Et; [|exact H].
  cbn [snd]. apply coreConsistent_field. intros k.
  pose proof (proj1 (coreConsistent_field tm) H k) as Hk.
  pose proof (proj1 (coreConsistent_field tm) H (getCanonicalTopic tm target)) as Ht.
  unfold field in *. cbn [coreTopics discoveredTopics].
  rewrite Et in Ht. cbn [option_map] in Ht.
  rewrite get_delete, get_set, elem_of_difference, not_elem_of_singleton.
  destruct (String.eqb_spec k (getCanonicalTopic tm source)) as [->|Hks].
  - split; [tauto | discriminate].
  - destruct (String.eqb_spec k (getCanonicalTopic tm target)) as [->|Hkt].
    + cbn [option_map mergeMetadata isCore].
      destruct (isCore ms).
      * rewrite elem_of_union, elem_of_singleton. tauto.
      * rewrite Ht. tauto.
    + destruct (isCore ms).
      * rewrite elem_of_union, elem_of_singleton, Hk. tauto.
      * rewrite Hk. tauto.
Qed.

End CoreTopics.

(** X6: in every reachable state, the set [getCoreTopics] reads holds exactly
    the live topics whose record is flagged as core: a promotion by
    [addTopic] and the hand-over of a merge keep the two in step. *)
Theorem coreTopics_consistent (tm : TopicManager) :
  reachable tm -> coreConsistent tm.
Proof.
  induction 1 as [ | ? ? ? ? tm _ IH | viaLLM extracted tm _ IH
                 | ? ? tm _ IH | ? ? tm _ IH ].
  - intros k. split; [intros Hk; now apply not_elem_of_empty in Hk|].
    intros (md & Hget & _). discriminate Hget.
  - now apply coreConsistent_addTopic.
  - unfold discoverTopicsFromText.
    apply (fold_left_preserves (fun acc => coreConsistent (snd acc))); [|exact IH].
    intros acc e. apply coreConsistent_discoverTopic.
  - now apply coreConsistent_trackObservation.
  - now apply coreConsistent_mergeTopic.
Qed.

Lemma coreTopics_consistent_witness :
  coreConsistent (snd (mergeTopic "ai" "ml"
    (snd (addTopic 0 0 "ml" false (snd (addTopic 0 0 "AI" true emptyManager)))))).
Proof.
  apply (coreTopics_consistent _).
  apply reach_mergeTopic. do 2 apply reach_addTopic. exact reach_empty.
Defined.

(** A refused merge returns the manager it was given. *)
Lemma mergeTopic_false_inv source target tm :
  fst (mergeTopic source target tm) = true
  \/ fst (mergeTopic source target tm) = false
     /\ snd (mergeTopic source target tm) = tm.
Proof.
  unfold mergeTopic. destruct (String.eqb _ _); [now right|].
  destruct (JsMap.get _ _); [|now right]. destruct (JsMap.get _ _); [now left | now right].
Qed.

(** ** The topic map keeps its keys distinct *)

Section TopicsWf.

Lemma wf_updateInterestLevel now topic tm :
  JsMap.wf (discoveredTopics tm) ->
  JsMap.wf (discoveredTopics (updateInterestLevel now topic tm)).
Proof.
  intros H. unfold updateInterestLevel. destruct (JsMap.get _ _); [|exact H].
  now apply wf_set.
Qed.

Lemma wf_updateTopicMetadata now1 now2 topic tm :
  JsMap.wf (discoveredTopics tm) ->
  JsMap.wf (discoveredTopics (updateTopicMetadata now1 now2 topic tm)).
Proof.
  intros H. unfold updateTopicMetadata. destruct (JsMap.get _ _); [|exact H].
  apply wf_updateInterestLevel. now apply wf_set.
Qed.

Lemma wf_incrementRelationship topic1 topic2 tm :
  JsMap.wf (discoveredTopics tm) ->
  JsMap.wf (discoveredTopics (incrementRelationship topic1 topic2 tm)).
Proof.
  intros H. unfold incrementRelationship. cbv zeta.
  cbn [withRelationships discoveredTopics].
  destruct (JsMap.get topic1 (discoveredTopics tm)); [|exact H].
  destruct (negb _); [|exact H]. now apply wf_set.
Qed.

Lemma wf_updateTopicRelationships topics : forall tm,
  JsMap.wf (discoveredTopics tm) ->
  JsMap.wf (discoveredTopics (updateTopicRelationships topics tm)).
Proof.
  induction topics as [|t rest IH]; intros tm H; [exact H|].
  cbn [updateTopicRelationships]. apply IH.
  apply (fold_left_preserves (fun tm' => JsMap.wf (discoveredTopics tm'))); [|exact H].
  intros tm' t2 H'. now apply wf_incrementRelationship, wf_incrementRelationship.
Qed.

Lemma wf_trackObservation clock topics tm :
  JsMap.wf (discoveredTopics tm) ->
  JsMap.wf (discoveredTopics (trackObservation clock topics tm)).
Proof.
  unfold trackObservation. cbv zeta.
  apply (fold_left_preserves (fun tm' => JsMap.wf (discoveredTopics tm'))).
  intros tm' t H. unfold trackTopic. cbv zeta. apply wf_updateTopicRelationships.
  destruct (JsMap.get t (discoveredTopics tm')); [|exact H].
  apply wf_updateInterestLevel. now apply wf_set.
Qed.

Lemma wf_addTopic now1 now2 topic core tm :
  JsMap.wf (discoveredTopics tm) ->
  JsMap.wf (discoveredTopics (snd (addTopic now1 now2 topic core tm))).
Proof.
  intros H. rewrite discoveredTopics_addTopic.
  destruct (JsMap.get _ _) as [md|]; [|now apply wf_set].
  destruct (core && negb (isCore md)); [now apply wf_set | exact H].
Qed.

Lemma wf_discoverTopic viaLLM acc extracted :
  JsMap.wf (discoveredTopics (snd acc)) ->
  JsMap.wf (discoveredTopics (snd (discoverTopic viaLLM acc extracted))).
Proof.
  intros H. unfold discoverTopic. cbv zeta.
  destruct (String.eqb (normalizeTopic (fst extracted)) ""); [exact H|].
  destruct (findSimilarTopic _ _ _ _) as [similar|]; cbn [snd];
    [|now apply wf_addTopic].
  destruct (String.eqb similar ""); cbn [snd]; [now apply wf_addTopic|].
  apply wf_updateTopicMetadata. now destruct (negb _).
Qed.

Lemma discoveredTopics_mergeTopic source target tm :
  fst (mergeTopic source target tm) = true ->
  exists ms mt,
    JsMap.get (getCanonicalTopic tm source) (discoveredTopics tm) = Some ms
    /\ JsMap.get (getCanonicalTopic tm target) (discoveredTopics tm) = Some mt
    /\ discoveredTopics (snd (mergeTopic source target tm))
       = JsMap.delete (getCanonicalTopic tm source)
           (JsMap.set (getCanonicalTopic tm target)
              (mergeMetadata (getCanonicalTopic tm target) ms mt) (discoveredTopics tm)).
Proof.
  unfold mergeTopic. destruct (String.eqb _ _); [discriminate|].
  destruct (JsMap.get (getCanonicalTopic tm source) (discoveredTopics tm)) as [ms|];
    [|discriminate].
  destruct (JsMap.get (getCanonicalTopic tm target) (discoveredTopics tm)) as [mt|];
    [|discriminate].
  intros _. now exists ms, mt.
Qed.

Lemma wf_mergeTopic source target tm :
  JsMap.wf (discoveredTopics tm) ->
  JsMap.wf (discoveredTopics (snd (mergeTopic source target tm))).
Proof.
  intros H. destruct (fst (mergeTopic source target tm)) eqn:E.
  - destruct (discoveredTopics_mergeTopic _ _ _ E) as (ms & mt & _ & _ & ->).
    now apply wf_delete, wf_set.
  - destruct (mergeTopic_false_inv source target tm) as [Ht|[_ ->]];
      [congruence | exact H].
Qed.

(** In every reachable state the keys of the topic map are pairwise
    distinct, as the keys of a [Map] are. *)
Lemma reachable_wf tm : reachable tm -> JsMap.wf (discoveredTopics tm).
Proof.
  induction 1 as [ | ? ? ? ? tm _ IH | viaLLM extracted tm _ IH
                 | ? ? tm _ IH | ? ? tm _ IH ].
  - apply List.NoDup_nil.
  - now apply wf_addTopic.
  - unfold discoverTopicsFromText.
    apply (fold_left_preserves (fun acc => JsMap.wf (discoveredTopics (snd acc))));
      [|exact IH].
    intros acc e. apply wf_discoverTopic.
  - now apply wf_trackObservation.
  - now apply wf_mergeTopic.
Qed.

End TopicsWf.

(** ** More on a successful merge *)

Section MergeFacts.

Lemma keys_delete {V} k (m : list (string * V)) :
  JsMap.keys (JsMap.delete k m)
  = List.filter (fun k' => negb (String.eqb k k')) (JsMap.keys m).
Proof.
  unfold JsMap.keys, JsMap.delete.
  induction m as [|[k0 v0] m IH]; [reflexivity|].
  cbn [List.filter map fst]. destruct (negb (String.eqb k k0)); cbn [map fst];
    now rewrite IH.
Qed.

Lemma keys_set_present {V} k (v v' : V) m :
  JsMap.get k m = Some v' -> JsMap.keys (JsMap.set k v m) = JsMap.keys m.
Proof. intros H. rewrite keys_set. unfold JsMap.has. now rewrite H. Qed.

Lemma length_remove_key k (l : list string) :
  List.NoDup l -> In k l ->
  (List.length (List.filter (fun k' => negb (String.eqb k k')) l) + 1
   = List.length l)%nat.
Proof.
  induction 1 as [|x l Hnot Hnd IH]; intros Hin; [destruct Hin|].
  cbn [List.filter]. destruct (String.eqb_spec k x) as [->|Hk]; cbn [negb List.length].
  - replace (List.filter (fun k' => negb (String.eqb x k')) l) with l; [lia|].
    symmetry. apply forallb_filter_id. apply forallb_forall. intros y Hy.
    apply negb_true_iff, String.eqb_neq. intros ->. contradiction.
  - destruct Hin as [->|Hin]; [contradiction|]. specialize (IH Hin). lia.
Qed.

Lemma orString_cases (x : option string) (y : string) :
  orString x y = y \/ (exists v, x = Some v /\ orString x y = v).
Proof.
  destruct x as [v|]; [|now left]. cbn [orString].
  destruct (String.eqb v ""); [now left | right; now exists v].
Qed.

Lemma mergeTopic_true_keys source target tm :
  fst (mergeTopic source target tm) = true ->
  JsMap.keys (discoveredTopics (snd (mergeTopic source target tm)))
  = List.filter (fun k => negb (String.eqb (getCanonicalTopic tm source) k))
      (JsMap.keys (discoveredTopics tm)).
Proof.
  intros Ht.
  destruct (discoveredTopics_mergeTopic _ _ _ Ht) as (ms & mt & Hs & Htg & E).
  rewrite E, keys_delete. now rewrite (keys_set_present _ _ mt).
Qed.

Lemma mergeTopic_true_size source target tm :
  JsMap.wf (discoveredTopics tm) ->
  fst (mergeTopic source target tm) = true ->
  (JsMap.size (discoveredTopics (snd (mergeTopic source target tm))) + 1
   = JsMap.size (discoveredTopics tm))%nat.
Proof.
  intros Hwf Ht.
  destruct (discoveredTopics_mergeTopic _ _ _ Ht) as (ms & mt & Hs & Htg & E).
  unfold JsMap.size.
  rewrite <- (length_map fst (discoveredTopics (snd (mergeTopic source target tm)))).
  rewrite <- (length_map fst (discoveredTopics tm)).
  fold (JsMap.keys (discoveredTopics tm)).
  fold (JsMap.keys (discoveredTopics (snd (mergeTopic source target tm)))).
  rewrite (mergeTopic_true_keys _ _ _ Ht). apply length_remove_key; [exact Hwf|].
  apply get_In in Hs. now apply (in_map fst) in Hs.
Qed.

Lemma mergeTopic_true_intro source target tm ms mt :
  getCanonicalTopic tm source <> getCanonicalTopic tm target ->
  JsMap.get (getCanonicalTopic tm source) (discoveredTopics tm) = Some ms ->
  JsMap.get (getCanonicalTopic tm target) (discoveredTopics tm) = Some mt ->
  fst (mergeTopic source target tm) = true.
Proof.
  intros Hne Hs Ht. unfold mergeTopic. cbv zeta.
  apply String.eqb_neq in Hne. now rewrite Hne, Hs, Ht.
Qed.

End MergeFacts.

(** X7: in a reachable state, a successful merge removes from the live keys
    exactly the canonical key of the source, keeps the others in their
    order, and so leaves one topic fewer. *)
Theorem mergeTopic_removes_source (source target : string) (tm : TopicManager) :
  reachable tm ->
  fst (mergeTopic source target tm) = true ->
  JsMap.keys (discoveredTopics (snd (mergeTopic source target tm)))
  = List.filter (fun k => negb (String.eqb (getCanonicalTopic tm source) k))
      (JsMap.keys (discoveredTopics tm))
  /\ (JsMap.size (discoveredTopics (snd (mergeTopic source target tm))) + 1
      = JsMap.size (discoveredTopics tm))%nat.
Proof.
  intros Hr Ht. split; [now apply mergeTopic_true_keys|].
  apply mergeTopic_true_size; [now apply reachable_wf | exact Ht].
Qed.

Lemma mergeTopic_removes_source_witness :
  JsMap.keys (discoveredTopics (snd (mergeTopic "cats" "dogs" petsManager))) = ["dogs"].
Proof.
  refine (proj1 (mergeTopic_removes_source "cats" "dogs" petsManager _ _)).
  - unfold petsManager. apply reach_trackObservation.
    do 2 apply reach_addTopic. exact reach_empty.
  - reflexivity.
Defined.

(** X8: a successful merge stores for the target a record that is core when
    either was, counts the observations of both, has the higher interest
    level of the two, keeps the dates of the target, and relates to the
    topics either related to, each once, without the target itself. *)
Theorem mergeTopic_folds_metadata (source target : string) (tm : TopicManager)
    (ms mt : TopicMetadata) :
  fst (mergeTopic source target tm) = true ->
  JsMap.get (getCanonicalTopic tm source) (discoveredTopics tm) = Some ms ->
  JsMap.get (getCanonicalTopic tm target) (discoveredTopics tm) = Some mt ->
  exists m',
    JsMap.get (getCanonicalTopic tm target)
      (discoveredTopics (snd (mergeTopic source target tm))) = Some m'
    /\ isCore m' = isCore ms || isCore mt
    /\ observationCount m' = (observationCount ms + observationCount mt)%Z
    /\ interestLevel m' = Rmax (interestLevel mt) (interestLevel ms)
    /\ discoveryDate m' = discoveryDate mt
    /\ lastUpdated m' = lastUpdated mt
    /\ List.NoDup (relatedTopics m')
    /\ forall r, In r (relatedTopics m')
                 <-> r <> getCanonicalTopic tm target
                     /\ (In r (relatedTopics mt) \/ In r (relatedTopics ms)).
Proof.
  intros Ht Hs Htg.
  destruct (discoveredTopics_mergeTopic _ _ _ Ht) as (ms' & mt' & Hs' & Htg' & E).
  rewrite Hs in Hs'. rewrite Htg in Htg'. injection Hs' as <-. injection Htg' as <-.
  exists (mergeMetadata (getCanonicalTopic tm target) ms mt).
  split.
  { rewrite E, get_delete_ne, get_set_eq; [reflexivity|].
    apply not_eq_sym. now apply mergeTopic_true_distinct. }
  cbn [mergeMetadata isCore observationCount interestLevel discoveryDate lastUpdated
         relatedTopics].
  split; [now destruct (isCore ms)|]. split; [lia|].
  split; [reflexivity|]. split; [reflexivity|]. split; [reflexivity|].
  split; [apply List.NoDup_filter, ofList_NoDup|].
  intros r. rewrite filter_In, ofList_In, in_app_iff, negb_true_iff, String.eqb_neq.
  tauto.
Qed.

Lemma mergeTopic_folds_metadata_witness :
  exists m',
    JsMap.get "ml"
      (discoveredTopics (snd (mergeTopic "ai" "ml"
         (snd (addTopic 0 0 "ml" false (snd (addTopic 0 0 "AI" true emptyManager)))))))
    = Some m'
    /\ isCore m' = true.
Proof.
  destruct (mergeTopic_folds_metadata "ai" "ml"
              (snd (addTopic 0 0 "ml" false (snd (addTopic 0 0 "AI" true emptyManager))))
              (mkMetadata true 1 0 0 0 0 []) (mkMetadata false (1 / 2) 0 0 0 0 [])
              eq_refl eq_refl eq_refl)
    as (m' & Hget & Hcore & _).
  exists m'. split; [exact Hget | exact Hcore].
Defined.

(** X9: after a successful merge both names are still known to [hasTopic]:
    the source through the synonym table, the target as a live topic or
    through the synonym that led to it. *)
Theorem mergeTopic_keeps_names_known (source target : string) (tm : TopicManager) :
  fst (mergeTopic source target tm) = true ->
  hasTopic (snd (mergeTopic source target tm)) source = true
  /\ hasTopic (snd (mergeTopic source target tm)) target = true.
Proof.
  intros Ht.
  destruct (discoveredTopics_mergeTopic _ _ _ Ht) as (ms & mt & Hs & Htg & E).
  pose proof (mergeTopic_true_distinct _ _ _ Ht) as Hne.
  unfold hasTopic. cbv zeta. rewrite synonyms_mergeTopic, Ht, E. split.
  - apply orb_true_iff. right. apply bool_decide_eq_true.
    destruct (decide (getCanonicalTopic tm source = normalizeTopic source)) as [Ec|Ec].
    + rewrite <- Ec, lookup_insert_eq. now eexists.
    + rewrite lookup_insert_ne by exact Ec.
      destruct (orString_cases (synonyms tm !! normalizeTopic source)
                  (normalizeTopic source)) as [H|(v & Hv & _)].
      * now contradiction Ec.
      * rewrite Hv. now eexists.
  - apply orb_true_iff.
    destruct (orString_cases (synonyms tm !! normalizeTopic target)
                (normalizeTopic target)) as [H|(v & Hv & _)].
    + left. unfold getCanonicalTopic in Htg, Hne |- * at 2. rewrite H in *.
      unfold JsMap.has. rewrite get_delete_ne by (now apply not_eq_sym).
      unfold getCanonicalTopic at 1. rewrite H. now rewrite get_set_eq.
    + right. apply bool_decide_eq_true.
      destruct (decide (getCanonicalTopic tm source = normalizeTopic target)) as [Ec|Ec].
      * rewrite <- Ec, lookup_insert_eq. now eexists.
      * rewrite lookup_insert_ne by exact Ec. rewrite Hv. now eexists.
Qed.

Lemma mergeTopic_keeps_names_known_witness :
  hasTopic (snd (mergeTopic "cats" "dogs" petsManager)) "cats" = true
  /\ hasTopic (snd (mergeTopic "cats" "dogs" petsManager)) "dogs" = true.
Proof.
  apply (mergeTopic_keeps_names_known "cats" "dogs" petsManager). reflexivity.
Defined.

(** ** Recording a mention *)

(** X10: [updateTopicMetadata] on a key with no live record changes nothing;
    on a live key it adds 1 to the mention count, stores the first clock
    reading as the last update and the interest level recomputed at the
    second reading from that last update ([0.6 * recency + 0.4 * frequency],
    or [max(0.7, 0.3 * recency + 0.7 * frequency)] for a core topic, with
    [recency = exp(-0.1 * days)] and [frequency = min(1, observations / 10)]),
    keeps the core flag, the observation count, the discovery date and the
    related topics, and leaves every other record, the graph, the synonyms
    and the core set alone. *)
Theorem updateTopicMetadata_records_mention (now1 now2 : Z) (topic : string)
    (tm : TopicManager) :
  (JsMap.get topic (discoveredTopics tm) = None ->
     updateTopicMetadata now1 now2 topic tm = tm)
  /\ (forall md, JsMap.get topic (discoveredTopics tm) = Some md ->
        JsMap.get topic (discoveredTopics (updateTopicMetadata now1 now2 topic tm))
        = Some (mkMetadata (isCore md)
                  (let recency :=
                     exp (- (1 / 10) * (IZR (now2 - now1) / (1000 * 60 * 60 * 24))) in
                   let frequency := Rmin 1 (IZR (observationCount md) / 10) in
                   if isCore md
                   then Rmax (7 / 10) (3 / 10 * recency + 7 / 10 * frequency)
                   else 6 / 10 * recency + 4 / 10 * frequency)%R
                  (discoveryDate md) now1
                  (observationCount md) (mentionCount md + 1) (relatedTopics md)))
  /\ (forall k, k <> topic ->
        JsMap.get k (discoveredTopics (updateTopicMetadata now1 now2 topic tm))
        = JsMap.get k (discoveredTopics tm))
  /\ topicRelationships (updateTopicMetadata now1 now2 topic tm) = topicRelationships tm
  /\ synonyms (updateTopicMetadata now1 now2 topic tm) = synonyms tm
  /\ coreTopics (updateTopicMetadata now1 now2 topic tm) = coreTopics tm.
Proof.
  split; [|split; [|split; [|split; [|split]]]].
  - intros H. unfold updateTopicMetadata. now rewrite H.
  - intros md H. unfold updateTopicMetadata, updateInterestLevel. rewrite H.
    cbn [withTopics discoveredTopics]. rewrite get_set_eq.
    cbn [withTopics discoveredTopics]. rewrite get_set_eq.
    reflexivity.
  - intros k Hk. unfold updateTopicMetadata, updateInterestLevel.
    destruct (JsMap.get topic (discoveredTopics tm)); [|reflexivity].
    cbn [withTopics discoveredTopics]. rewrite get_set_eq.
    cbn [withTopics discoveredTopics]. now rewrite !get_set_ne.
  - apply topicRelationships_updateTopicMetadata.
  - apply synonyms_updateTopicMetadata.
  - apply coreTopics_updateTopicMetadata.
Qed.

(** An unknown key, and the topic ["dogs"] mentioned one day after it was
    added. *)
Lemma updateTopicMetadata_records_mention_witness :
  updateTopicMetadata 5 6 "unknown" dogsManager = dogsManager
  /\ exists md',
       JsMap.get "dogs"
         (discoveredTopics (updateTopicMetadata 86400000 86400001 "dogs" dogsManager))
       = Some md'
       /\ mentionCount md' = 1%Z /\ lastUpdated md' = 86400000%Z
       /\ interestLevel md'
          = (6 / 10 * exp (- (1 / 10) * (IZR (86400001 - 86400000) / (1000 * 60 * 60 * 24)))
             + 4 / 10 * Rmin 1 (IZR 0 / 10))%R.
Proof.
  split.
  - apply (proj1 (updateTopicMetadata_records_mention 5 6 "unknown" dogsManager)).
    reflexivity.
  - eexists. split.
    + apply (proj1 (proj2 (updateTopicMetadata_records_mention
                             86400000 86400001 "dogs" dogsManager))
               (mkMetadata false (1 / 2) 0 0 0 0 [])).
      reflexivity.
    + repeat split.
Defined.

(** ** The range of the interest level *)

Section InterestRange.

Local Open Scope R_scope.

Lemma exp_nonpos_le_1 x : x <= 0 -> exp x <= 1.
Proof.
  intros [Hlt| ->]; [|rewrite exp_0; lra].
  left. rewrite <- exp_0. now apply exp_increasing.
Qed.

Lemma recencyFactor_range now md :
  (lastUpdated md <= now)%Z -> 0 < recencyFactor now md <= 1.
Proof.
  intros H. unfold recencyFactor. cbv zeta. split; [apply exp_pos|].
  apply exp_nonpos_le_1.
  assert (Hd : 0 <= IZR (now - lastUpdated md)) by (apply IZR_le; lia).
  unfold msPerDay.
  assert (0 <= IZR (now - lastUpdated md) / (1000 * 60 * 60 * 24)).
  { apply Rmult_le_pos; [exact Hd|]. left. apply Rinv_0_lt_compat. lra. }
  lra.
Qed.

Lemma frequencyFactor_range md :
  (0 <= observationCount md)%Z -> 0 <= frequencyFactor md <= 1.
Proof.
  intros H. unfold frequencyFactor. split; [|apply Rmin_l].
  apply Rmin_glb; [lra|].
  assert (0 <= IZR (observationCount md)) by (apply IZR_le; lia). lra.
Qed.

Lemma interestScore_range now md :
  (lastUpdated md <= now)%Z -> (0 <= observationCount md)%Z ->
  0 <= interestScore now md <= 1.
Proof.
  intros Hl Ho. pose proof (recencyFactor_range now md Hl) as Hr.
  pose proof (frequencyFactor_range md Ho) as Hf.
  unfold interestScore. destruct (isCore md); [|lra].
  split.
  - apply Rle_trans with (7 / 10); [lra | apply Rmax_l].
  - apply Rmax_lub; lra.
Qed.

End InterestRange.

(** X11: when the clock has not gone back since the last update and the
    observation count is not negative, the interest level that
    [updateInterestLevel] stores lies between 0 and 1, for a core topic and
    for any other. *)
Theorem updateInterestLevel_range (now : Z) (topic : string) (tm : TopicManager)
    (md : TopicMetadata) :
  JsMap.get topic (discoveredTopics tm) = Some md ->
  (lastUpdated md <= now)%Z ->
  (0 <= observationCount md)%Z ->
  exists md',
    JsMap.get topic (discoveredTopics (updateInterestLevel now topic tm)) = Some md'
    /\ (0 <= interestLevel md' <= 1)%R.
Proof.
  intros Hget Hl Ho. unfold updateInterestLevel. rewrite Hget.
  eexists. split; [cbn [withTopics discoveredTopics]; apply get_set_eq|].
  cbn [setInterest interestLevel]. now apply interestScore_range.
Qed.

Lemma updateInterestLevel_range_witness :
  exists md',
    JsMap.get "dogs" (discoveredTopics (updateInterestLevel 86400000 "dogs" dogsManager))
    = Some md'
    /\ (0 <= interestLevel md' <= 1)%R.
Proof.
  apply (updateInterestLevel_range 86400000 "dogs" dogsManager
           (mkMetadata false (1 / 2) 0 0 0 0 [])).
  - reflexivity.
  - vm_compute. discriminate.
  - vm_compute. discriminate.
Defined.

(** ** Sorting *)

Section Sorting.

Context {A C : Type} (before : A -> A -> bool) (sameClass : C -> A -> bool).

(** [before] is the strict part of a total preorder, and entries of one
    class do not come before one another. *)
Hypothesis before_asym : forall a b, before a b = true -> before b a = false.
Hypothesis not_before_trans :
  forall a b c, before b a = false -> before c b = false -> before c a = false.
Hypothesis class_not_before :
  forall c a b, sameClass c a = true -> before b a = true -> sameClass c b = false.

Lemma insertBy_perm e l : Permutation (insertBy before e l) (e :: l).
Proof.
  induction l as [|e' l IH]; [reflexivity|].
  cbn [insertBy]. destruct (before e' e); [|reflexivity].
  rewrite IH. apply perm_swap.
Qed.

Lemma sortBy_perm l : Permutation (sortBy before l) l.
Proof.
  induction l as [|e l IH]; [reflexivity|].
  cbn [sortBy fold_right]. fold (sortBy before l).
  rewrite insertBy_perm. now constructor.
Qed.

Lemma insertBy_sorted e l :
  StronglySorted (fun a b => before b a = false) l ->
  StronglySorted (fun a b => before b a = false) (insertBy before e l).
Proof using before_asym not_before_trans.
  induction 1 as [|e' l Hl IH Hall]; [repeat constructor|].
  cbn [insertBy]. destruct (before e' e) eqn:E.
  - constructor; [exact IH|].
    apply List.Forall_forall. intros x Hx.
    apply (Permutation_in _ (insertBy_perm e l)) in Hx.
    destruct Hx as [<-|Hx]; [now apply before_asym|].
    exact (proj1 (List.Forall_forall _ _) Hall x Hx).
  - constructor; [now constructor|]. constructor; [exact E|].
    eapply List.Forall_impl; [|exact Hall]. intros x Hx. cbv beta in *.
    now apply (not_before_trans e e' x).
Qed.

Lemma sortBy_sorted l : StronglySorted (fun a b => before b a = false) (sortBy before l).
Proof using before_asym not_before_trans.
  induction l as [|e l IH]; [constructor|].
  cbn [sortBy fold_right]. now apply insertBy_sorted.
Qed.

Lemma insertBy_stable c e l :
  List.filter (sameClass c) (insertBy before e l) = List.filter (sameClass c) (e :: l).
Proof using class_not_before.
  induction l as [|e' l IH]; [reflexivity|].
  cbn [insertBy]. destruct (before e' e) eqn:E; [|reflexivity].
  cbn [List.filter] in *. rewrite IH.
  destruct (sameClass c e) eqn:Ec; [|reflexivity].
  now rewrite (class_not_before c e e' Ec E).
Qed.

Lemma sortBy_stable c l :
  List.filter (sameClass c) (sortBy before l) = List.filter (sameClass c) l.
Proof using class_not_before.
  induction l as [|e l IH]; [reflexivity|].
  cbn [sortBy fold_right]. fold (sortBy before l).
  rewrite insertBy_stable. cbn [List.filter]. now rewrite IH.
Qed.

Lemma sortBy_stablySorted l : stablySorted before sameClass l (sortBy before l).
Proof using before_asym not_before_trans class_not_before.
  split; [apply sortBy_perm|]. split; [apply sortBy_sorted|].
  intros c. apply sortBy_stable.
Qed.

End Sorting.

Lemma insertByStrength_insertBy e l :
  insertByStrength e l = insertBy (fun a b => (snd b <? snd a)%Z) e l.
Proof.
  induction l as [|e' l IH]; [reflexivity|].
  cbn [insertByStrength insertBy]. now rewrite IH.
Qed.

Lemma sortByStrength_sortBy row :
  sortByStrength row = sortBy (fun a b => (snd b <? snd a)%Z) row.
Proof.
  unfold sortByStrength, sortBy. induction row as [|e row IH]; [reflexivity|].
  cbn [fold_right]. now rewrite IH, insertByStrength_insertBy.
Qed.

(** X12: [getRelatedTopics] answers the empty list for a topic with no row;
    otherwise it lists the keys of the first [limit] entries of the row
    sorted by strength: the same entries, in non-increasing strength, those
    of equal strength in the order of the row (the first seen first). *)
Theorem getRelatedTopics_sorted (tm : TopicManager) (topic : string) (limit : nat) :
  (List.length (getRelatedTopics tm topic limit) <= limit)%nat
  /\ match JsMap.get (getCanonicalTopic tm topic) (topicRelationships tm) with
     | None => getRelatedTopics tm topic limit = []
     | Some row =>
         exists entries,
           getRelatedTopics tm topic limit = map fst (firstn limit entries)
           /\ stablySorted (fun a b : string * Z => (snd b <? snd a)%Z)
                (fun (s : Z) (e : string * Z) => (snd e =? s)%Z) row entries
     end.
Proof.
  unfold getRelatedTopics. cbv zeta.
  destruct (JsMap.get (getCanonicalTopic tm topic) (topicRelationships tm)) as [row|].
  - split; [rewrite length_map; apply firstn_le_length|].
    exists (sortByStrength row). split; [reflexivity|].
    rewrite sortByStrength_sortBy. apply sortBy_stablySorted.
    + intros a b H. apply Z.ltb_lt in H. apply Z.ltb_ge. lia.
    + intros a b c H1 H2. apply Z.ltb_ge in H1, H2. apply Z.ltb_ge. lia.
    + intros s a b Ha Hb. apply Z.eqb_eq in Ha. apply Z.ltb_lt in Hb.
      apply Z.eqb_neq. lia.
  - split; [cbn; lia | reflexivity].
Qed.

Lemma insertByInterest_insertBy e l :
  insertByInterest e l
  = insertBy (fun a b : string * TopicMetadata =>
                if Rlt_dec (interestLevel (snd b)) (interestLevel (snd a))
                then true else false) e l.
Proof.
  induction l as [|e' l IH]; [reflexivity|].
  cbn [insertByInterest insertBy]. rewrite IH.
  now destruct (Rlt_dec (interestLevel (snd e)) (interestLevel (snd e'))).
Qed.

Lemma sortByInterest_sortBy l :
  sortByInterest l
  = sortBy (fun a b : string * TopicMetadata =>
              if Rlt_dec (interestLevel (snd b)) (interestLevel (snd a))
              then true else false) l.
Proof.
  unfold sortByInterest, sortBy. induction l as [|e l IH]; [reflexivity|].
  cbn [fold_right]. now rewrite IH, insertByInterest_insertBy.
Qed.

(** X13: [getActiveTopics] lists the keys of exactly the records of the topic
    map whose interest level is at least [minInterest], each record once, in
    non-increasing interest level, those of equal interest level in the
    order of the topic map. *)
Theorem getActiveTopics_sorted (tm : TopicManager) (minInterest : R) :
  exists entries,
    getActiveTopics tm minInterest = map fst entries
    /\ Permutation entries
         (List.filter
            (fun e => if Rle_dec minInterest (interestLevel (snd e)) then true else false)
            (discoveredTopics tm))
    /\ StronglySorted
         (fun a b => (interestLevel (snd b) <= interestLevel (snd a))%R) entries
    /\ (forall lvl,
          List.filter
            (fun e => if Req_dec_T (interestLevel (snd e)) lvl then true else false)
            entries
          = List.filter
              (fun e => if Req_dec_T (interestLevel (snd e)) lvl then true else false)
              (List.filter
                 (fun e =>
                    if Rle_dec minInterest (interestLevel (snd e)) then true else false)
                 (discoveredTopics tm)))
    /\ forall e, In e entries
                 <-> In e (discoveredTopics tm)
                     /\ (minInterest <= interestLevel (snd e))%R.
Proof.
  unfold getActiveTopics. rewrite sortByInterest_sortBy.
  set (before := fun a b : string * TopicMetadata =>
                   if Rlt_dec (interestLevel (snd b)) (interestLevel (snd a))
                   then true else false).
  set (kept := List.filter _ (discoveredTopics tm)).
  exists (sortBy before kept). split; [reflexivity|].
  split; [apply sortBy_perm|]. split; [|split].
  - assert (Hs : StronglySorted (fun a b => before b a = false) (sortBy before kept)).
    { apply sortBy_sorted; unfold before.
      - intros a b H.
        destruct (Rlt_dec (interestLevel (snd b)) (interestLevel (snd a)));
          [|discriminate].
        destruct (Rlt_dec (interestLevel (snd a)) (interestLevel (snd b)));
          [lra | reflexivity].
      - intros a b c H1 H2.
        destruct (Rlt_dec (interestLevel (snd a)) (interestLevel (snd b)));
          [discriminate|].
        destruct (Rlt_dec (interestLevel (snd b)) (interestLevel (snd c)));
          [discriminate|].
        destruct (Rlt_dec (interestLevel (snd a)) (interestLevel (snd c)));
          [lra | reflexivity]. }
    clear -Hs. induction Hs as [|a l Hl IH Hall]; [constructor|].
    constructor; [exact IH|].
    eapply List.Forall_impl; [|exact Hall]. intros b Hb. unfold before in Hb.
    destruct (Rlt_dec (interestLevel (snd a)) (interestLevel (snd b)));
      [discriminate | lra].
  - intros lvl.
    apply (sortBy_stable before
             (fun (c : R) (e : string * TopicMetadata) =>
                if Req_dec_T (interestLevel (snd e)) c then true else false)).
    intros c a b Ha Hb. unfold before in Hb.
    destruct (Req_dec_T (interestLevel (snd a)) c) as [Ea|]; [|discriminate].
    destruct (Rlt_dec (interestLevel (snd a)) (interestLevel (snd b)));
      [|discriminate].
    destruct (Req_dec_T (interestLevel (snd b)) c); [lra | reflexivity].
  - intros e. split.
    + intros H. apply (Permutation_in _ (sortBy_perm before kept)) in H.
      apply filter_In in H as [H1 H2]. split; [exact H1|].
      now destruct (Rle_dec minInterest (interestLevel (snd e))).
    + intros [H1 H2].
      apply (Permutation_in _ (Permutation_sym (sortBy_perm before kept))).
      apply filter_In. split; [exact H1|].
      now destruct (Rle_dec minInterest (interestLevel (snd e))).
Qed.

(** ** The Jaccard similarity *)

Section Jaccard.

Lemma inter_incl_union (T E : list string) :
  incl (JsSet.ofList (List.filter (fun w => includes E w) T)) (JsSet.ofList (T ++ E)).
Proof.
  intros w Hw. rewrite ofList_In in Hw. apply filter_In in Hw as [Hw _].
  rewrite ofList_In. apply in_app_iff. now left.
Qed.

Lemma jaccard_sizes (T E : list string) :
  (List.length (JsSet.ofList (List.filter (fun w => includes E w) T))
   <= List.length (JsSet.ofList (T ++ E)))%nat.
Proof.
  apply List.NoDup_incl_length; [apply ofList_NoDup | apply inter_incl_union].
Qed.

Lemma jaccard_le_1 T E : (jaccard T E <= 1)%Q.
Proof.
  unfold jaccard. cbv zeta. pose proof (jaccard_sizes T E) as H.
  unfold Qle. cbn [Qnum Qden].
  destruct (List.length (JsSet.ofList (T ++ E))); [|lia].
  assert (List.length (JsSet.ofList (List.filter (fun w => includes E w) T)) = 0%nat)
    by lia.
  lia.
Qed.

Lemma jaccard_eq_1 T E :
  T <> [] ->
  (jaccard T E == 1)%Q
  <-> List.length (JsSet.ofList (List.filter (fun w => includes E w) T))
      = List.length (JsSet.ofList (T ++ E)).
Proof.
  intros HT. unfold jaccard. cbv zeta. unfold Qeq. cbn [Qnum Qden].
  assert (List.length (JsSet.ofList (T ++ E)) <> 0%nat).
  { destruct T as [|t T]; [congruence|].
    assert (Hin : In t (JsSet.ofList ((t :: T) ++ E))) by (rewrite ofList_In; now left).
    destruct (JsSet.ofList ((t :: T) ++ E)); [destruct Hin | discriminate]. }
  lia.
Qed.

Lemma jaccard_same_words T E :
  T <> [] ->
  (jaccard T E == 1)%Q <-> (forall w, In w T <-> In w E).
Proof.
  intros HT. rewrite (jaccard_eq_1 T E HT). split.
  - intros Hlen.
    assert (Hincl : incl (JsSet.ofList (T ++ E))
                      (JsSet.ofList (List.filter (fun w => includes E w) T))).
    { apply List.NoDup_length_incl;
        [apply ofList_NoDup | lia | apply inter_incl_union]. }
    assert (Hboth : forall w, In w T \/ In w E -> In w T /\ In w E).
    { intros w Hw. apply in_app_iff in Hw. rewrite <- ofList_In in Hw.
      apply Hincl in Hw. rewrite ofList_In in Hw. apply filter_In in Hw.
      destruct Hw as [Hw1 Hw2]. apply includes_In in Hw2. now split. }
    intros w. split; intros Hw; apply Hboth; auto.
  - intros Hsame. apply Nat.le_antisymm; [apply jaccard_sizes|].
    apply List.NoDup_incl_length; [apply ofList_NoDup|].
    intros w Hw. rewrite ofList_In in Hw. apply in_app_iff in Hw.
    rewrite ofList_In. apply filter_In. rewrite includes_In.
    destruct Hw as [Hw|Hw]; [split; [|apply Hsame] | split; [apply Hsame|]]; exact Hw.
Qed.

Lemma wordSet_nonempty k : wordSet k <> [].
Proof.
  unfold wordSet. destruct (split " " k) as [|w ws] eqn:E;
    [now apply split_not_nil in E|].
  assert (H : In w (JsSet.ofList (w :: ws))) by (rewrite ofList_In; now left).
  intros E'. rewrite E' in H. destruct H.
Qed.

End Jaccard.

(** X14: the word-set similarity of two keys lies between 0 and 1, and it is
    1 exactly when the two keys are made of the same words, whatever their
    order and their repetitions. *)
Theorem jaccard_range (key1 key2 : string) :
  (0 <= jaccard (wordSet key1) (wordSet key2) <= 1)%Q
  /\ ((jaccard (wordSet key1) (wordSet key2) == 1)%Q
      <-> forall w, In w (split " " key1) <-> In w (split " " key2)).
Proof.
  split; [split; [apply jaccard_nonneg | apply jaccard_le_1]|].
  pose proof (jaccard_same_words (wordSet key1) (wordSet key2)
                (wordSet_nonempty key1)) as Hsame.
  unfold wordSet in *. split.
  - intros H w. apply Hsame with (w := w) in H.
    now rewrite !ofList_In in H.
  - intros H. apply Hsame. intros w. rewrite !ofList_In. apply H.
Qed.

(** ** The merge planner *)

Section Planner.

Lemma qmin_le_l a b : (qmin a b <= a)%Q.
Proof.
  unfold qmin. destruct (Qle_bool a b) eqn:E; [apply Qle_refl|].
  apply Qlt_le_weak, Qnot_le_lt. intros H. apply Qle_bool_iff in H. congruence.
Qed.

Lemma qmax_lub a b c : (a <= c)%Q -> (b <= c)%Q -> (qmax a b <= c)%Q.
Proof. intros Ha Hb. unfold qmax. now destruct (Qle_bool a b). Qed.

Lemma qmax_ge_l a b : (a <= qmax a b)%Q.
Proof.
  unfold qmax. destruct (Qle_bool a b) eqn:E; [now apply Qle_bool_iff | apply Qle_refl].
Qed.

Lemma calculateTopicSimilarity_bounds tm topic1 topic2 :
  (0 <= calculateTopicSimilarity tm topic1 topic2 <= 1)%Q.
Proof.
  unfold calculateTopicSimilarity. cbv zeta.
  pose proof (jaccard_nonneg (wordSet topic1) (wordSet topic2)) as H0.
  pose proof (jaccard_le_1 (wordSet topic1) (wordSet topic2)) as H1.
  destruct (JsMap.get topic1 (topicRelationships tm)) as [row|]; [|now split].
  destruct (JsMap.get topic2 row) as [s|]; [|now split].
  split.
  - eapply Qle_trans; [exact H0 | apply qmax_ge_l].
  - apply qmax_lub; [exact H1 | apply qmin_le_l].
Qed.

Lemma candidatesFrom_none tm threshold topic1 rest :
  (1 < threshold)%Q -> candidatesFrom tm threshold topic1 rest = [].
Proof.
  intros Ht. induction rest as [|topic2 rest IH]; [reflexivity|].
  cbn [candidatesFrom]. rewrite IH.
  destruct (Qle_bool threshold (calculateTopicSimilarity tm topic1 topic2)) eqn:E;
    [|reflexivity].
  apply Qle_bool_iff in E.
  pose proof (proj2 (calculateTopicSimilarity_bounds tm topic1 topic2)) as H.
  exfalso. apply (Qlt_not_le _ _ Ht). now apply Qle_trans with (2 := H).
Qed.

Lemma mergeCandidates_none tm threshold topics :
  (1 < threshold)%Q -> mergeCandidates tm threshold topics = [].
Proof.
  intros Ht. induction topics as [|t rest IH]; [reflexivity|].
  cbn [mergeCandidates]. now rewrite IH, candidatesFrom_none.
Qed.

End Planner.

(** X15: the similarity the merge planner computes for two topics (the
    higher of the word overlap and a tenth of the edge strength capped at 1)
    lies between 0 and 1; so with a threshold above 1
    [findAndExecuteMerges] merges nothing, returns 0 and leaves the manager
    as it was. *)
Theorem findAndExecuteMerges_threshold_above_one (threshold : Q) (tm : TopicManager) :
  (forall topic1 topic2, (0 <= calculateTopicSimilarity tm topic1 topic2 <= 1)%Q)
  /\ ((1 < threshold)%Q -> findAndExecuteMerges threshold tm = (0%nat, tm)).
Proof.
  split; [intros; apply calculateTopicSimilarity_bounds|].
  intros Ht. unfold findAndExecuteMerges.
  destruct (1000 <? JsMap.size (discoveredTopics tm))%nat; [reflexivity|].
  cbv zeta. now rewrite mergeCandidates_none.
Qed.

Lemma findAndExecuteMerges_threshold_above_one_witness :
  findAndExecuteMerges (11 # 10) petsManager = (0%nat, petsManager).
Proof.
  apply (proj2 (findAndExecuteMerges_threshold_above_one (11 # 10) petsManager)).
  reflexivity.
Defined.

(** ** The merges the planner executes *)

Section PlannerLoop.

Lemma settled_canonical tm k :
  settled tm -> In k (JsMap.keys (discoveredTopics tm)) -> getCanonicalTopic tm k = k.
Proof.
  intros Hs Hk. destruct (Hs k Hk) as [Hn Hsyn].
  unfold getCanonicalTopic. cbv zeta. now rewrite Hn, Hsyn.
Qed.

Lemma keys_get {V} k (m : list (string * V)) :
  In k (JsMap.keys m) -> exists v, JsMap.get k m = Some v.
Proof.
  intros Hk. destruct (JsMap.get k m) as [v|] eqn:E; [now exists v|].
  now apply get_None_keys in E.
Qed.

Lemma add_fresh s x : includes s x = false -> JsSet.add s x = s ++ [x].
Proof. intros H. unfold JsSet.add. now rewrite H. Qed.

Lemma includes_app l l' x : includes (l ++ l') x = includes l x || includes l' x.
Proof. unfold includes. apply existsb_app. Qed.

Lemma filter_filter {A} (f g : A -> bool) l :
  List.filter f (List.filter g l) = List.filter (fun x => g x && f x) l.
Proof.
  induction l as [|x l IH]; [reflexivity|]. cbn [List.filter].
  destruct (g x); cbn [List.filter andb]; [destruct (f x)|]; now rewrite IH.
Qed.

Lemma mergeInv_merge tm0 tm processedTopics mergeCount loser winner :
  mergeInv tm0 (Looping tm processedTopics mergeCount) ->
  In loser (JsMap.keys (discoveredTopics tm)) ->
  In winner (JsMap.keys (discoveredTopics tm)) ->
  loser <> winner ->
  includes processedTopics loser = false ->
  mergeInv tm0
    (Looping (snd (mergeTopic loser winner tm)) (JsSet.add processedTopics loser)
       (S mergeCount)).
Proof.
  intros (Hr & Hs & Hn & Hkeys & Hsize) Hl Hw Hne Hfresh.
  pose proof (settled_canonical tm loser Hs Hl) as Hcl.
  pose proof (settled_canonical tm winner Hs Hw) as Hcw.
  destruct (keys_get _ _ Hl) as (ml & Hgl). destruct (keys_get _ _ Hw) as (mw & Hgw).
  assert (Ht : fst (mergeTopic loser winner tm) = true).
  { apply (mergeTopic_true_intro loser winner tm ml mw); rewrite ?Hcl, ?Hcw; auto. }
  pose proof (mergeTopic_true_keys _ _ _ Ht) as Hk'. rewrite Hcl in Hk'.
  pose proof (mergeTopic_true_size _ _ _ (reachable_wf _ Hr) Ht) as Hsz.
  cbn [mergeInv]. rewrite add_fresh by exact Hfresh.
  split; [now apply reach_mergeTopic|].
  split; [|split; [|split]].
  - intros k Hk. rewrite Hk' in Hk. apply filter_In in Hk as [Hk Hkl].
    apply negb_true_iff, String.eqb_neq in Hkl.
    destruct (Hs k Hk) as [Hnk Hsk]. split; [exact Hnk|].
    rewrite synonyms_mergeTopic, Ht, Hcl, Hcw.
    rewrite lookup_insert_ne by exact Hkl. exact Hsk.
  - rewrite length_app. cbn [List.length]. lia.
  - rewrite Hk', Hkeys, filter_filter. apply filter_ext. intros k.
    rewrite includes_app, negb_orb. f_equal.
    unfold includes. cbn [existsb]. rewrite orb_false_r.
    now rewrite (String.eqb_sym loser k).
  - lia.
Qed.

Lemma executeMerge_inv tm0 st source target similarity :
  mergeInv tm0 st ->
  In source (JsMap.keys (discoveredTopics tm0)) ->
  In target (JsMap.keys (discoveredTopics tm0)) ->
  source <> target ->
  mergeInv tm0 (executeMerge st (source, target, similarity)).
Proof.
  intros Hinv Hs Ht Hne. destruct st as [tm processedTopics mergeCount|tm]; [|destruct Hinv].
  unfold executeMerge. cbv zeta. cbn [fst snd].
  destruct (includes processedTopics source) eqn:Eps; [exact Hinv|].
  destruct (includes processedTopics target) eqn:Ept; [exact Hinv|].
  cbn [orb].
  pose proof Hinv as (_ & _ & _ & Hkeys & _).
  assert (Hs' : In source (JsMap.keys (discoveredTopics tm))).
  { rewrite Hkeys. apply filter_In. now rewrite Eps. }
  assert (Ht' : In target (JsMap.keys (discoveredTopics tm))).
  { rewrite Hkeys. apply filter_In. now rewrite Ept. }
  destruct (keys_get _ _ Hs') as (ms & ->). destruct (keys_get _ _ Ht') as (mt & ->).
  destruct (isCore ms && negb (isCore mt));
    [apply mergeInv_merge; auto|].
  destruct (negb (isCore ms) && isCore mt);
    [apply mergeInv_merge; auto|].
  destruct (observationCount mt <? observationCount ms)%Z;
    apply mergeInv_merge; auto.
Qed.

Lemma candidatesFrom_In tm threshold topic1 rest c :
  In c (candidatesFrom tm threshold topic1 rest) ->
  fst (fst c) = topic1 /\ In (snd (fst c)) rest.
Proof.
  induction rest as [|topic2 rest IH]; cbn [candidatesFrom]; [intros []|].
  cbv zeta. destruct (Qle_bool _ _).
  - intros [<-|H]; [cbn; auto|]. destruct (IH H); cbn [In]; auto.
  - intros H. destruct (IH H); cbn [In]; auto.
Qed.

Lemma mergeCandidates_In tm threshold topics c :
  List.NoDup topics ->
  In c (mergeCandidates tm threshold topics) ->
  In (fst (fst c)) topics /\ In (snd (fst c)) topics /\ fst (fst c) <> snd (fst c).
Proof.
  induction 1 as [|topic1 rest Hnot Hnd IH]; cbn [mergeCandidates]; [intros []|].
  intros H. apply in_app_iff in H as [H|H].
  - apply candidatesFrom_In in H as [-> H]. cbn [In].
    repeat split; auto. intros E. apply Hnot. now rewrite E.
  - destruct (IH H) as (Ha & Hb & Hab). cbn [In]. auto.
Qed.

Lemma insertBySimilarity_In c x l :
  In c (insertBySimilarity x l) -> c = x \/ In c l.
Proof.
  induction l as [|y l IH]; cbn [insertBySimilarity].
  - intros [<-|[]]. now left.
  - destruct (negb (Qle_bool (snd y) (snd x))).
    + intros [<-|H]; [right; now left|]. destruct (IH H); [now left | right; now right].
    + intros [<-|H]; [now left | now right].
Qed.

Lemma sortBySimilarity_In c cs : In c (sortBySimilarity cs) -> In c cs.
Proof.
  unfold sortBySimilarity. induction cs as [|x cs IH]; cbn [fold_right]; [auto|].
  intros H. apply insertBySimilarity_In in H as [->|H]; [now left | right; auto].
Qed.

Lemma mergeLoop_inv tm0 cs st :
  mergeInv tm0 st ->
  (forall c, In c cs ->
     In (fst (fst c)) (JsMap.keys (discoveredTopics tm0))
     /\ In (snd (fst c)) (JsMap.keys (discoveredTopics tm0))
     /\ fst (fst c) <> snd (fst c)) ->
  mergeInv tm0 (fold_left executeMerge cs st).
Proof.
  revert st. induction cs as [|[[source target] similarity] cs IH]; intros st Hinv Hcs;
    [exact Hinv|].
  cbn [fold_left]. apply IH.
  - destruct (Hcs (source, target, similarity) (or_introl eq_refl)) as (Ha & Hb & Hab).
    now apply executeMerge_inv.
  - intros c Hc. apply Hcs. now right.
Qed.

End PlannerLoop.

(** X16: in a reachable state whose live keys are their own normalized
    forms and are not redirected, the loop of [findAndExecuteMerges] meets
    no missing record: it ends without an exception, having counted one
    merge for each processed topic, and that count is what the function
    returns; the number returned is the number of topics removed; the
    topics that stay keep their order; and the state it leaves is again of
    that kind. *)
Theorem findAndExecuteMerges_counts_removed (threshold : Q) (tm : TopicManager) :
  reachable tm -> settled tm ->
  (exists tm' processedTopics,
     executeMerges threshold tm
     = Looping tm' processedTopics (List.length processedTopics)
     /\ ((JsMap.size (discoveredTopics tm) <= 1000)%nat ->
         findAndExecuteMerges threshold tm = (List.length processedTopics, tm')))
  /\ (JsMap.size (discoveredTopics (snd (findAndExecuteMerges threshold tm)))
      + fst (findAndExecuteMerges threshold tm)
      = JsMap.size (discoveredTopics tm))%nat
  /\ (exists removed,
        List.length removed = fst (findAndExecuteMerges threshold tm)
        /\ JsMap.keys (discoveredTopics (snd (findAndExecuteMerges threshold tm)))
           = List.filter (fun k => negb (includes removed k))
               (JsMap.keys (discoveredTopics tm)))
  /\ reachable (snd (findAndExecuteMerges threshold tm))
  /\ settled (snd (findAndExecuteMerges threshold tm)).
Proof.
  intros Hr Hs.
  assert (Hinv : mergeInv tm (executeMerges threshold tm)).
  { apply mergeLoop_inv.
    - cbn [mergeInv List.length]. split; [exact Hr|]. split; [exact Hs|].
      split; [reflexivity|]. split; [|lia].
      symmetry. apply forallb_filter_id. apply forallb_forall. reflexivity.
    - intros c Hc. apply sortBySimilarity_In in Hc.
      apply mergeCandidates_In in Hc; [exact Hc | now apply reachable_wf]. }
  unfold findAndExecuteMerges. cbv zeta. fold (executeMerges threshold tm).
  destruct (executeMerges threshold tm) as [tm' processedTopics mergeCount|tm'];
    [|destruct Hinv].
  destruct Hinv as (Hr' & Hs' & Hn & Hkeys & Hsize).
  split.
  { exists tm', processedTopics. subst mergeCount. split; [reflexivity|].
    intros Hle. apply Nat.ltb_ge in Hle. now rewrite Hle. }
  destruct (1000 <? JsMap.size (discoveredTopics tm))%nat.
  - cbn [fst snd]. split; [lia|]. split; [|now split].
    exists []. split; [reflexivity|]. symmetry. apply forallb_filter_id.
    apply forallb_forall. reflexivity.
  - cbn [fst snd].
    split; [exact Hsize|]. split; [|now split].
    exists processedTopics. now split.
Qed.

Lemma findAndExecuteMerges_counts_removed_witness :
  (exists tm' processedTopics,
     executeMerges (1 # 10) petsManager
     = Looping tm' processedTopics (List.length processedTopics)
     /\ ((JsMap.size (discoveredTopics petsManager) <= 1000)%nat ->
         findAndExecuteMerges (1 # 10) petsManager
         = (List.length processedTopics, tm')))
  /\ (JsMap.size (discoveredTopics (snd (findAndExecuteMerges (1 # 10) petsManager)))
      + fst (findAndExecuteMerges (1 # 10) petsManager)
      = JsMap.size (discoveredTopics petsManager))%nat.
Proof.
  assert (Hr : reachable petsManager).
  { unfold petsManager. apply reach_trackObservation.
    do 2 apply reach_addTopic. exact reach_empty. }
  assert (Hs : settled petsManager).
  { intros k Hk.
    assert (Hk' : In k ["cats"; "dogs"]) by exact Hk.
    destruct Hk' as [<-|[<-|[]]]; split; reflexivity. }
  split.
  - exact (proj1 (findAndExecuteMerges_counts_removed (1 # 10) petsManager Hr Hs)).
  - exact (proj1 (proj2 (findAndExecuteMerges_counts_removed (1 # 10) petsManager
                           Hr Hs))).
Defined.

(** ** What discovery reports *)

Section Discovery.

Lemma keys_updateInterestLevel now topic tm :
  JsMap.keys (discoveredTopics (updateInterestLevel now topic tm))
  = JsMap.keys (discoveredTopics tm).
Proof.
  unfold updateInterestLevel. destruct (JsMap.get _ _) as [md|] eqn:E; [|reflexivity].
  cbn [withTopics discoveredTopics]. now apply keys_set_present with (v' := md).
Qed.

Lemma keys_updateTopicMetadata now1 now2 topic tm :
  JsMap.keys (discoveredTopics (updateTopicMetadata now1 now2 topic tm))
  = JsMap.keys (discoveredTopics tm).
Proof.
  unfold updateTopicMetadata. destruct (JsMap.get _ _) as [md|] eqn:E; [|reflexivity].
  cbv zeta. rewrite keys_updateInterestLevel. cbn [withTopics discoveredTopics].
  now apply keys_set_present with (v' := md).
Qed.

Lemma keys_addTopic now1 now2 topic core tm :
  JsMap.keys (discoveredTopics (snd (addTopic now1 now2 topic core tm)))
  = if JsMap.has (normalizeTopic topic) (discoveredTopics tm)
    then JsMap.keys (discoveredTopics tm)
    else JsMap.keys (discoveredTopics tm) ++ [normalizeTopic topic].
Proof.
  rewrite discoveredTopics_addTopic. unfold JsMap.has.
  destruct (JsMap.get _ _) as [md|] eqn:E.
  - destruct (core && negb (isCore md)); [|reflexivity].
    now apply keys_set_present with (v' := md).
  - rewrite keys_set. unfold JsMap.has. now rewrite E.
Qed.

Lemma has_In {V} k (m : list (string * V)) :
  JsMap.has k m = true <-> In k (JsMap.keys m).
Proof.
  unfold JsMap.has. destruct (JsMap.get k m) as [v|] eqn:E.
  - split; [intros _ | reflexivity]. apply get_In in E. now apply (in_map fst) in E.
  - split; [discriminate|]. intros H. now apply get_None_keys in E.
Qed.

Lemma accountsFor_add tm0 acc now1 now2 topic :
  topic <> "" ->
  accountsFor tm0 acc ->
  accountsFor tm0 (fst acc ++ [topic], snd (addTopic now1 now2 topic false (snd acc))).
Proof.
  intros Hne (Hincl & Hnew & Hold & Hlen). unfold accountsFor. cbn [fst snd].
  rewrite keys_addTopic.
  destruct (JsMap.has (normalizeTopic topic) (discoveredTopics (snd acc))) eqn:Eh.
  - split; [exact Hincl|]. split; [|split].
    + intros t Ht. apply in_app_iff in Ht as [Ht|[<-|[]]]; [now apply Hnew|].
      split; [exact Hne | now apply has_In].
    + intros k Hk. destruct (Hold k Hk) as [H|(t & Ht & ->)]; [now left|].
      right. exists t. split; [apply in_app_iff; now left | reflexivity].
    + rewrite length_app. lia.
  - split; [|split; [|split]].
    + intros k Hk. apply in_app_iff. left. now apply Hincl.
    + intros t Ht. apply in_app_iff in Ht as [Ht|[<-|[]]].
      * destruct (Hnew t Ht). split; [auto|]. apply in_app_iff. now left.
      * split; [exact Hne|]. apply in_app_iff. right. now left.
    + intros k Hk. apply in_app_iff in Hk as [Hk|[<-|[]]].
      * destruct (Hold k Hk) as [H|(t & Ht & ->)]; [now left|].
        right. exists t. split; [apply in_app_iff; now left | reflexivity].
      * right. exists topic. split; [apply in_app_iff; right; now left | reflexivity].
    + rewrite !length_app. cbn [List.length]. lia.
Qed.

Lemma accountsFor_keep tm0 acc tm' :
  JsMap.keys (discoveredTopics tm') = JsMap.keys (discoveredTopics (snd acc)) ->
  accountsFor tm0 acc -> accountsFor tm0 (fst acc, tm').
Proof. intros E H. unfold accountsFor in *. cbn [fst snd]. now rewrite E. Qed.

Lemma accountsFor_discoverTopic viaLLM tm0 acc extracted :
  accountsFor tm0 acc -> accountsFor tm0 (discoverTopic viaLLM acc extracted).
Proof.
  intros H. unfold discoverTopic. cbv zeta.
  destruct (String.eqb_spec (normalizeTopic (fst extracted)) "") as [E|Hne]; [exact H|].
  destruct (findSimilarTopic _ _ _ _) as [similarTopic|];
    [|now apply accountsFor_add].
  destruct (String.eqb similarTopic ""); [now apply accountsFor_add|].
  apply accountsFor_keep; [|exact H].
  rewrite keys_updateTopicMetadata. now destruct (negb _).
Qed.

End Discovery.

(** X17: [discoverTopicsFromText] loses no topic; every name it returns as
    new is not empty and is known afterwards; every live key that was not
    there before is the normalized form of a returned name; and the registry
    grows by at most one topic for each returned name. *)
Theorem discoverTopicsFromText_accounts
    (viaLLM : string -> list string -> Q -> option string)
    (extractedTopics : list (string * (Z * Z))) (tm : TopicManager) :
  let newTopics := fst (discoverTopicsFromText viaLLM extractedTopics tm) in
  let tm' := snd (discoverTopicsFromText viaLLM extractedTopics tm) in
  incl (JsMap.keys (discoveredTopics tm)) (JsMap.keys (discoveredTopics tm'))
  /\ (forall t, In t newTopics -> t <> "" /\ hasTopic tm' t = true)
  /\ (forall k, In k (JsMap.keys (discoveredTopics tm')) ->
        In k (JsMap.keys (discoveredTopics tm))
        \/ exists t, In t newTopics /\ k = normalizeTopic t)
  /\ (JsMap.size (discoveredTopics tm')
      <= JsMap.size (discoveredTopics tm) + List.length newTopics)%nat.
Proof.
  cbv zeta.
  assert (H : accountsFor tm (discoverTopicsFromText viaLLM extractedTopics tm)).
  { unfold discoverTopicsFromText. apply fold_left_preserves.
    - intros acc e. apply accountsFor_discoverTopic.
    - unfold accountsFor. cbn [fst snd List.length].
      split; [apply incl_refl|]. split; [intros t []|]. split; [now left | lia]. }
  destruct H as (Hincl & Hnew & Hold & Hlen).
  split; [exact Hincl|]. split; [|split; [exact Hold|]].
  - intros t Ht. destruct (Hnew t Ht) as [Hne Hin]. split; [exact Hne|].
    unfold hasTopic. cbv zeta. apply has_In in Hin. now rewrite Hin.
  - unfold JsMap.size. unfold JsMap.keys in Hlen. now rewrite !length_map in Hlen.
Qed.

(** ** The report of the connector *)

Section Report.

Lemma getActiveTopics_In tm minInterest k :
  In k (getActiveTopics tm minInterest) ->
  exists md, In (k, md) (discoveredTopics tm) /\ (minInterest <= interestLevel md)%R.
Proof.
  unfold getActiveTopics. rewrite sortByInterest_sortBy. intros H.
  apply in_map_iff in H as ([k' md] & <- & H).
  apply (Permutation_in _ (sortBy_perm _ _)) in H.
  apply filter_In in H as [H1 H2]. exists md. split; [exact H1|].
  cbn [snd] in H2. now destruct (Rle_dec minInterest (interestLevel md)).
Qed.

Lemma In_get k (v : TopicMetadata) m : JsMap.wf m -> In (k, v) m -> JsMap.get k m = Some v.
Proof.
  unfold JsMap.wf, JsMap.keys.
  induction m as [|[k0 v0] m IH]; cbn [map fst JsMap.get]; intros Hwf Hin;
    [destruct Hin|].
  apply List.NoDup_cons_iff in Hwf as [Hnot Hwf].
  destruct Hin as [[= -> ->]|Hin]; [now rewrite String.eqb_refl|].
  destruct (String.eqb_spec k k0) as [->|Hk]; [|now apply IH].
  exfalso. apply Hnot. now apply (in_map fst) in Hin.
Qed.

Lemma mapNonNull_total {A B} (f : A -> option B) (g : A -> B) l :
  (forall x, In x l -> f x = Some (g x)) -> mapNonNull f l = map g l.
Proof.
  induction l as [|x l IH]; intros H; [reflexivity|].
  cbn [mapNonNull map]. rewrite (H x (or_introl eq_refl)). f_equal.
  apply IH. intros y Hy. apply H. now right.
Qed.

Lemma In_firstn {A} n (l : list A) x : In x (firstn n l) -> In x l.
Proof.
  intros H. rewrite <- (firstn_skipn n l). apply in_app_iff. now left.
Qed.

End Report.

(** X18: in a reachable state whose live keys are their own normalized forms
    and are not redirected, the report of the connector lists the first
    [limit] active topics, in the order of [getActiveTopics], each with the
    interest level of its own record, which is at least [minInterest], and
    with its five strongest related topics. *)
Theorem connector_getActiveTopics_report (tm : TopicManager) (minInterest : R)
    (limit : nat) :
  reachable tm -> settled tm ->
  map ActiveTopic.topic (TwitterConnector.getActiveTopics tm minInterest limit)
  = firstn limit (getActiveTopics tm minInterest)
  /\ Forall
       (fun e =>
          exists md,
            JsMap.get (ActiveTopic.topic e) (discoveredTopics tm) = Some md
            /\ ActiveTopic.interestLevel e = interestLevel md
            /\ (minInterest <= interestLevel md)%R
            /\ ActiveTopic.relatedTopics e = getRelatedTopics tm (ActiveTopic.topic e) 5)
       (TwitterConnector.getActiveTopics tm minInterest limit).
Proof.
  intros Hr Hs.
  assert (Hmd : forall k, In k (getActiveTopics tm minInterest) ->
            exists md, JsMap.get k (discoveredTopics tm) = Some md
                       /\ getTopicMetadata tm k = Some md
                       /\ (minInterest <= interestLevel md)%R).
  { intros k Hk. destruct (getActiveTopics_In _ _ _ Hk) as (md & Hin & Hle).
    exists md. pose proof (In_get _ _ _ (reachable_wf _ Hr) Hin) as Hget.
    split; [exact Hget|]. split; [|exact Hle].
    unfold getTopicMetadata. rewrite settled_canonical; [exact Hget | exact Hs |].
    now apply (in_map fst) in Hin. }
  unfold TwitterConnector.getActiveTopics. cbv zeta.
  set (g := fun k =>
              ActiveTopic.mk k
                (match JsMap.get k (discoveredTopics tm) with
                 | Some md => interestLevel md
                 | None => 0%R
                 end)
                (getRelatedTopics tm k 5)).
  rewrite (mapNonNull_total _ g).
  - split.
    + rewrite <- firstn_map, map_map. cbn [g ActiveTopic.topic]. now rewrite map_id.
    + apply List.Forall_forall. intros e He.
      apply In_firstn in He.
      apply in_map_iff in He as (k & <- & Hk).
      destruct (Hmd k Hk) as (md & Hget & _ & Hle).
      exists md. cbn [g ActiveTopic.topic ActiveTopic.interestLevel
                      ActiveTopic.relatedTopics].
      rewrite Hget. auto.
  - intros k Hk. destruct (Hmd k Hk) as (md & Hget & Hmeta & _).
    rewrite Hmeta. unfold g. now rewrite Hget.
Qed.

Lemma connector_getActiveTopics_report_witness :
  map ActiveTopic.topic (TwitterConnector.getActiveTopics petsManager (1 / 5) 1)
  = firstn 1 (getActiveTopics petsManager (1 / 5)).
Proof.
  refine (proj1 (connector_getActiveTopics_report petsManager (1 / 5) 1 _ _)).
  - unfold petsManager. apply reach_trackObservation.
    do 2 apply reach_addTopic. exact reach_empty.
  - intros k Hk.
    assert (Hk' : In k ["cats"; "dogs"]) by exact Hk.
    destruct Hk' as [<-|[<-|[]]]; split; reflexivity.
Defined.

(** ** The keywords of the predefined topics *)

Section Keywords.

Lemma set_set_same {V} k (v : V) m : JsMap.set k v (JsMap.set k v m) = JsMap.set k v m.
Proof.
  induction m as [|[k0 v0] m IH]; cbn [JsMap.set].
  - now rewrite String.eqb_refl.
  - destruct (String.eqb k k0) eqn:E; cbn [JsMap.set].
    + now rewrite String.eqb_refl.
    + now rewrite E, IH.
Qed.

Lemma has_set {V} k' k (v : V) m :
  JsMap.has k' (JsMap.set k v m) = String.eqb k' k || JsMap.has k' m.
Proof. unfold JsMap.has. rewrite get_set. now destruct (String.eqb k' k). Qed.

Lemma fold_add_absorb n s :
  (forall x, In x n -> In x s) -> fold_left JsSet.add n s = s.
Proof.
  induction n as [|x n IH]; intros H; [reflexivity|].
  cbn [fold_left]. unfold JsSet.add at 2.
  replace (includes s x) with true
    by (symmetry; apply includes_In, H; now left).
  apply IH. intros y Hy. apply H. now right.
Qed.

Lemma fold_add_fresh l : forall acc,
  List.NoDup (acc ++ l) -> fold_left JsSet.add l acc = acc ++ l.
Proof.
  induction l as [|x l IH]; intros acc Hnd; [now rewrite app_nil_r|].
  cbn [fold_left]. unfold JsSet.add at 2.
  replace (includes acc x) with false.
  - rewrite IH; rewrite <- app_assoc; [reflexivity | exact Hnd].
  - symmetry. destruct (includes acc x) eqn:E; [|reflexivity].
    apply includes_In in E. apply List.NoDup_remove_2 in Hnd.
    exfalso. apply Hnd, in_app_iff. now left.
Qed.

Lemma ofList_fixed l : List.NoDup l -> JsSet.ofList l = l.
Proof. intros H. unfold JsSet.ofList. now rewrite fold_add_fresh. Qed.

Lemma ofList_app_absorb e n :
  JsSet.ofList (JsSet.ofList (e ++ n) ++ n) = JsSet.ofList (e ++ n).
Proof.
  unfold JsSet.ofList at 1. rewrite fold_left_app.
  fold (JsSet.ofList (JsSet.ofList (e ++ n))).
  rewrite (ofList_fixed _ (ofList_NoDup (e ++ n))).
  apply fold_add_absorb. intros x Hx. rewrite ofList_In. apply in_app_iff. now right.
Qed.

Lemma ofList_head x l : exists rest, JsSet.ofList (x :: l) = x :: rest.
Proof.
  unfold JsSet.ofList. cbn [fold_left]. change (JsSet.add [] x) with [x].
  apply (fold_left_preserves (fun s => exists rest, s = x :: rest)).
  - intros s y (rest & ->). unfold JsSet.add.
    destruct (includes (x :: rest) y); [now exists rest|].
    now exists (rest ++ [y]).
  - now exists [].
Qed.

Lemma getCanonicalTopic_addTopic now1 now2 topic core tm t :
  getCanonicalTopic (snd (addTopic now1 now2 topic core tm)) t = getCanonicalTopic tm t.
Proof. unfold getCanonicalTopic. now rewrite synonyms_addTopic. Qed.

End Keywords.

(** X19: [addKeywordsToTopic] is idempotent: giving a topic the same keywords
    a second time, at whatever time, changes neither the topics nor the
    keywords. *)
Theorem addKeywordsToTopic_idempotent (now1 now2 now1' now2' : Z) (topic : string)
    (keywords : list string) (g : GuidedTopicManager) :
  addKeywordsToTopic now1' now2' topic keywords
    (addKeywordsToTopic now1 now2 topic keywords g)
  = addKeywordsToTopic now1 now2 topic keywords g.
Proof.
  unfold addKeywordsToTopic at 2 3. cbv zeta.
  set (c := getCanonicalTopic (base g) topic).
  set (N := map normalizeTopic keywords).
  destruct (JsMap.has c (predefinedTopics g)) eqn:Eh; cbn [negb].
  - unfold addKeywordsToTopic. cbv zeta. cbn [base predefinedTopics].
    fold c. fold N. rewrite has_set, String.eqb_refl. cbn [orb negb].
    rewrite get_set_eq, ofList_app_absorb. now rewrite set_set_same.
  - unfold addPredefinedTopic. cbv zeta. fold N.
    unfold addKeywordsToTopic. cbv zeta. cbn [base predefinedTopics].
    rewrite getCanonicalTopic_addTopic. fold c. fold N.
    rewrite has_set, Eh, orb_false_r.
    destruct (String.eqb_spec c (normalizeTopic c)) as [E|NE]; cbn [negb].
    + rewrite <- E. rewrite get_set_eq.
      change (c :: N) with ([c] ++ N). rewrite ofList_app_absorb.
      now rewrite set_set_same.
    + unfold addPredefinedTopic. cbv zeta. cbn [base predefinedTopics]. fold N.
      rewrite addTopic_same_key by auto. cbn [snd].
      now rewrite set_set_same.
Qed.

(** X20: [addPredefinedTopic] leaves the topic registered as a core topic,
    under the normalized form of the key it uses, and stores for that key
    the key itself followed by the normalized keywords, each once. *)
Theorem addPredefinedTopic_registers (now1 now2 : Z) (topic : string)
    (keywords : list string) (g : GuidedTopicManager) :
  let g' := addPredefinedTopic now1 now2 topic keywords g in
  (exists md,
     JsMap.get (normalizeTopic (normalizeTopic topic)) (discoveredTopics (base g'))
     = Some md
     /\ isCore md = true)
  /\ exists rest,
       JsMap.get (normalizeTopic topic) (predefinedTopics g')
       = Some (normalizeTopic topic :: rest)
       /\ List.NoDup (normalizeTopic topic :: rest)
       /\ forall w, In w rest
                    <-> w <> normalizeTopic topic /\ In w (map normalizeTopic keywords).
Proof.
  cbv zeta. unfold addPredefinedTopic. cbv zeta. cbn [base predefinedTopics]. split.
  - rewrite get_addTopic_self. eexists. split; [reflexivity|].
    destruct (JsMap.get _ _) as [md|]; cbn [isCore]; [apply orb_true_r | reflexivity].
  - destruct (ofList_head (normalizeTopic topic) (map normalizeTopic keywords))
      as (rest & E).
    pose proof (ofList_NoDup (normalizeTopic topic :: map normalizeTopic keywords))
      as Hnd.
    pose proof (ofList_In (normalizeTopic topic :: map normalizeTopic keywords))
      as Hin.
    rewrite E in Hnd, Hin. exists rest. rewrite get_set_eq, E.
    split; [reflexivity|]. split; [exact Hnd|].
    apply List.NoDup_cons_iff in Hnd as [Hnot _].
    intros w. split.
    + intros Hw. assert (Hne : w <> normalizeTopic topic) by (intros ->; contradiction).
      split; [exact Hne|].
      destruct (proj1 (Hin w) (or_intror Hw)) as [Heq|H]; [congruence | exact H].
    + intros [Hne Hw].
      destruct (proj2 (Hin w) (or_intror Hw)) as [Heq|H]; [congruence | exact H].
Qed.

(** * C2: the synonym map under a discipline on the calls *)

Section Aliases.

Lemma keys_incrementRelationship topic1 topic2 tm :
  JsMap.keys (discoveredTopics (incrementRelationship topic1 topic2 tm))
  = JsMap.keys (discoveredTopics tm).
Proof.
  unfold incrementRelationship. cbv zeta. cbn [withRelationships discoveredTopics].
  destruct (JsMap.get topic1 (discoveredTopics tm)) as [md|] eqn:E; [|reflexivity].
  destruct (negb _); [|reflexivity].
  cbn [withTopics discoveredTopics]. now apply keys_set_present with (v' := md).
Qed.

Lemma keys_updateTopicRelationships topics : forall tm,
  JsMap.keys (discoveredTopics (updateTopicRelationships topics tm))
  = JsMap.keys (discoveredTopics tm).
Proof.
  induction topics as [|t rest IH]; intros tm; [reflexivity|].
  cbn [updateTopicRelationships]. rewrite IH.
  apply (fold_left_preserves
           (fun tm' => JsMap.keys (discoveredTopics tm') = JsMap.keys (discoveredTopics tm)));
    [|reflexivity].
  intros tm' t2 H. now rewrite !keys_incrementRelationship.
Qed.

Lemma keys_trackObservation clock topics tm :
  JsMap.keys (discoveredTopics (trackObservation clock topics tm))
  = JsMap.keys (discoveredTopics tm).
Proof.
  unfold trackObservation. cbv zeta.
  apply (fold_left_preserves
           (fun tm' => JsMap.keys (discoveredTopics tm') = JsMap.keys (discoveredTopics tm)));
    [|reflexivity].
  intros tm' t H. unfold trackTopic. cbv zeta. rewrite keys_updateTopicRelationships.
  destruct (JsMap.get t (discoveredTopics tm')) as [md|] eqn:E; [|exact H].
  rewrite keys_updateInterestLevel. cbn [withTopics discoveredTopics].
  now rewrite (keys_set_present _ _ md).
Qed.

(** Steps that change neither the live keys nor the synonyms. *)
Lemma aliasesApart_frame tm tm' :
  JsMap.keys (discoveredTopics tm') = JsMap.keys (discoveredTopics tm) ->
  synonyms tm' = synonyms tm ->
  aliasesApart tm -> aliasesApart tm'.
Proof. unfold aliasesApart. intros -> ->. auto. Qed.

(** A new topic under a key that is not empty and not redirected. *)
Lemma aliasesApart_addTopic now1 now2 topic core tm :
  normalizeTopic topic <> "" ->
  synonyms tm !! normalizeTopic topic = None ->
  aliasesApart tm -> aliasesApart (snd (addTopic now1 now2 topic core tm)).
Proof.
  intros Hne Hsyn (Hval & Hkey & Hempty). unfold aliasesApart.
  rewrite synonyms_addTopic, keys_addTopic.
  destruct (JsMap.has (normalizeTopic topic) (discoveredTopics tm));
    [now repeat split|].
  split; [|split].
  - intros k v H. apply in_app_iff. left. now apply (Hval k).
  - intros k Hk. apply in_app_iff in Hk as [Hk|[<-|[]]]; [now apply Hkey | exact Hsyn].
  - intros H. apply in_app_iff in H as [H|[H|[]]]; [now apply Hempty | congruence].
Qed.

(** The synonym a discovery step installs: from a name that is not live to
    a live topic. *)
Lemma aliasesApart_install now1 now2 normalized similar tm :
  ~ In normalized (JsMap.keys (discoveredTopics tm)) ->
  In similar (JsMap.keys (discoveredTopics tm)) ->
  aliasesApart tm ->
  aliasesApart
    (updateTopicMetadata now1 now2 similar
       (withSynonyms (insert normalized similar) tm)).
Proof.
  intros Hnot Hlive (Hval & Hkey & Hempty). unfold aliasesApart.
  rewrite synonyms_updateTopicMetadata, keys_updateTopicMetadata.
  cbn [withSynonyms synonyms discoveredTopics].
  split; [|split; [|exact Hempty]].
  - intros k v H. destruct (decide (normalized = k)) as [<-|Hk].
    + rewrite lookup_insert_eq in H. now injection H as <-.
    + rewrite lookup_insert_ne in H by exact Hk. now apply (Hval k).
  - intros k Hk. rewrite lookup_insert_ne; [now apply Hkey|].
    intros <-. contradiction.
Qed.

(** A merge whose source has absorbed no topic. *)
Lemma aliasesApart_mergeTopic source target tm :
  (forall k, synonyms tm !! k <> Some (getCanonicalTopic tm source)) ->
  aliasesApart tm -> aliasesApart (snd (mergeTopic source target tm)).
Proof.
  intros Hfresh Hinv.
  destruct (mergeTopic_false_inv source target tm) as [Ht|[_ ->]]; [|exact Hinv].
  destruct Hinv as (Hval & Hkey & Hempty).
  pose proof (mergeTopic_true_keys _ _ _ Ht) as Hkeys.
  pose proof (mergeTopic_true_distinct _ _ _ Ht) as Hne.
  destruct (discoveredTopics_mergeTopic _ _ _ Ht) as (ms & mt & Hs & Htg & _).
  unfold aliasesApart. rewrite synonyms_mergeTopic, Ht, Hkeys.
  split; [|split].
  - intros k v H. apply filter_In.
    destruct (decide (getCanonicalTopic tm source = k)) as [<-|Hk].
    + rewrite lookup_insert_eq in H. injection H as <-. split.
      * apply get_In in Htg. now apply (in_map fst) in Htg.
      * now apply negb_true_iff, String.eqb_neq.
    + rewrite lookup_insert_ne in H by exact Hk. split; [now apply (Hval k)|].
      apply negb_true_iff, String.eqb_neq. intros E. apply (Hfresh k). now rewrite E.
  - intros k Hk. apply filter_In in Hk as [Hk Hks].
    apply negb_true_iff, String.eqb_neq in Hks.
    rewrite lookup_insert_ne by exact Hks. now apply Hkey.
  - intros H. apply filter_In in H as [H _]. now apply Hempty.
Qed.

(** What [findSimilarTopic] answers for a fixed point of [normalizeTopic],
    when the language model picks from its list: the name itself when it is
    live, a live topic otherwise, or nothing for a name that is neither live
    nor redirected. *)
Lemma findSimilarTopic_live viaLLM tm normalized threshold :
  aliasesApart tm ->
  (forall n l q r, viaLLM n l q = Some r -> In r l) ->
  normalizeTopic normalized = normalized ->
  match findSimilarTopic viaLLM tm normalized threshold with
  | Some similar =>
      similar = normalized /\ In normalized (JsMap.keys (discoveredTopics tm))
      \/ ~ In normalized (JsMap.keys (discoveredTopics tm))
         /\ In similar (JsMap.keys (discoveredTopics tm))
  | None =>
      ~ In normalized (JsMap.keys (discoveredTopics tm))
      /\ synonyms tm !! normalized = None
  end.
Proof.
  intros (Hval & Hkey & Hempty) Horacle Hfix. unfold findSimilarTopic. cbv zeta.
  rewrite Hfix.
  destruct (JsMap.has normalized (discoveredTopics tm)) eqn:Eh.
  - left. split; [reflexivity | now apply has_In].
  - assert (Hnot : ~ In normalized (JsMap.keys (discoveredTopics tm))).
    { intros H. apply has_In in H. congruence. }
    destruct (synonyms tm !! normalized) as [canonical|] eqn:Es.
    + right. split; [exact Hnot | now apply (Hval normalized)].
    + destruct (JsMap.size (discoveredTopics tm) <? 100)%nat.
      * pose proof (findSimilarTopicByComparison_bestMatch normalized threshold tm
                      (proj2 (get_None_keys _ _) Hnot)) as Hbest.
        destruct (findSimilarTopicByComparison tm normalized threshold) as [best|];
          [|now split].
        destruct Hbest as (before & after & E & _). right. split; [exact Hnot|].
        rewrite E. apply in_app_iff. right. now left.
      * destruct (viaLLM normalized (JsMap.keys (discoveredTopics tm)) threshold)
          as [answer|] eqn:Ea; [|now split].
        right. split; [exact Hnot | now apply (Horacle _ _ _ _ Ea)].
Qed.

Lemma aliasesApart_discoverTopic viaLLM acc extracted :
  (forall n l q r, viaLLM n l q = Some r -> In r l) ->
  normalizeTopic (normalizeTopic (fst extracted)) = normalizeTopic (fst extracted) ->
  aliasesApart (snd acc) -> aliasesApart (snd (discoverTopic viaLLM acc extracted)).
Proof.
  intros Horacle Hfix Hinv. unfold discoverTopic. cbv zeta.
  destruct (String.eqb_spec (normalizeTopic (fst extracted)) "") as [E|Hne];
    [exact Hinv|].
  pose proof (findSimilarTopic_live viaLLM (snd acc) (normalizeTopic (fst extracted))
                similarityThreshold Hinv Horacle Hfix) as Hfind.
  destruct (findSimilarTopic _ _ _ _) as [similar|]; cbn [snd].
  - assert (Hlive : In similar (JsMap.keys (discoveredTopics (snd acc)))).
    { destruct Hfind as [[-> H]|[_ H]]; exact H. }
    destruct (String.eqb_spec similar "") as [->|Hs].
    { exfalso. now apply (proj2 (proj2 Hinv)). }
    destruct Hfind as [[-> Hin]|[Hnot Hin]].
    + rewrite String.eqb_refl. cbn [negb].
      apply (aliasesApart_frame (snd acc));
        [apply keys_updateTopicMetadata | apply synonyms_updateTopicMetadata
        | exact Hinv].
    + replace (String.eqb similar (normalizeTopic (fst extracted))) with false.
      * cbn [negb]. now apply aliasesApart_install.
      * symmetry. apply String.eqb_neq. intros ->. contradiction.
  - destruct Hfind as [_ Hsyn]. apply aliasesApart_addTopic; rewrite ?Hfix; auto.
Qed.

Lemma aliasesApart_discoverLoop viaLLM extractedTopics : forall acc,
  (forall n l q r, viaLLM n l q = Some r -> In r l) ->
  Forall (fun e => normalizeTopic (normalizeTopic (fst e)) = normalizeTopic (fst e))
    extractedTopics ->
  aliasesApart (snd acc) ->
  aliasesApart (snd (fold_left (discoverTopic viaLLM) extractedTopics acc)).
Proof.
  induction extractedTopics as [|e rest IH]; intros acc Horacle Hall Hinv; [exact Hinv|].
  inversion Hall as [|? ? He Hrest]; subst. cbn [fold_left].
  apply IH; [exact Horacle | exact Hrest |].
  now apply aliasesApart_discoverTopic.
Qed.

Lemma orderly_aliasesApart tm : orderly tm -> aliasesApart tm.
Proof.
  induction 1 as [ | ? ? ? ? tm _ IH Hne Hsyn | ? ? tm _ IH
                 | viaLLM extracted tm _ IH Horacle Hall
                 | source target tm _ IH Hfresh ].
  - split; [|split].
    + intros k v H. unfold emptyManager in H. cbn [synonyms] in H.
      now rewrite lookup_empty in H.
    + intros k [].
    + intros [].
  - now apply aliasesApart_addTopic.
  - apply (aliasesApart_frame tm);
      [apply keys_trackObservation | apply synonyms_trackObservation | exact IH].
  - unfold discoverTopicsFromText. now apply aliasesApart_discoverLoop.
  - now apply aliasesApart_mergeTopic.
Qed.

End Aliases.

(** Each clause of the discipline is needed.  Without the clause on the
    empty key: ["x"] is merged into the empty key, comes back through
    discovery, and absorbs ["y"]. *)
Example chain_through_empty_key :
  synonyms emptyTargetManager !! "y" = Some "x"
  /\ synonyms emptyTargetManager !! "x" = Some ""
  /\ ~ oneHop (synonyms emptyTargetManager).
Proof.
  split; [vm_compute; reflexivity|]. split; [vm_compute; reflexivity|].
  intros H. specialize (H "y" "x"). vm_compute in H.
  specialize (H eq_refl). discriminate H.
Qed.

(** Without the clause on redirected names: a merged-away name is added
    again and discovery maps a similar name to it. *)
Example chain_after_readding_synonym :
  synonyms readdedManager !! "w1 w2 w3 w4 w5 w6 w7" = Some "w1 w2 w3 w4 w5 w6"
  /\ synonyms readdedManager !! "w1 w2 w3 w4 w5 w6" = Some "t"
  /\ ~ oneHop (synonyms readdedManager).
Proof.
  split; [vm_compute; reflexivity|]. split; [vm_compute; reflexivity|].
  intros H. specialize (H "w1 w2 w3 w4 w5 w6 w7" "w1 w2 w3 w4 w5 w6").
  vm_compute in H. specialize (H eq_refl). discriminate H.
Qed.

(** Without the clause on the extracted topics: the normalized form [" x"]
    of ["- x"] is a live key that ["y"] points to, and discovery redirects
    it to ["x"]. *)
Example chain_after_unstable_key :
  normalizeTopic "- x" = " x"
  /\ synonyms unstableKeyManager !! "y" = Some " x"
  /\ synonyms unstableKeyManager !! " x" = Some "x"
  /\ ~ oneHop (synonyms unstableKeyManager).
Proof.
  split; [reflexivity|].
  split; [vm_compute; reflexivity|]. split; [vm_compute; reflexivity|].
  intros H. specialize (H "y" " x"). vm_compute in H.
  specialize (H eq_refl). discriminate H.
Qed.

(** C2 (amended): the synonym map is one-hop, and every synonym points to a
    live topic, in every state built from the empty manager by [addTopic],
    [trackObservation], [discoverTopicsFromText] and [mergeTopic] under the
    discipline [orderly]: no topic is added under an empty key or under a
    redirected name, no topic that absorbed another is merged away, and
    discovery works on extracted topics whose normalized form is a fixed
    point, with a language model that answers from its list. *)
Theorem synonyms_oneHop_orderly (tm : TopicManager) :
  orderly tm ->
  oneHop (synonyms tm)
  /\ forall k v, synonyms tm !! k = Some v ->
       JsMap.has v (discoveredTopics tm) = true /\ v <> "" /\ v <> k.
Proof.
  intros Ho. destruct (orderly_aliasesApart tm Ho) as (Hval & Hkey & Hempty).
  split.
  - intros k v H. apply Hkey. now apply (Hval k).
  - intros k v H. pose proof (Hval k v H) as Hlive.
    split; [now apply has_In|]. split.
    + intros ->. contradiction.
    + intros ->. rewrite (Hkey k Hlive) in H. discriminate H.
Qed.

(** Three topics added, ["ml"] merged into ["machine learning"], a fourth
    topic added, and a discovery that maps a similar name to it. *)
Lemma synonyms_oneHop_orderly_witness :
  synonyms
    (snd (discoverTopicsFromText noLLM [("W1 w2 w3 w4 w5 w6 w7", (0%Z, 0%Z))]
            (snd (addTopic 0 0 "w1 w2 w3 w4 w5 w6" false mlManager))))
    !! "w1 w2 w3 w4 w5 w6 w7" = Some "w1 w2 w3 w4 w5 w6"
  /\ oneHop
       (synonyms
          (snd (discoverTopicsFromText noLLM [("W1 w2 w3 w4 w5 w6 w7", (0%Z, 0%Z))]
                  (snd (addTopic 0 0 "w1 w2 w3 w4 w5 w6" false mlManager))))).
Proof.
  split; [vm_compute; reflexivity|].
  refine (proj1 (synonyms_oneHop_orderly
                   (snd (discoverTopicsFromText noLLM
                           [("W1 w2 w3 w4 w5 w6 w7", (0%Z, 0%Z))]
                           (snd (addTopic 0 0 "w1 w2 w3 w4 w5 w6" false mlManager))))
                   _)).
  apply orderly_discover.
  - apply orderly_addTopic; [|vm_compute; discriminate | vm_compute; reflexivity].
    unfold mlManager. apply orderly_mergeTopic.
    + apply orderly_addTopic; [|vm_compute; discriminate | reflexivity].
      apply orderly_addTopic; [|vm_compute; discriminate | reflexivity].
      apply orderly_addTopic; [|vm_compute; discriminate | reflexivity].
      exact orderly_empty.
    + intros k. vm_compute. discriminate.
  - intros n l q r H. discriminate H.
  - constructor; [reflexivity | constructor].
Defined.
